(** * Scalarized upper confidence bounds of the custom-acquisition tutorial

    A shallow embedding of the two acquisition functions defined in
    [tutorials/custom_acquisition/custom_acquisition.ipynb]:

    - [qScalarizedUpperConfidenceBound], the Monte Carlo score, and
    - [ScalarizedUpperConfidenceBound], the analytic score for [q = 1].

    Tensors are a shape together with their entries in row-major order.
    Entries are real numbers and the arithmetic on them is exact; devices
    and infinities are not part of the model.  A call either returns a
    value, raises a Python exception, or returns a tensor with a NaN
    entry, which has no real value and is reported as [NotReal].

    Rounding is modelled at the two places where it changes what the
    methods do: the cast [self.beta.to(X)] of the analytic [forward], which
    rounds [beta] when [X] is a float32 tensor, and the scalarized variance
    of the analytic [forward], which is computed a second time in binary64
    arithmetic (section "The scalarized variance in binary64"). *)

From Stdlib Require Import Floats.
From Stdlib Require Import String.
From Stdlib Require Import Reals Lra Lia List Arith Bool.
Import ListNotations.
Local Open Scope string_scope.
Local Open Scope list_scope.
Local Open Scope R_scope.

(** ** Outcomes of a call *)

Inductive exn : Type :=
| ValueError (msg : string)
| AssertionError (msg : string)
| RuntimeError (msg : string)
| IndexError (msg : string).

Inductive result (A : Type) : Type :=
| Ok (a : A)
| Raise (e : exn)
| NotReal.

Arguments Ok {A} a.
Arguments Raise {A} e.
Arguments NotReal {A}.

(** Python's message for [math.sqrt] of a negative float. *)
Definition math_domain_error : exn := ValueError "math domain error".

(** ** Methods: state passing over the object [self]

    A method body reads and assigns attributes of [self]; an assignment
    made before an exception is raised stays. *)

Definition M (S A : Type) : Type := S -> result A * S.

Definition ret {S A} (a : A) : M S A := fun s => (Ok a, s).

Definition bind {S A B} (m : M S A) (f : A -> M S B) : M S B :=
  fun s =>
    match m s with
    | (Ok a, s') => f a s'
    | (Raise e, s') => (Raise e, s')
    | (NotReal, s') => (NotReal, s')
    end.

Definition lift {S A} (r : result A) : M S A := fun s => (r, s).

Definition raise {S A} (e : exn) : M S A := fun s => (Raise e, s).

Definition attr {S A} (f : S -> A) : M S A := fun s => (Ok (f s), s).

Definition assign {S} (f : S -> S) : M S unit := fun s => (Ok tt, f s).

Declare Scope method_scope.
Delimit Scope method_scope with method.
Notation "x <- m ;; k" := (bind m (fun x => k))
  (at level 61, m at next level, right associativity) : method_scope.
Notation "m ;;; k" := (bind m (fun _ => k))
  (at level 61, right associativity) : method_scope.

(** ** Tensors *)

Record Tensor : Type := mkTensor { shape : list nat; data : list R }.

Definition numel (sh : list nat) : nat := fold_right Nat.mul 1%nat sh.

Definition dim (t : Tensor) : nat := length (shape t).

(** A tensor holds as many entries as its shape says. *)
Definition wf (t : Tensor) : Prop := length (data t) = numel (shape t).

Definition get (d : list R) (i : nat) : R := nth i d 0.

Definition tabulate (n : nat) (f : nat -> R) : list R := map f (seq 0 n).

Fixpoint sumn (n : nat) (f : nat -> R) : R :=
  match n with
  | O => 0
  | S k => sumn k f + f k
  end.

(** Largest of [f 0 .. f k]. *)
Fixpoint max_upto (k : nat) (f : nat -> R) : R :=
  match k with
  | O => f O
  | S j => Rmax (max_upto j f) (f k)
  end.

(** [torch.as_tensor] of a Python float: a tensor without dimensions. *)
Definition as_tensor (x : R) : Tensor := mkTensor [] [x].

(** [float(t)], as [math.sqrt] applies it to a tensor argument. *)
Definition to_float (t : Tensor) : result R :=
  if (numel (shape t) =? 1)%nat then Ok (get (data t) 0)
  else Raise (ValueError "only one element tensors can be converted to Python scalars").

(** [math.sqrt] on a Python float. *)
Definition math_sqrt (x : R) : result R :=
  if Rlt_dec x 0 then Raise math_domain_error else Ok (sqrt x).

Definition tmap (f : R -> R) (t : Tensor) : Tensor :=
  mkTensor (shape t) (map f (data t)).

(** [t.abs()]. *)
Definition tabs (t : Tensor) : Tensor := tmap Rabs t.

(** [c * t] for a Python float [c]. *)
Definition scale (c : R) (t : Tensor) : Tensor := tmap (Rmult c) t.

Definition negative (x : R) : bool := if Rlt_dec x 0 then true else false.

(** [t.sqrt()]: entrywise; the root of a negative entry is NaN. *)
Definition tsqrt (t : Tensor) : result Tensor :=
  if existsb negative (data t) then NotReal else Ok (tmap sqrt t).

(** *** Dtypes and casts

    The entries of a tensor are reals, so a tensor of the model has no
    dtype of its own; where the source looks at the dtype of a tensor, it
    is given next to the tensor.  The design points [X] are float64 (the
    notebook sets [torch.set_default_dtype(torch.double)]) or float32. *)

Inductive Dtype : Type := float32 | float64.

(** The integer nearest to [y]; halfway between two integers, the even
    one. *)
Definition nearest_even (y : R) : Z :=
  let f := (up y - 1)%Z in
  if Rlt_dec (y - IZR f) (1 / 2) then f
  else if Rlt_dec (1 / 2) (y - IZR f) then (f + 1)%Z
  else if Z.even f then f else (f + 1)%Z.

(** The first exponent [e' >= e] with [|x| < 2^(e'+1)], among the next
    [fuel] ones. *)
Fixpoint exponent_from (fuel : nat) (e : Z) (x : R) : Z :=
  match fuel with
  | O => e
  | S k => if Rlt_dec (Rabs x) (powerRZ 2 (e + 1)) then e
           else exponent_from k (e + 1)%Z x
  end.

(** The binary exponent of [x] as a float32: [2^e <= |x| < 2^(e+1)] within
    the exponents [-126 .. 127] of the format; smaller numbers are
    subnormal and spaced like those of exponent [-126]. *)
Definition float32_exponent (x : R) : Z := exponent_from 253 (-126) x.

(** The float32 nearest to [x], ties to even: 24 significant bits, so the
    float32 numbers of exponent [e] are the multiples of [2^(e-23)].
    (Numbers that round to a magnitude of [2^128] or more, which a cast
    turns into an infinity, are beyond the model.) *)
Definition round_float32 (x : R) : R :=
  let e := float32_exponent x in
  IZR (nearest_even (x * powerRZ 2 (23 - e))) * powerRZ 2 (e - 23).

(** *** Broadcasting

    Shapes are aligned at their last dimension; two dimensions are
    compatible when they are equal or one of them is 1.  Both functions
    below work on reversed shapes. *)

Fixpoint bshape (s1 s2 : list nat) : option (list nat) :=
  match s1, s2 with
  | [], _ => Some s2
  | _, [] => Some s1
  | a :: r1, b :: r2 =>
      match bshape r1 r2 with
      | None => None
      | Some r =>
          if (a =? b)%nat then Some (a :: r)
          else if (a =? 1)%nat then Some (b :: r)
          else if (b =? 1)%nat then Some (a :: r)
          else None
      end
  end.

Definition broadcast_shapes (s1 s2 : list nat) : option (list nat) :=
  option_map (@rev nat) (bshape (rev s1) (rev s2)).

(** Position in a tensor of (reversed) shape [src] of the entry that is
    read at position [i] of its broadcast to (reversed) shape [target]. *)
Fixpoint bidx (target src : list nat) (i : nat) : nat :=
  match target, src with
  | t :: ts, s :: ss =>
      ((if (s =? 1)%nat then 0 else i mod t) + s * bidx ts ss (i / t))%nat
  | _, _ => 0%nat
  end.

Definition bread (sh : list nat) (t : Tensor) (i : nat) : R :=
  get (data t) (bidx (rev sh) (rev (shape t)) i).

(** An entrywise binary operator with broadcasting. *)
Definition binop (f : R -> R -> R) (a b : Tensor) : result Tensor :=
  match broadcast_shapes (shape a) (shape b) with
  | Some sh =>
      Ok (mkTensor sh
            (tabulate (numel sh) (fun i => f (bread sh a i) (bread sh b i))))
  | None => Raise (RuntimeError "the size of the tensors must match")
  end.

Definition tadd : Tensor -> Tensor -> result Tensor := binop Rplus.
Definition tsub : Tensor -> Tensor -> result Tensor := binop Rminus.
Definition tmul : Tensor -> Tensor -> result Tensor := binop Rmult.

(** Can a (reversed) shape [src] be expanded to the (reversed) shape
    [target]? *)
Fixpoint expandable (src target : list nat) : bool :=
  match src, target with
  | [], _ => true
  | _ :: _, [] => false
  | s :: ss, t :: ts => ((s =? t)%nat || (s =? 1)%nat) && expandable ss ts
  end.

(** [t.expand(sh)]. *)
Definition expand (t : Tensor) (sh : list nat) : result Tensor :=
  if expandable (rev (shape t)) (rev sh)
  then Ok (mkTensor sh (tabulate (numel sh) (bread sh t)))
  else Raise (RuntimeError "the expanded size of the tensor must match the existing size").

(** [t.expand_as(other)]. *)
Definition expand_as (t other : Tensor) : result Tensor :=
  expand t (shape other).

(** *** Shape changes *)

(** [t.unsqueeze(0)]. *)
Definition unsqueeze0 (t : Tensor) : Tensor :=
  mkTensor (1%nat :: shape t) (data t).

(** [sh[:-2]]. *)
Definition drop_last2 (sh : list nat) : list nat :=
  firstn (length sh - 2) sh.

(** [sh[-2]]. *)
Definition dim_m2 (sh : list nat) : nat := nth (length sh - 2) sh 0%nat.

(** [t.squeeze(dim=-2)]: removes the dimension before the last when its
    size is 1. *)
Definition squeeze_m2 (t : Tensor) : result Tensor :=
  if (dim t <? 2)%nat then Raise (IndexError "Dimension out of range")
  else if (dim_m2 (shape t) =? 1)%nat
       then Ok (mkTensor (drop_last2 (shape t) ++ [last (shape t) 0%nat]) (data t))
       else Ok t.

(** [w.view(1, -1, 1)] for a vector [w]: the middle dimension takes the
    length of [w], which may be 0. *)
Definition view_1_m1_1 (w : list R) : result Tensor :=
  Ok (mkTensor [1%nat; length w; 1%nat] w).

(** [t.view(sh)]. *)
Definition view (t : Tensor) (sh : list nat) : result Tensor :=
  if (numel sh =? numel (shape t))%nat then Ok (mkTensor sh (data t))
  else Raise (RuntimeError "shape is invalid for input size").

(** [t.permute(0, 2, 1)]. *)
Definition permute_0_2_1 (t : Tensor) : result Tensor :=
  match shape t with
  | [b; r; c] =>
      Ok (mkTensor [b; c; r]
            (tabulate (b * c * r)
               (fun i =>
                  let j := (i / (c * r))%nat in
                  let row := ((i mod (c * r)) / r)%nat in
                  let col := (i mod r)%nat in
                  get (data t) (j * (r * c) + col * c + row))))
  | _ => Raise (RuntimeError "permute: number of dimensions does not match")
  end.

(** *** Products *)

(** [t.matmul(w)] for a vector [w]: the last dimension of [t] is
    contracted with [w]. *)
Definition matmul (t : Tensor) (w : list R) : result Tensor :=
  match rev (shape t) with
  | [] => Raise (RuntimeError "both arguments to matmul need to be at least 1D")
  | o :: lead =>
      if (o =? length w)%nat
      then Ok (mkTensor (rev lead)
                 (tabulate (numel lead)
                    (fun i => sumn o (fun a => get (data t) (i * o + a) * get w a))))
      else Raise (RuntimeError "size mismatch")
  end.

(** [torch.bmm(a, b)]: a batch of matrix products.  The sums of products
    are exact here; what the rounding of every product and sum in the
    source's binary64 arithmetic does to them is the subject of the
    section "The scalarized variance in binary64". *)
Definition bmm (a b : Tensor) : result Tensor :=
  match shape a, shape b with
  | [ba; n; m], [bb; m'; p] =>
      if ((ba =? bb) && (m =? m'))%nat
      then Ok (mkTensor [ba; n; p]
                 (tabulate (ba * n * p)
                    (fun i =>
                       let j := (i / (n * p))%nat in
                       let r := ((i mod (n * p)) / p)%nat in
                       let c := (i mod p)%nat in
                       sumn m (fun l => get (data a) (j * (n * m) + r * m + l)
                                        * get (data b) (j * (m * p) + l * p + c)))))
      else Raise (RuntimeError "batch1 and batch2 have incompatible sizes")
  | _, _ => Raise (RuntimeError "batch1 and batch2 must be 3D tensors")
  end.

(** *** Reductions *)

(** [t.max(dim=-1)[0]]: the largest entry along the last dimension. *)
Definition max_last (t : Tensor) : result Tensor :=
  match rev (shape t) with
  | [] => Ok t
  | O :: _ => Raise (IndexError "max(): Expected reduction dim to have non-zero size")
  | S k :: lead =>
      Ok (mkTensor (rev lead)
            (tabulate (numel lead)
               (fun i => max_upto k (fun c => get (data t) (i * S k + c)))))
  end.

(** [t.mean(dim=0)]: the average along the first dimension; the average
    of no entries is NaN. *)
Definition mean_first (t : Tensor) : result Tensor :=
  match shape t with
  | [] => Ok t
  | n :: rest =>
      if ((n =? 0) && negb (numel rest =? 0))%nat then NotReal
      else Ok (mkTensor rest
                 (tabulate (numel rest)
                    (fun j => sumn n (fun i => get (data t) (i * numel rest + j)) / INR n)))
  end.

(** ** The modelling library, as far as the two classes use it *)

(** A posterior is read through [posterior.mean] and
    [posterior.mvn.covariance_matrix] only. *)
Record Posterior : Type := mkPosterior {
  mean : Tensor;
  covariance_matrix : Tensor
}.

(** [model.posterior(X)]. *)
Record Model : Type := mkModel { posterior : Tensor -> Posterior }.

Inductive SamplerClass : Type := SobolQMCNormal | IIDNormal | OtherSampler.

(** Modelled from the spec: the sampler classes of [botorch.sampling] are
    not among the sources.  "A sampler object determines how many
    posterior draws are generated": a sampler has a [sample_shape], and
    [base_draw i p] is its [i]-th draw from the posterior [p], with the
    entries laid out like those of [mean p]. *)
Record MCSampler : Type := mkSampler {
  sampler_class : SamplerClass;
  sample_shape : list nat;
  base_draw : nat -> Posterior -> list R
}.

(** Modelled from the spec: [MCAcquisitionFunction.get_posterior_samples]
    is not among the sources.  It stacks the sampler's draws: a tensor of
    shape [sample_shape x mean.shape] (the source's [n x b x q x o]). *)
Definition get_posterior_samples (sampler : MCSampler) (p : Posterior) : Tensor :=
  let msize := numel (shape (mean p)) in
  mkTensor (sample_shape sampler ++ shape (mean p))
    (tabulate (numel (sample_shape sampler) * msize)
       (fun i => get (base_draw sampler (i / msize) p) (i mod msize))).

(** Modelled from the spec: part of [t_batch_mode_transform] below, which
    "ensures that the input X has an explicit t-batch dimension": an input
    [q x d] without one reaches the method body as [1 x q x d]. *)
Definition with_t_batch (X : Tensor) : Tensor :=
  if (2 <? dim X)%nat then X else unsqueeze0 X.

(** Modelled from the spec: the decorators of [botorch.utils] are not among
    the sources.  [t_batch_mode_transform] "ensures that the input X has an
    explicit t-batch dimension", and with [expected_q] "ensure[s] the input
    X has a q=1": an input without a [q] dimension and an input whose [q]
    is not the expected one are refused by the library's validity checks
    before the method runs. *)
Definition t_batch_mode_transform {S : Type} (expected_q : option nat)
    (method : Tensor -> M S Tensor) (X : Tensor) : M S Tensor :=
  if (dim X <? 2)%nat
  then raise (ValueError "requires X to have at least 2 dimensions")
  else
    let run := method (with_t_batch X) in
    match expected_q with
    | Some q =>
        if (dim_m2 (shape X) =? q)%nat then run
        else raise (AssertionError "Expected X to be batch_shape x q x d")
    | None => run
    end.

(** Modelled from the spec: [average_over_ensemble_models] "averages the
    acquisition values of ensemble models over elements of the ensemble".
    A [Model] here is a single model, not an ensemble, and for those the
    decorator returns what the method returns. *)
Definition average_over_ensemble_models {S : Type}
    (method : Tensor -> M S Tensor) : Tensor -> M S Tensor :=
  fun X => (output <- method X ;; ret output)%method.

(** ** class qScalarizedUpperConfidenceBound(MCAcquisitionFunction) *)

Module qScalarizedUpperConfidenceBound.

Record self : Type := mkSelf {
  model : Model;
  sampler : MCSampler;
  beta : Tensor;
  weights : list R
}.

Section Init.

(** The Sobol engine behind [SobolQMCNormalSampler] is not among the
    sources: its draws are a parameter. *)
Variable sobol_normal : nat -> Posterior -> list R.

Definition SobolQMCNormalSampler (sample_shape : list nat) : MCSampler :=
  mkSampler SobolQMCNormal sample_shape sobol_normal.

Definition __init__ (model : Model) (beta : Tensor) (weights : list R)
    (sampler : option MCSampler) : self :=
  let sampler :=
    match sampler with
    | None => SobolQMCNormalSampler [512%nat]
    | Some s => s
    end in
  mkSelf model sampler beta weights.

End Init.

(** The body of [forward]; [X] has its t-batch dimension. *)
Definition forward_body (X : Tensor) : M self Tensor :=
  (model_ <- attr model ;;
   let posterior := posterior model_ X in
   sampler_ <- attr sampler ;;
   let samples := get_posterior_samples sampler_ posterior in
   weights_ <- attr weights ;;
   scalarized_samples <- lift (matmul samples weights_) ;;
   let mean := mean posterior in
   scalarized_mean <- lift (matmul mean weights_) ;;
   beta_ <- attr beta ;;
   beta_float <- lift (to_float (tmap (fun b => b * PI / 2) beta_)) ;;
   coeff <- lift (math_sqrt beta_float) ;;
   deviation <- lift (tsub scalarized_samples scalarized_mean) ;;
   ucb_samples <- lift (tadd scalarized_mean (scale coeff (tabs deviation))) ;;
   maxima <- lift (max_last ucb_samples) ;;
   lift (mean_first maxima))%method.

Definition forward : Tensor -> M self Tensor :=
  t_batch_mode_transform None (average_over_ensemble_models forward_body).

End qScalarizedUpperConfidenceBound.

(** ** class ScalarizedUpperConfidenceBound(AnalyticAcquisitionFunction) *)

Module ScalarizedUpperConfidenceBound.

Record self : Type := mkSelf {
  model : Model;
  maximize : bool;
  beta : Tensor;
  weights : list R
}.

Definition __init__ (model : Model) (beta : Tensor) (weights : list R)
    (maximize : bool) : self :=
  mkSelf model maximize beta weights.

(** [t.to(X)] for an [X] of dtype [dt]: the tensor [t] with the dtype (and
    device) of [X].  A cast to float32 rounds the entries; a cast to
    float64 is exact on float32 and on float64 entries.  The shape stays. *)
Definition to (t : Tensor) (dt : Dtype) : Tensor :=
  match dt with
  | float64 => t
  | float32 => tmap round_float32 t
  end.

Definition set_beta (b : Tensor) (s : self) : self :=
  mkSelf (model s) (maximize s) b (weights s).

(** The body of [forward] for an [X] of dtype [dt]; [X] has its t-batch
    dimension and [q = 1]. *)
Definition forward_body_at (dt : Dtype) (X : Tensor) : M self Tensor :=
  (beta_ <- attr beta ;;
   assign (set_beta (to beta_ dt)) ;;;
   let batch_shape := drop_last2 (shape X) in
   model_ <- attr model ;;
   let posterior := posterior model_ X in
   means <- lift (squeeze_m2 (mean posterior)) ;;
   weights_ <- attr weights ;;
   scalarized_mean <- lift (matmul means weights_) ;;
   let covs := covariance_matrix posterior in
   weights1 <- lift (view_1_m1_1 weights_) ;;
   weights2 <- lift (expand weights1 (batch_shape ++ tl (shape weights1))) ;;
   weights_transpose <- lift (permute_0_2_1 weights2) ;;
   inner <- lift (bmm covs weights2) ;;
   outer <- lift (bmm weights_transpose inner) ;;
   scalarized_variance <- lift (view outer batch_shape) ;;
   beta_ <- attr beta ;;
   beta_expanded <- lift (expand_as beta_ scalarized_mean) ;;
   product <- lift (tmul beta_expanded scalarized_variance) ;;
   delta <- lift (tsqrt product) ;;
   maximize_ <- attr maximize ;;
   if maximize_ : bool
   then lift (tadd scalarized_mean delta)
   else lift (tsub scalarized_mean delta))%method.

(** [forward] called with an [X] of dtype [dt]. *)
Definition forward_at (dt : Dtype) : Tensor -> M self Tensor :=
  t_batch_mode_transform (Some 1%nat)
    (average_over_ensemble_models (forward_body_at dt)).

(** [forward] called with a float64 [X], the dtype of the notebook. *)
Definition forward_body : Tensor -> M self Tensor := forward_body_at float64.

Definition forward : Tensor -> M self Tensor :=
  t_batch_mode_transform (Some 1%nat) (average_over_ensemble_models forward_body).

End ScalarizedUpperConfidenceBound.

(** ** The two scores, entry by entry

    The formulas of the specification, for the t-batch element [j] of the
    input.  [w] is the weight vector, with one weight per output. *)

Section Formulas.

Variable w : list R.

(** Weighted combination of the outputs of row [r] of a tensor whose
    last dimension runs over the outputs. *)
Definition scalarize (d : list R) (r : nat) : R :=
  sumn (length w) (fun a => get w a * get d (r * length w + a)).

(** The quadratic form [w^T C w] of the [j]-th covariance matrix. *)
Definition quadratic_form (covs : list R) (j : nat) : R :=
  let o := length w in
  sumn o (fun a =>
    sumn o (fun c => get w a * get covs (j * (o * o) + a * o + c) * get w c)).

(** The entry of [beta] that applies to t-batch element [j]: a [beta]
    with one entry applies to all of them. *)
Definition beta_entry (beta : Tensor) (j : nat) : R :=
  if (numel (shape beta) =? 1)%nat then get (data beta) 0 else get (data beta) j.

(** Exploration term of the analytic score. *)
Definition analytic_delta (beta : Tensor) (p : Posterior) (j : nat) : R :=
  sqrt (beta_entry beta j * quadratic_form (data (covariance_matrix p)) j).

(** Analytic score: scalarized mean plus or minus the root of [beta]
    times the scalarized variance. *)
Definition analytic_score (maximize : bool) (beta : Tensor) (p : Posterior)
    (j : nat) : R :=
  let m := scalarize (data (mean p)) j in
  if maximize then m + analytic_delta beta p j else m - analytic_delta beta p j.

(** Monte Carlo UCB value of draw [i] at candidate [k] of t-batch element
    [j], for [q] candidates per t-batch element. *)
Definition mc_ucb_sample (beta : R) (sampler : MCSampler) (p : Posterior)
    (q i j k : nat) : R :=
  let m := scalarize (data (mean p)) (j * q + k) in
  let s := scalarize (base_draw sampler i p) (j * q + k) in
  m + sqrt (beta * PI / 2) * Rabs (s - m).

(** Monte Carlo score: the largest UCB value over the [q] candidates,
    averaged over the [n] draws. *)
Definition mc_score (beta : R) (sampler : MCSampler) (p : Posterior)
    (n q j : nat) : R :=
  sumn n (fun i => max_upto (q - 1) (mc_ucb_sample beta sampler p q i j)) / INR n.

End Formulas.

(** A covariance tensor [b x o x o] is positive semidefinite when each of
    its [b] matrices has a non-negative quadratic form at every vector. *)
Definition positive_semidefinite (covs : Tensor) : Prop :=
  forall (v : list R) (j : nat),
    (j < hd 0%nat (shape covs))%nat ->
    length v = last (shape covs) 0%nat ->
    0 <= quadratic_form v (data covs) j.

Definition nonnegative (t : Tensor) : Prop := Forall (fun x => 0 <= x) (data t).

(** Every entry that can be read from a list, the default included, is
    non-negative. *)
Definition entries_nonneg (d : list R) : Prop := forall i, 0 <= get d i.

Definition all_zero (t : Tensor) : Prop := Forall (fun x => x = 0) (data t).

(** A method that leaves [self] as it was. *)
Definition keeps {S A} (m : M S A) : Prop := forall s, snd (m s) = s.

Module SUCB := ScalarizedUpperConfidenceBound.
Module qSUCB := qScalarizedUpperConfidenceBound.

(** The object after a sequence of calls of a method, each returning or
    raising. *)
Definition after_calls {S A I : Type} (method : I -> M S A) (inputs : list I)
    (s : S) : S :=
  fold_left (fun s' x => snd (method x s')) inputs s.

(** A call of the analytic [forward] with an input given with its dtype. *)
Definition analytic_call (c : Dtype * Tensor) : M SUCB.self Tensor :=
  SUCB.forward_at (fst c) (snd c).

(** The quadratic form [w^T C w] of the covariance tensor [covs] is
    non-negative at every t-batch element. *)
Definition scalarized_variance_nonneg (w : list R) (covs : Tensor) : Prop :=
  forall j, (j < hd 0%nat (shape covs))%nat ->
    0 <= quadratic_form w (data covs) j.

(** Sequencing of outcomes. *)
Definition and_then {A B : Type} (r : result A) (k : A -> result B) : result B :=
  match r with
  | Ok a => k a
  | Raise e => Raise e
  | NotReal => NotReal
  end.

(** The tensor [scalarized_variance] of the analytic [forward]: the steps
    of its body from [self.weights.view(1, -1, 1)] to
    [torch.bmm(...).view(batch_shape)], as a function of the weights, the
    batch shape and the covariance tensor. *)
Definition scalarized_variance (weights_ : list R) (batch_shape : list nat)
    (covs : Tensor) : result Tensor :=
  and_then (view_1_m1_1 weights_) (fun weights1 =>
  and_then (expand weights1 (batch_shape ++ tl (shape weights1))) (fun weights2 =>
  and_then (permute_0_2_1 weights2) (fun weights_transpose =>
  and_then (bmm covs weights2) (fun inner =>
  and_then (bmm weights_transpose inner) (fun outer =>
  view outer batch_shape))))).

(** The scalarized variance that the analytic [forward] computes at the
    input [X] (with its t-batch dimension) has no negative entry. *)
Definition computed_variance_nonneg (weights_ : list R) (X : Tensor)
    (covs : Tensor) : Prop :=
  forall sv, scalarized_variance weights_ (drop_last2 (shape X)) covs = Ok sv ->
    nonnegative sv.

(** ** The scalarized variance in binary64

    [bmm] adds exact products.  The source computes in binary64, the dtype
    of the notebook: every product and every partial sum is rounded to the
    nearest double.  The steps of the analytic [forward] that lead to the
    square root - the two [torch.bmm] products, the product with [beta]
    and the root - follow here in the binary64 arithmetic of the kernel,
    for one t-batch element whose covariance matrix is given by its
    rows. *)

(** One entry of a matrix product: the products are added one by one. *)
Definition dot64 (u v : list float) : float :=
  fold_left (fun acc xy => (acc + fst xy * snd xy)%float) (combine u v) 0%float.

(** [torch.bmm(covs, weights)]: the matrix times the column of weights. *)
Definition bmm64_column (cov : list (list float)) (w : list float) : list float :=
  map (fun row => dot64 row w) cov.

(** [torch.bmm(weights_transpose, torch.bmm(covs, weights))]. *)
Definition scalarized_variance64 (cov : list (list float)) (w : list float) : float :=
  dot64 w (bmm64_column cov w).

(** [(self.beta.expand_as(scalarized_mean) * scalarized_variance).sqrt()]. *)
Definition delta64 (beta : float) (cov : list (list float)) (w : list float) : float :=
  PrimFloat.sqrt (beta * scalarized_variance64 cov w)%float.

(** The real number that a finite double stands for. *)
Definition float_value (x : float) : R :=
  match Prim2SF x with
  | S754_finite sign m e => (if sign then -1 else 1) * IZR (Zpos m) * powerRZ 2 e
  | _ => 0
  end.

(** ** Growing the number of draws

    The two classes are compared on one posterior while the Monte Carlo
    sampler takes more and more draws of one stream. *)

(** The sampler that takes the first [n] draws of the stream [draws]. *)
Definition stream_sampler (c : SamplerClass)
    (draws : nat -> Posterior -> list R) (n : nat) : MCSampler :=
  mkSampler c [n] draws.

(** Average distance of the first [N + 1] scalarized draws from the
    scalarized mean, at t-batch element [j] (one candidate per element). *)
Definition mean_abs_deviation (w : list R) (draws : nat -> Posterior -> list R)
    (p : Posterior) (j N : nat) : R :=
  sumn (S N)
    (fun i => Rabs (scalarize w (draws i p) j - scalarize w (data (mean p)) j))
  / INR (S N).

(** The Monte Carlo score with [N + 1] draws tends to the analytic score,
    entry by entry, as [N] grows. *)
Definition mc_converges_to_analytic (maximize : bool) (model : Model)
    (beta : Tensor) (w : list R) (c : SamplerClass)
    (draws : nat -> Posterior -> list R) (X : Tensor) (b : nat) : Prop :=
  exists (mc : nat -> nat -> R) (L : nat -> R),
    (forall N,
        fst (qSUCB.forward X (qSUCB.mkSelf model (stream_sampler c draws (S N)) beta w))
        = Ok (mkTensor [b] (tabulate b (mc N))))
    /\ fst (SUCB.forward X (SUCB.__init__ model beta w maximize))
       = Ok (mkTensor [b] (tabulate b L))
    /\ forall j, (j < b)%nat -> Un_cv (fun N => mc N j) (L j).

(** ** Random draws

    The draws of a sampler are random: they depend on a sample point
    [omega] of a probability space, which enters through its expectation
    [E], a functional on the random variables [Omega -> R]. *)

(** [E] is an expectation: it depends on the values of a variable only, is
    linear, and gives 1 to the constant 1. *)
Definition is_expectation {Omega : Type} (E : (Omega -> R) -> R) : Prop :=
  (forall f g, (forall omega, f omega = g omega) -> E f = E g)
  /\ (forall f g, E (fun omega => f omega + g omega) = E f + E g)
  /\ (forall c f, E (fun omega => c * f omega) = c * E f)
  /\ E (fun _ => 1) = 1.

(** Distance of the scalarized draw [i] from the scalarized mean, at
    t-batch element [j] (one candidate per element). *)
Definition abs_deviation (w : list R) (draws : nat -> Posterior -> list R)
    (p : Posterior) (j i : nat) : R :=
  Rabs (scalarize w (draws i p) j - scalarize w (data (mean p)) j).

(** The density of the normal law with mean [m] and variance [v]. *)
Definition normal_density (m v x : R) : R :=
  exp (- ((x - m) * (x - m) / (2 * v))) / sqrt (2 * PI * v).

(** [s] times an antiderivative of [- (x - m) * normal_density m v x]. *)
Definition normal_primitive (s m v x : R) : R :=
  s * v * exp (- ((x - m) * (x - m) / (2 * v))) / sqrt (2 * PI * v).

(** What independent draws of a Gaussian posterior obey, at t-batch
    element [j] and for the draws [0 .. N].  The scalarized posterior is
    normal with variance [v = w^T C w]; so the distance of a scalarized
    draw from the scalarized mean has the expectation [sqrt (2 v / pi)]
    (the mean distance of a normal variable from its mean, see
    [normal_mean_abs_deviation]) and the mean square [v], and the
    distances of two different draws are uncorrelated. *)
Definition gaussian_moments {Omega : Type} (E : (Omega -> R) -> R) (w : list R)
    (draws : Omega -> nat -> Posterior -> list R) (p : Posterior) (j N : nat) : Prop :=
  let v := quadratic_form w (data (covariance_matrix p)) j in
  let a := fun i omega => abs_deviation w (draws omega) p j i in
  (forall i, (i <= N)%nat -> E (a i) = sqrt (2 * v / PI))
  /\ (forall i, (i <= N)%nat -> E (fun omega => a i omega * a i omega) = v)
  /\ (forall i k, (i <= N)%nat -> (k <= N)%nat -> i <> k ->
        E (fun omega => a i omega * a k omega) = E (a i) * E (a k)).

(** Entry [j] of the tensor that a call returns. *)
Definition entry (r : result Tensor) (j : nat) : R :=
  match r with
  | Ok t => get (data t) j
  | _ => 0
  end.

(** Expected squared difference, at t-batch element [j], between the Monte
    Carlo score with the [N + 1] draws [0 .. N] and the analytic score
    with [maximize = True]. *)
Definition mean_square_error {Omega : Type} (E : (Omega -> R) -> R)
    (model : Model) (beta : Tensor) (w : list R) (c : SamplerClass)
    (draws : Omega -> nat -> Posterior -> list R) (X : Tensor) (N j : nat) : R :=
  E (fun omega =>
       let mc := entry (fst (qSUCB.forward X
                               (qSUCB.mkSelf model
                                  (stream_sampler c (draws omega) (S N)) beta w))) j in
       let an := entry (fst (SUCB.forward X (SUCB.__init__ model beta w true))) j in
       (mc - an) * (mc - an)).

(** ** Objects for concrete evaluations

    The notebook tests both classes on a two-output model with
    [beta = 0.1] and [weights = [0.1, 0.5]].  The fitted model is replaced
    by one with a fixed posterior: mean [(1, 2)] at every design point and
    the identity as covariance of the [q * 2] outputs of a q-batch. *)

Definition example_model : Model :=
  mkModel (fun X =>
    let bs := drop_last2 (shape X) in
    let q := dim_m2 (shape X) in
    let m := (q * 2)%nat in
    mkPosterior
      (mkTensor (bs ++ [q; 2%nat])
         (tabulate (numel bs * q * 2) (fun i => if Nat.even i then 1 else 2)))
      (mkTensor (bs ++ [m; m])
         (tabulate (numel bs * (m * m))
            (fun i => if ((i mod (m * m)) / m =? i mod m)%nat then 1 else 0)))).

Definition example_weights : list R := [0.1; 0.5].

Definition example_beta : Tensor := as_tensor 0.1.

(** Draw [i] lies [i] above the mean in every entry. *)
Definition example_draw (i : nat) (p : Posterior) : list R :=
  map (fun x => x + INR i) (data (mean p)).

(** [torch.rand(1, 2)]-shaped input: one design point, [q = 1], [d = 2]. *)
Definition example_X : Tensor := mkTensor [1%nat; 2%nat] [0.25; 0.75].

(** A [3 x 2]-shaped input: one q-batch with [q = 3]. *)
Definition example_X_q3 : Tensor :=
  mkTensor [3%nat; 2%nat] [0.25; 0.75; 0.5; 0.5; 0; 1].

Definition example_qSUCB : qSUCB.self :=
  qSUCB.__init__ example_draw example_model example_beta example_weights None.

Definition example_SUCB : SUCB.self :=
  SUCB.__init__ example_model example_beta example_weights true.

(** A one-output model whose posterior at the single design point is the
    standard normal distribution. *)
Definition standard_normal_model : Model :=
  mkModel (fun _ =>
    mkPosterior (mkTensor [1%nat; 1%nat; 1%nat] [0])
                (mkTensor [1%nat; 1%nat; 1%nat] [1])).

Definition point_X : Tensor := mkTensor [1%nat; 1%nat] [0].

(** A stream of draws that lie in turn above and below the mean, at the
    mean distance [sqrt (2 / PI)] of a standard normal variable from its
    mean. *)
Definition symmetric_draws (i : nat) (p : Posterior) : list R :=
  [if Nat.even i then sqrt (2 / PI) else - sqrt (2 / PI)].

(** Two fair coins: the sample points are the four outcomes, and the
    expectation is the average over them. *)
Definition coin_average (f : bool * bool -> R) : R :=
  (f (true, true) + f (true, false) + f (false, true) + f (false, false)) / 4.

(** Draws decided by the coins: draw 0 by the first, the later ones by the
    second.  A draw lies at the distance [sqrt (2 / pi)] plus or minus
    [sqrt (1 - 2 / pi)] above the mean 0, which gives the distance the
    mean [sqrt (2 / pi)] and the mean square 1 of a standard normal
    variable. *)
Definition two_point_draws (omega : bool * bool) (i : nat) (p : Posterior) : list R :=
  let coin := if (i =? 0)%nat then fst omega else snd omega in
  [sqrt (2 / PI) + (if coin then sqrt (1 - 2 / PI) else - sqrt (1 - 2 / PI))].

(** A positive semidefinite covariance of two outputs, of rank one: the
    matrix [[1, 3], [3, 9]], as the tensor of one t-batch element and as
    rows of doubles; and the weights [(2.7, -0.9)] as doubles. *)
Definition rank_one_covs : Tensor :=
  mkTensor [1%nat; 2%nat; 2%nat] [1; 3; 3; 9].

Definition rank_one_cov64 : list (list float) := [[1; 3]; [3; 9]]%float.

Definition skew_weights64 : list float :=
  [0x1.599999999999ap+1; -0x1.ccccccccccccdp-1]%float.

(** ** Further inputs

    Inputs for the properties beyond the claims. *)

(** The weight vector that selects output [a] among [o] outputs. *)
Definition one_hot (o a : nat) : list R :=
  tabulate o (fun i => if (i =? a)%nat then 1 else 0).

(** A [2 x 3 x 1 x 2]-shaped input: two t-batch dimensions, [q = 1]. *)
Definition example_X_two_batch_dims : Tensor :=
  mkTensor [2%nat; 3%nat; 1%nat; 2%nat] (repeat 0.5 12).

(** A [0 x 2]-shaped input: a q-batch without candidates. *)
Definition example_X_q0 : Tensor := mkTensor [0%nat; 2%nat] [].

(** A model without outputs: at [b] design points the mean has shape
    [b x 1 x 0] and the covariance shape [b x 0 x 0]. *)
Definition no_output_model : Model :=
  mkModel (fun X =>
    mkPosterior (mkTensor [hd 0%nat (shape X); 1%nat; 0%nat] [])
                (mkTensor [hd 0%nat (shape X); 0%nat; 0%nat] [])).

(** A [2 x 1 x 2]-shaped input: two t-batch elements, [q = 1]. *)
Definition example_X_b2 : Tensor :=
  mkTensor [2%nat; 1%nat; 2%nat] [0.25; 0.75; 0.5; 0.5].

(** ** Auxiliary facts on indices, sums and tabulated lists *)

Lemma tabulate_length n f : length (tabulate n f) = n.
Proof. unfold tabulate. now rewrite length_map, length_seq. Qed.

Lemma get_tabulate n f i : (i < n)%nat -> get (tabulate n f) i = f i.
Proof.
  intros Hi. unfold get, tabulate.
  rewrite (nth_indep _ 0 (f 0%nat)) by now rewrite length_map, length_seq.
  rewrite (map_nth f (seq 0 n) 0%nat i), seq_nth by assumption. reflexivity.
Qed.

Lemma tabulate_ext n f g :
  (forall i, (i < n)%nat -> f i = g i) -> tabulate n f = tabulate n g.
Proof.
  intros H. unfold tabulate. apply map_ext_in.
  intros i Hi. apply in_seq in Hi. apply H. lia.
Qed.

Lemma sumn_ext n f g :
  (forall i, (i < n)%nat -> f i = g i) -> sumn n f = sumn n g.
Proof.
  induction n as [|n IH]; intros H; simpl; [reflexivity|].
  rewrite IH, H by (intros; try apply H; lia). reflexivity.
Qed.

Lemma sumn_scal n c f : sumn n (fun i => c * f i) = c * sumn n f.
Proof. induction n as [|n IH]; simpl; [lra | rewrite IH; lra]. Qed.

Lemma sumn_plus n f g : sumn n (fun i => f i + g i) = sumn n f + sumn n g.
Proof. induction n as [|n IH]; simpl; [lra | rewrite IH; lra]. Qed.

Lemma sumn_const n c : sumn n (fun _ => c) = INR n * c.
Proof.
  induction n as [|n IH]; [simpl; lra|].
  rewrite S_INR. simpl sumn. rewrite IH. lra.
Qed.

Lemma sumn_nonneg n f : (forall i, (i < n)%nat -> 0 <= f i) -> 0 <= sumn n f.
Proof.
  induction n as [|n IH]; intros H; simpl; [lra|].
  assert (0 <= sumn n f) by (apply IH; intros; apply H; lia).
  assert (0 <= f n) by (apply H; lia). lra.
Qed.

Lemma sumn_pick n a f :
  (a < n)%nat ->
  sumn n (fun i => (if (i =? a)%nat then 1 else 0) * f i) = f a.
Proof.
  intros Ha. induction n as [|n IH]; [lia|]. simpl.
  destruct (Nat.eqb_spec n a) as [->|Hne].
  - rewrite (sumn_ext a _ (fun _ => 0)).
    + rewrite sumn_const. lra.
    + intros i Hi. destruct (Nat.eqb_spec i a); [lia | lra].
  - rewrite IH by lia. lra.
Qed.

Lemma max_upto_ext k f g :
  (forall i, (i <= k)%nat -> f i = g i) -> max_upto k f = max_upto k g.
Proof.
  induction k as [|k IH]; intros H; simpl.
  - apply H. lia.
  - rewrite IH, H by (intros; try apply H; lia). reflexivity.
Qed.

Lemma index_lt i j n m : (i < n)%nat -> (j < m)%nat -> (i * m + j < n * m)%nat.
Proof. intros. nia. Qed.

Lemma index_div q r m : (r < m)%nat -> ((q * m + r) / m)%nat = q.
Proof.
  intros H. symmetry. apply (Nat.div_unique _ m q r); lia.
Qed.

Lemma index_mod q r m : (r < m)%nat -> ((q * m + r) mod m)%nat = r.
Proof.
  intros H. symmetry. apply (Nat.mod_unique _ m q r); lia.
Qed.

Lemma numel_app s1 s2 : numel (s1 ++ s2) = (numel s1 * numel s2)%nat.
Proof. induction s1 as [|a s1 IH]; simpl; [lia | rewrite IH; lia]. Qed.

Lemma numel_rev s : numel (rev s) = numel s.
Proof.
  induction s as [|a s IH]; simpl; [reflexivity|].
  rewrite numel_app, IH. simpl. lia.
Qed.

(** Broadcasting a tensor against one with extra leading dimensions. *)

Lemma bshape_app_l l r : bshape (l ++ r) l = Some (l ++ r).
Proof.
  induction l as [|a l IH]; simpl.
  - now destruct r.
  - now rewrite IH, Nat.eqb_refl.
Qed.

Lemma bshape_app_r l r : bshape l (l ++ r) = Some (l ++ r).
Proof.
  induction l as [|a l IH]; simpl; [reflexivity|].
  now rewrite IH, Nat.eqb_refl.
Qed.

Lemma bidx_prefix l r i : bidx (l ++ r) l i = (i mod numel l)%nat.
Proof.
  revert i. induction l as [|a l IH]; intros i; simpl.
  - now destruct r.
  - rewrite IH. destruct (Nat.eqb_spec a 1) as [->|Ha].
    + rewrite Nat.div_1_r, !Nat.mul_1_l. reflexivity.
    + now rewrite Nat.Div0.mod_mul_r.
Qed.

Lemma bidx_same l i : (i < numel l)%nat -> bidx l l i = i.
Proof.
  intros Hi. rewrite <- (app_nil_r l) at 1. rewrite bidx_prefix.
  now apply Nat.mod_small.
Qed.

Lemma broadcast_shapes_lead pre sh :
  broadcast_shapes (pre ++ sh) sh = Some (pre ++ sh).
Proof.
  unfold broadcast_shapes. rewrite rev_app_distr, bshape_app_l.
  simpl. now rewrite <- rev_app_distr, rev_involutive.
Qed.

Lemma broadcast_shapes_lead_r pre sh :
  broadcast_shapes sh (pre ++ sh) = Some (pre ++ sh).
Proof.
  unfold broadcast_shapes. rewrite rev_app_distr, bshape_app_r.
  simpl. now rewrite <- rev_app_distr, rev_involutive.
Qed.

Lemma bread_lead pre t i :
  bread (pre ++ shape t) t i = get (data t) (i mod numel (shape t)).
Proof.
  unfold bread. now rewrite rev_app_distr, bidx_prefix, numel_rev.
Qed.

Lemma bread_same t i :
  (i < numel (shape t))%nat -> bread (shape t) t i = get (data t) i.
Proof.
  intros Hi. unfold bread. rewrite bidx_same; [reflexivity|].
  now rewrite numel_rev.
Qed.

(** ** The analytic score, step by step *)

Lemma bind_attr {S A B} (f : S -> A) (k : A -> M S B) s :
  bind (attr f) k s = k (f s) s.
Proof. reflexivity. Qed.

Lemma bind_lift_Ok {S A B} (r : result A) (a : A) (k : A -> M S B) s :
  r = Ok a -> bind (lift r) k s = k a s.
Proof. intros ->. reflexivity. Qed.

Lemma bind_assign {S B} (f : S -> S) (k : unit -> M S B) s :
  bind (assign f) k s = k tt (f s).
Proof. reflexivity. Qed.

Lemma matmul_rows lead o d w :
  length w = o ->
  matmul (mkTensor (lead ++ [o]) d) w =
  Ok (mkTensor lead
        (tabulate (numel lead)
           (fun i => sumn o (fun a => get d (i * o + a) * get w a)))).
Proof.
  intros Hw. unfold matmul. cbn [shape data].
  rewrite rev_app_distr. cbn [rev app].
  rewrite Hw, Nat.eqb_refl, rev_involutive, numel_rev. reflexivity.
Qed.

Lemma expand_weights b o w :
  expand (mkTensor [1; o; 1]%nat w) [b; o; 1%nat] =
  Ok (mkTensor [b; o; 1%nat] (tabulate (b * o) (fun i => get w (i mod o)))).
Proof.
  unfold expand. cbn [shape data rev app expandable].
  rewrite !Nat.eqb_refl. cbn [orb andb]. rewrite orb_true_r. cbn [andb].
  do 2 f_equal.
  replace (numel [b; o; 1%nat]) with (b * o)%nat by (simpl; lia).
  apply tabulate_ext. intros i Hi. unfold bread. cbn [shape data rev app bidx].
  f_equal. rewrite Nat.div_1_r.
  destruct (Nat.eqb_spec o 1) as [->|Hne].
  - now rewrite Nat.mod_1_r.
  - cbn [Nat.eqb]. lia.
Qed.

Lemma permute_column b o d :
  permute_0_2_1 (mkTensor [b; o; 1%nat] d) =
  Ok (mkTensor [b; 1%nat; o] (tabulate (b * o) (get d))).
Proof.
  unfold permute_0_2_1. cbn [shape data]. do 2 f_equal.
  rewrite Nat.mul_1_r. apply tabulate_ext. intros i Hi. cbv zeta.
  f_equal. rewrite !Nat.mul_1_l, !Nat.mul_1_r.
  assert (o <> 0)%nat by lia.
  rewrite (Nat.div_small (i mod o) o) by now apply Nat.mod_upper_bound.
  pose proof (Nat.div_mod_eq i o). lia.
Qed.

Lemma bmm_column b o covs v :
  bmm (mkTensor [b; o; o] covs) (mkTensor [b; o; 1%nat] v) =
  Ok (mkTensor [b; o; 1%nat]
        (tabulate (b * o)
           (fun i => sumn o (fun l => get covs (i * o + l) * get v (i / o * o + l))))).
Proof.
  unfold bmm. cbn [shape data]. rewrite !Nat.eqb_refl. cbn [andb].
  do 2 f_equal. rewrite Nat.mul_1_r.
  apply tabulate_ext. intros i Hi. cbv zeta.
  assert (o <> 0)%nat by lia.
  apply sumn_ext. intros l Hl.
  rewrite !Nat.mul_1_r, Nat.mod_1_r, Nat.div_1_r, Nat.add_0_r.
  f_equal. f_equal.
  pose proof (Nat.div_mod_eq i o). nia.
Qed.

Lemma bmm_row b o u v :
  bmm (mkTensor [b; 1%nat; o] u) (mkTensor [b; o; 1%nat] v) =
  Ok (mkTensor [b; 1%nat; 1%nat]
        (tabulate b
           (fun j => sumn o (fun l => get u (j * o + l) * get v (j * o + l))))).
Proof.
  unfold bmm. cbn [shape data]. rewrite !Nat.eqb_refl. cbn [andb].
  do 2 f_equal. rewrite !Nat.mul_1_r.
  apply tabulate_ext. intros j Hj. cbv zeta.
  apply sumn_ext. intros l Hl.
  rewrite !Nat.mul_1_r, !Nat.mul_1_l, Nat.mod_1_r, Nat.div_1_r, !Nat.add_0_r.
  reflexivity.
Qed.

Lemma numel_1 b : numel [b] = b.
Proof. simpl. lia. Qed.

Lemma bread_beta bt b j :
  expandable (rev (shape bt)) [b] = true -> (j < b)%nat ->
  bread [b] bt j = beta_entry bt j.
Proof.
  intros He Hj. unfold bread, beta_entry. cbn [rev app].
  rewrite <- (numel_rev (shape bt)).
  destruct (rev (shape bt)) as [|s [|s' r]];
    cbn [expandable bidx numel fold_right] in He |- *.
  - reflexivity.
  - rewrite Nat.mul_1_r, Nat.mul_0_r, Nat.add_0_r.
    destruct (Nat.eqb_spec s 1%nat) as [Hs1|Hs1]; [reflexivity|].
    destruct (Nat.eqb_spec s b) as [Hsb|Hsb]; [|discriminate].
    now rewrite Nat.mod_small.
  - now rewrite andb_false_r in He.
Qed.

Lemma binop_same f sh da db :
  binop f (mkTensor sh da) (mkTensor sh db) =
  Ok (mkTensor sh (tabulate (numel sh) (fun i => f (get da i) (get db i)))).
Proof.
  unfold binop. cbn [shape].
  pose proof (broadcast_shapes_lead [] sh) as Hsh. cbn [app] in Hsh.
  rewrite Hsh. do 2 f_equal. apply tabulate_ext. intros i Hi.
  rewrite (bread_same (mkTensor sh da)), (bread_same (mkTensor sh db)) by assumption.
  reflexivity.
Qed.

Lemma existsb_negative_tabulate n f :
  (forall i, (i < n)%nat -> 0 <= f i) -> existsb negative (tabulate n f) = false.
Proof.
  intros H. apply not_true_is_false. intros He.
  apply existsb_exists in He. destruct He as [x [Hin Hneg]].
  unfold tabulate in Hin. apply in_map_iff in Hin.
  destruct Hin as [i [<- Hi]]. apply in_seq in Hi.
  unfold negative in Hneg. destruct (Rlt_dec (f i) 0) as [Hlt|]; [|discriminate].
  assert (0 <= f i) by (apply H; lia). lra.
Qed.

Lemma tsqrt_tabulate sh n f :
  (forall i, (i < n)%nat -> 0 <= f i) ->
  tsqrt (mkTensor sh (tabulate n f)) =
  Ok (mkTensor sh (tabulate n (fun i => sqrt (f i)))).
Proof.
  intros H. unfold tsqrt. cbn [data].
  rewrite existsb_negative_tabulate by assumption.
  unfold tmap, tabulate. cbn [shape data]. now rewrite map_map.
Qed.

Lemma quadratic_form_nested w covs j :
  sumn (length w) (fun a =>
    get w a * sumn (length w) (fun c => get covs (j * (length w * length w) + a * length w + c) * get w c))
  = quadratic_form w covs j.
Proof.
  unfold quadratic_form. cbv zeta. apply sumn_ext. intros a Ha.
  rewrite <- sumn_scal. apply sumn_ext. intros c Hc. lra.
Qed.

Lemma view_batch b d : view (mkTensor [b; 1; 1]%nat d) [b] = Ok (mkTensor [b] d).
Proof.
  unfold view. cbn [shape data].
  replace (numel [b; 1; 1]%nat) with (numel [b]) by (simpl; lia).
  now rewrite Nat.eqb_refl.
Qed.

(** The analytic body on well-shaped inputs, for any number [o] of
    outputs. *)
Lemma analytic_body_spec_any (s : SUCB.self) (X : Tensor) (b d o : nat) :
  let p := posterior (SUCB.model s) X in
  shape X = [b; 1%nat; d] ->
  shape (mean p) = [b; 1%nat; o] ->
  shape (covariance_matrix p) = [b; o; o] ->
  length (SUCB.weights s) = o ->
  expandable (rev (shape (SUCB.beta s))) [b] = true ->
  (forall j, (j < b)%nat ->
     0 <= beta_entry (SUCB.beta s) j
          * quadratic_form (SUCB.weights s) (data (covariance_matrix p)) j) ->
  SUCB.forward_body X s =
  (Ok (mkTensor [b]
         (tabulate b (analytic_score (SUCB.weights s) (SUCB.maximize s) (SUCB.beta s) p))), s).
Proof.
  intros p HX Hm Hc Hw Hb Hnn.
  destruct s as [mdl mx bt w]. cbn [SUCB.model SUCB.weights SUCB.beta SUCB.maximize] in *.
  unfold SUCB.forward_body, SUCB.forward_body_at.
  rewrite bind_attr, bind_assign, bind_attr. unfold SUCB.set_beta, SUCB.to.
  cbn [SUCB.model SUCB.weights SUCB.beta SUCB.maximize].
  fold p. destruct (mean p) as [msh md] eqn:Emean.
  destruct (covariance_matrix p) as [csh cd] eqn:Ecov.
  cbn [shape data] in *. subst msh csh. rewrite HX.
  erewrite bind_lift_Ok by reflexivity.
  rewrite bind_attr. cbn [SUCB.weights].
  change [b; o] with ([b] ++ [o]).
  erewrite bind_lift_Ok by (apply matmul_rows; exact Hw).
  assert (Hview : view_1_m1_1 w = Ok (mkTensor [1; o; 1]%nat w)).
  { unfold view_1_m1_1. now rewrite Hw. }
  erewrite bind_lift_Ok by exact Hview.
  cbn [drop_last2 length Nat.sub firstn shape tl app].
  erewrite bind_lift_Ok by apply expand_weights.
  erewrite bind_lift_Ok by apply permute_column.
  erewrite bind_lift_Ok by apply bmm_column.
  erewrite bind_lift_Ok by apply bmm_row.
  erewrite bind_lift_Ok by apply view_batch.
  rewrite bind_attr. cbn [SUCB.beta].
  erewrite bind_lift_Ok
    by (unfold expand_as, expand; cbn [shape rev app]; rewrite Hb; reflexivity).
  rewrite numel_1.
  erewrite bind_lift_Ok by apply binop_same.
  rewrite numel_1. cbn [data].
  cbn [last].
  assert (Hprod :
    tabulate b
      (fun i : nat =>
         get (tabulate b (bread [b] bt)) i *
         get (tabulate b
                (fun j : nat =>
                   sumn o
                     (fun l : nat =>
                        get (tabulate (b * o)
                               (get (tabulate (b * o) (fun i0 : nat => get w (i0 mod o)))))
                          (j * o + l) *
                        get (tabulate (b * o)
                               (fun i0 : nat =>
                                  sumn o
                                    (fun l0 : nat =>
                                       get cd (i0 * o + l0) *
                                       get (tabulate (b * o) (fun i1 : nat => get w (i1 mod o)))
                                         (i0 / o * o + l0))))
                          (j * o + l)))) i)
    = tabulate b (fun j => beta_entry bt j * quadratic_form w cd j)).
  { apply tabulate_ext. intros j Hj.
    rewrite !get_tabulate by assumption.
    rewrite bread_beta by assumption. f_equal.
    rewrite <- quadratic_form_nested, Hw.
    apply sumn_ext. intros a Ha.
    assert (Hja : (j * o + a < b * o)%nat) by now apply index_lt.
    rewrite !get_tabulate by assumption.
    rewrite index_mod by assumption. f_equal.
    apply sumn_ext. intros c Hc.
    rewrite index_div by assumption.
    rewrite get_tabulate by now apply index_lt.
    rewrite index_mod by assumption.
    f_equal. f_equal. lia. }
  rewrite Hprod. clear Hprod.
  erewrite bind_lift_Ok by (apply tsqrt_tabulate; exact Hnn).
  rewrite bind_attr. cbn [SUCB.maximize].
  unfold lift, tadd, tsub. destruct mx; rewrite binop_same, numel_1;
    (f_equal; do 2 f_equal; apply tabulate_ext; intros j Hj;
     rewrite !get_tabulate by assumption;
     unfold analytic_score, analytic_delta, scalarize; rewrite Hw, Emean, Ecov;
     cbn [data]; f_equal; apply sumn_ext; intros a Ha; lra).
Qed.

Lemma analytic_body_spec (s : SUCB.self) (X : Tensor) (b d o : nat) :
  let p := posterior (SUCB.model s) X in
  shape X = [b; 1%nat; d] ->
  shape (mean p) = [b; 1%nat; o] ->
  shape (covariance_matrix p) = [b; o; o] ->
  length (SUCB.weights s) = o ->
  o <> 0%nat ->
  expandable (rev (shape (SUCB.beta s))) [b] = true ->
  (forall j, (j < b)%nat ->
     0 <= beta_entry (SUCB.beta s) j
          * quadratic_form (SUCB.weights s) (data (covariance_matrix p)) j) ->
  SUCB.forward_body X s =
  (Ok (mkTensor [b]
         (tabulate b (analytic_score (SUCB.weights s) (SUCB.maximize s) (SUCB.beta s) p))), s).
Proof.
  intros p HX Hm Hc Hw _ Hb Hnn. now apply (analytic_body_spec_any s X b d o).
Qed.

(** ** The Monte Carlo score, step by step *)

Lemma binop_lead f pre sh da db :
  binop f (mkTensor (pre ++ sh) da) (mkTensor sh db) =
  Ok (mkTensor (pre ++ sh)
        (tabulate (numel (pre ++ sh))
           (fun i => f (get da i) (get db (i mod numel sh))))).
Proof.
  unfold binop. cbn [shape]. rewrite broadcast_shapes_lead.
  do 2 f_equal. apply tabulate_ext. intros i Hi.
  rewrite (bread_same (mkTensor (pre ++ sh) da)) by assumption.
  rewrite (bread_lead pre (mkTensor sh db)). reflexivity.
Qed.

Lemma binop_lead_r f pre sh da db :
  binop f (mkTensor sh da) (mkTensor (pre ++ sh) db) =
  Ok (mkTensor (pre ++ sh)
        (tabulate (numel (pre ++ sh))
           (fun i => f (get da (i mod numel sh)) (get db i)))).
Proof.
  unfold binop. cbn [shape]. rewrite broadcast_shapes_lead_r.
  do 2 f_equal. apply tabulate_ext. intros i Hi.
  rewrite (bread_same (mkTensor (pre ++ sh) db)) by assumption.
  rewrite (bread_lead pre (mkTensor sh da)). reflexivity.
Qed.

Lemma tmap_tabulate g sh n f :
  tmap g (mkTensor sh (tabulate n f)) = mkTensor sh (tabulate n (fun i => g (f i))).
Proof. unfold tmap, tabulate. cbn [shape data]. now rewrite map_map. Qed.

Lemma max_last_rows lead k d :
  max_last (mkTensor (lead ++ [S k]) d) =
  Ok (mkTensor lead
        (tabulate (numel lead)
           (fun i => max_upto k (fun c => get d (i * S k + c))))).
Proof.
  unfold max_last. cbn [shape data].
  rewrite rev_app_distr. cbn [rev app].
  now rewrite rev_involutive, numel_rev.
Qed.

Lemma mean_first_rows n rest d :
  n <> 0%nat ->
  mean_first (mkTensor (n :: rest) d) =
  Ok (mkTensor rest
        (tabulate (numel rest)
           (fun j => sumn n (fun i => get d (i * numel rest + j)) / INR n))).
Proof.
  intros Hn. unfold mean_first. cbn [shape data].
  destruct (Nat.eqb_spec n 0%nat) as [|_]; [contradiction|]. reflexivity.
Qed.

Lemma to_float_scaled bt :
  numel (shape bt) = 1%nat ->
  to_float (tmap (fun b => b * PI / 2) bt) = Ok (get (data bt) 0 * PI / 2).
Proof.
  intros H. unfold to_float, tmap, get. cbn [shape data]. rewrite H. cbn [Nat.eqb].
  f_equal. destruct (data bt); cbn [map nth]; lra.
Qed.

Lemma math_sqrt_nonneg x : 0 <= x -> math_sqrt x = Ok (sqrt x).
Proof.
  intros H. unfold math_sqrt. destruct (Rlt_dec x 0); [lra | reflexivity].
Qed.

Lemma mc_body_spec (s : qSUCB.self) (X : Tensor) (bs : list nat) (n q o : nat) :
  let p := posterior (qSUCB.model s) X in
  shape (mean p) = bs ++ [q; o] ->
  length (qSUCB.weights s) = o ->
  sample_shape (qSUCB.sampler s) = [n] ->
  n <> 0%nat ->
  q <> 0%nat ->
  numel (shape (qSUCB.beta s)) = 1%nat ->
  0 <= get (data (qSUCB.beta s)) 0 ->
  qSUCB.forward_body X s =
  (Ok (mkTensor bs
         (tabulate (numel bs)
            (mc_score (qSUCB.weights s) (get (data (qSUCB.beta s)) 0) (qSUCB.sampler s) p n q))), s).
Proof.
  intros p Hm Hw Hn Hn0 Hq0 Hb1 Hb0.
  destruct s as [mdl smp bt w]. cbn [qSUCB.model qSUCB.weights qSUCB.beta qSUCB.sampler] in *.
  unfold qSUCB.forward_body.
  rewrite !bind_attr. cbn [qSUCB.model qSUCB.weights qSUCB.beta qSUCB.sampler]. fold p.
  unfold get_posterior_samples. rewrite Hn, Hm.
  destruct (mean p) as [msh md] eqn:Emean. cbn [shape data] in Hm |- *. subst msh.
  replace ([n] ++ bs ++ [q; o]) with ((n :: bs ++ [q]) ++ [o])
    by (cbn [app]; now rewrite <- app_assoc).
  erewrite bind_lift_Ok by (apply matmul_rows; exact Hw).
  replace (bs ++ [q; o]) with ((bs ++ [q]) ++ [o]) by now rewrite <- app_assoc.
  erewrite bind_lift_Ok by (apply matmul_rows; exact Hw).
  rewrite bind_attr. cbn [qSUCB.beta].
  erewrite bind_lift_Ok by (apply to_float_scaled; exact Hb1).
  assert (Hpi : 0 <= get (data bt) 0 * PI / 2).
  { pose proof PI_RGT_0. apply Rmult_le_pos; [apply Rmult_le_pos|]; lra. }
  erewrite bind_lift_Ok by (apply math_sqrt_nonneg; exact Hpi).
  unfold tsub. change (n :: bs ++ [q]) with ([n] ++ (bs ++ [q])).
  erewrite bind_lift_Ok by apply binop_lead.
  unfold tabs, scale. rewrite !tmap_tabulate.
  unfold tadd. erewrite bind_lift_Ok by apply binop_lead_r.
  destruct q as [|k]; [contradiction|].
  rewrite app_assoc.
  erewrite bind_lift_Ok by apply max_last_rows.
  cbn [app]. unfold lift. rewrite mean_first_rows by assumption.
  f_equal. do 2 f_equal.
  set (q := S k) in *.
  change (numel (n :: bs)) with (n * numel bs)%nat.
  change (numel (n :: bs ++ [q])) with (n * numel (bs ++ [q]))%nat.
  rewrite !numel_app. cbn [numel fold_right]. rewrite !Nat.mul_1_r.
  set (B := numel bs).
  apply tabulate_ext. intros j Hj. unfold mc_score. f_equal.
  apply sumn_ext. intros i Hi.
  rewrite get_tabulate by now apply index_lt.
  replace (q - 1)%nat with k by (unfold q; lia).
  apply max_upto_ext. intros c Hc.
  assert (Hcq : (c < q)%nat) by (unfold q; lia).
  assert (Hjc : (j * q + c < B * q)%nat) by now apply index_lt.
  assert (Hidx : ((i * B + j) * q + c = i * (B * q) + (j * q + c))%nat) by lia.
  assert (Hlt : (i * (B * q) + (j * q + c) < n * (B * q))%nat) by now apply index_lt.
  rewrite Hidx.
  repeat first [ rewrite get_tabulate by assumption
               | rewrite index_mod by assumption ].
  unfold mc_ucb_sample, scalarize. rewrite Hw, Emean. cbn [data].
  assert (Hmean : sumn o (fun a => get md ((j * q + c) * o + a) * get w a)
                  = sumn o (fun a => get w a * get md ((j * q + c) * o + a))).
  { apply sumn_ext. intros a Ha. lra. }
  rewrite Hmean. f_equal. f_equal. f_equal. f_equal.
  apply sumn_ext. intros a Ha.
  assert (Hrow : ((i * (B * q) + (j * q + c)) * o + a
                  = i * (B * q * o) + ((j * q + c) * o + a))%nat) by lia.
  assert (Hrlt : ((j * q + c) * o + a < B * q * o)%nat) by now apply index_lt.
  rewrite Hrow, get_tabulate by now apply index_lt.
  rewrite index_div, index_mod by assumption. lra.
Qed.

(** ** The decorated methods *)

Lemma bind_ret_r {S A} (m : M S A) s : bind m ret s = m s.
Proof. unfold bind, ret. destruct (m s) as [[a|e|] s']; reflexivity. Qed.

Lemma with_t_batch_dims X sh :
  shape (with_t_batch X) = sh -> (3 <= length sh)%nat ->
  (2 <= dim X)%nat /\ dim_m2 (shape X) = dim_m2 sh.
Proof.
  unfold with_t_batch, dim. intros H Hlen.
  destruct (Nat.ltb_spec 2 (length (shape X))) as [Hd|Hd].
  - subst sh. split; [lia | reflexivity].
  - cbn [unsqueeze0 shape] in H. subst sh. cbn [length] in Hlen.
    split; [lia|].
    assert (Hl : length (shape X) = 2%nat) by lia.
    destruct (shape X) as [|a [|b0 [|c r]]]; cbn [length] in Hl; try lia.
    reflexivity.
Qed.

Lemma decorated_run {S} (eq : option nat) (method : Tensor -> M S Tensor) X s :
  (2 <= dim X)%nat ->
  match eq with Some q => dim_m2 (shape X) = q | None => True end ->
  t_batch_mode_transform eq (average_over_ensemble_models method) X s
  = method (with_t_batch X) s.
Proof.
  intros Hd Hq. unfold t_batch_mode_transform, average_over_ensemble_models.
  destruct (Nat.ltb_spec (dim X) 2) as [|_]; [lia|].
  destruct eq as [q|].
  - rewrite Hq, Nat.eqb_refl. apply bind_ret_r.
  - apply bind_ret_r.
Qed.

Lemma analytic_forward_spec_any (s : SUCB.self) (X : Tensor) (b d o : nat) :
  let p := posterior (SUCB.model s) (with_t_batch X) in
  shape (with_t_batch X) = [b; 1%nat; d] ->
  shape (mean p) = [b; 1%nat; o] ->
  shape (covariance_matrix p) = [b; o; o] ->
  length (SUCB.weights s) = o ->
  expandable (rev (shape (SUCB.beta s))) [b] = true ->
  (forall j, (j < b)%nat ->
     0 <= beta_entry (SUCB.beta s) j
          * quadratic_form (SUCB.weights s) (data (covariance_matrix p)) j) ->
  SUCB.forward X s =
  (Ok (mkTensor [b]
         (tabulate b (analytic_score (SUCB.weights s) (SUCB.maximize s) (SUCB.beta s) p))), s).
Proof.
  intros p HX Hm Hc Hw Hb Hnn.
  destruct (with_t_batch_dims X _ HX) as [Hd Hq]; [cbn; lia|].
  unfold SUCB.forward. rewrite decorated_run by assumption.
  now apply (analytic_body_spec_any s (with_t_batch X) b d o).
Qed.

Lemma analytic_forward_spec (s : SUCB.self) (X : Tensor) (b d o : nat) :
  let p := posterior (SUCB.model s) (with_t_batch X) in
  shape (with_t_batch X) = [b; 1%nat; d] ->
  shape (mean p) = [b; 1%nat; o] ->
  shape (covariance_matrix p) = [b; o; o] ->
  length (SUCB.weights s) = o ->
  o <> 0%nat ->
  expandable (rev (shape (SUCB.beta s))) [b] = true ->
  (forall j, (j < b)%nat ->
     0 <= beta_entry (SUCB.beta s) j
          * quadratic_form (SUCB.weights s) (data (covariance_matrix p)) j) ->
  SUCB.forward X s =
  (Ok (mkTensor [b]
         (tabulate b (analytic_score (SUCB.weights s) (SUCB.maximize s) (SUCB.beta s) p))), s).
Proof.
  intros p HX Hm Hc Hw Ho Hb Hnn.
  destruct (with_t_batch_dims X _ HX) as [Hd Hq]; [cbn; lia|].
  unfold SUCB.forward. rewrite decorated_run by assumption.
  now apply (analytic_body_spec s (with_t_batch X) b d o).
Qed.

Lemma mc_forward_spec (s : qSUCB.self) (X : Tensor) (bs : list nat) (n q o : nat) :
  let p := posterior (qSUCB.model s) (with_t_batch X) in
  (2 <= dim X)%nat ->
  shape (mean p) = bs ++ [q; o] ->
  length (qSUCB.weights s) = o ->
  sample_shape (qSUCB.sampler s) = [n] ->
  n <> 0%nat ->
  q <> 0%nat ->
  numel (shape (qSUCB.beta s)) = 1%nat ->
  0 <= get (data (qSUCB.beta s)) 0 ->
  qSUCB.forward X s =
  (Ok (mkTensor bs
         (tabulate (numel bs)
            (mc_score (qSUCB.weights s) (get (data (qSUCB.beta s)) 0) (qSUCB.sampler s) p n q))), s).
Proof.
  intros p Hd Hm Hw Hn Hn0 Hq0 Hb1 Hb0.
  unfold qSUCB.forward. rewrite decorated_run by (assumption || exact I).
  now apply (mc_body_spec s (with_t_batch X) bs n q o).
Qed.

(** Methods that leave [self] as it was. *)

Lemma keeps_ret {S A} (a : A) : keeps (@ret S A a).
Proof. intros s. reflexivity. Qed.

Lemma keeps_lift {S A} (r : result A) : keeps (@lift S A r).
Proof. intros s. reflexivity. Qed.

Lemma keeps_raise {S A} (e : exn) : keeps (@raise S A e).
Proof. intros s. reflexivity. Qed.

Lemma keeps_attr {S A} (f : S -> A) : keeps (attr f).
Proof. intros s. reflexivity. Qed.

Lemma keeps_bind {S A B} (m : M S A) (k : A -> M S B) :
  keeps m -> (forall a, keeps (k a)) -> keeps (bind m k).
Proof.
  intros Hm Hk s. unfold bind. specialize (Hm s).
  destruct (m s) as [[a|e|] s']; cbn [snd] in *; subst s'; [apply Hk | reflexivity..].
Qed.

Lemma keeps_decorated {S} (eq : option nat) (method : Tensor -> M S Tensor) X :
  (forall X', keeps (method X')) ->
  keeps (t_batch_mode_transform eq (average_over_ensemble_models method) X).
Proof.
  intros H. unfold t_batch_mode_transform, average_over_ensemble_models.
  destruct (dim X <? 2)%nat; [apply keeps_raise|].
  assert (keeps (bind (method (with_t_batch X)) (fun output => ret output)))
    by (apply keeps_bind; [apply H | intros; apply keeps_ret]).
  destruct eq as [q|]; [|assumption].
  destruct (dim_m2 (shape X) =? q)%nat; [assumption | apply keeps_raise].
Qed.

Ltac keeps_steps :=
  repeat first
    [ apply keeps_lift | apply keeps_attr | apply keeps_ret | apply keeps_raise
    | apply keeps_bind; [| intros ?]
    | match goal with |- keeps (if ?b then _ else _) => destruct b end ].

Lemma mc_forward_keeps X : keeps (qSUCB.forward X).
Proof.
  apply keeps_decorated. intros X'. unfold qSUCB.forward_body. keeps_steps.
Qed.

Lemma set_beta_to s : SUCB.set_beta (SUCB.to (SUCB.beta s) float64) s = s.
Proof. destruct s. reflexivity. Qed.

Lemma analytic_forward_keeps X : keeps (SUCB.forward X).
Proof.
  apply keeps_decorated. intros X' s. unfold SUCB.forward_body, SUCB.forward_body_at.
  rewrite bind_attr, bind_assign, set_beta_to.
  match goal with
  | |- snd (?m s) = s => assert (Hk : keeps m); [keeps_steps | exact (Hk s)]
  end.
Qed.

(** ** No square root of a negative number *)

Lemma math_sqrt_domain x : math_sqrt x = Raise math_domain_error <-> x < 0.
Proof.
  unfold math_sqrt. destruct (Rlt_dec x 0); split; intros H;
    (reflexivity || discriminate || lra || assumption).
Qed.

Lemma tsqrt_NotReal t : tsqrt t = NotReal <-> exists x, In x (data t) /\ x < 0.
Proof.
  unfold tsqrt. destruct (existsb negative (data t)) eqn:E; split; intros H;
    try reflexivity; try discriminate.
  - apply existsb_exists in E. destruct E as [x [Hin Hx]]. exists x. split; [assumption|].
    unfold negative in Hx. destruct (Rlt_dec x 0); [assumption | discriminate].
  - destruct H as [x [Hin Hx]].
    assert (existsb negative (data t) = true).
    { apply existsb_exists. exists x. split; [assumption|].
      unfold negative. destruct (Rlt_dec x 0); [reflexivity | lra]. }
    congruence.
Qed.

Lemma entries_nonneg_Forall d : Forall (fun x => 0 <= x) d -> entries_nonneg d.
Proof.
  intros H i. unfold get. destruct (Nat.lt_ge_cases i (length d)) as [Hi|Hi].
  - rewrite Forall_forall in H. apply H. now apply nth_In.
  - rewrite nth_overflow by assumption. lra.
Qed.

Lemma entries_nonneg_tabulate n f :
  (forall i, (i < n)%nat -> 0 <= f i) -> entries_nonneg (tabulate n f).
Proof.
  intros H i. destruct (Nat.lt_ge_cases i n) as [Hi|Hi].
  - rewrite get_tabulate by assumption. now apply H.
  - unfold get. rewrite nth_overflow by now rewrite tabulate_length. lra.
Qed.

Lemma tsqrt_real t : entries_nonneg (data t) -> tsqrt t <> NotReal.
Proof.
  intros H Hn. apply tsqrt_NotReal in Hn. destruct Hn as [x [Hin Hx]].
  apply (In_nth _ _ 0) in Hin. destruct Hin as [i [_ Hi]].
  specialize (H i). unfold get in H. lra.
Qed.

Lemma bind_lift_real {S A B} (r : result A) (k : A -> M S B) s :
  r <> NotReal -> (forall a, r = Ok a -> fst (k a s) <> NotReal) ->
  fst (bind (lift r) k s) <> NotReal.
Proof.
  intros Hr Hk. unfold bind, lift. destruct r as [a|e|]; cbn [fst].
  - now apply Hk.
  - discriminate.
  - contradiction.
Qed.

Lemma bind_lift_no_raise {S A B} (e : exn) (r : result A) (k : A -> M S B) s :
  r <> Raise e -> (forall a, r = Ok a -> fst (k a s) <> Raise e) ->
  fst (bind (lift r) k s) <> Raise e.
Proof.
  intros Hr Hk. unfold bind, lift. destruct r as [a|e'|]; cbn [fst].
  - now apply Hk.
  - congruence.
  - discriminate.
Qed.

Ltac split_result :=
  repeat match goal with
         | |- context [match ?x with _ => _ end] => destruct x
         | |- context [if ?x then _ else _] => destruct x
         end; try discriminate.

Lemma squeeze_m2_real t : squeeze_m2 t <> NotReal.
Proof. unfold squeeze_m2. split_result. Qed.

Lemma matmul_real t w : matmul t w <> NotReal.
Proof. unfold matmul. split_result. Qed.

Lemma view_1_m1_1_real w : view_1_m1_1 w <> NotReal.
Proof. unfold view_1_m1_1. split_result. Qed.

Lemma expand_real t sh : expand t sh <> NotReal.
Proof. unfold expand. split_result. Qed.

Lemma permute_real t : permute_0_2_1 t <> NotReal.
Proof. unfold permute_0_2_1. split_result. Qed.

Lemma bmm_real a b : bmm a b <> NotReal.
Proof. unfold bmm. split_result. Qed.

Lemma view_real t sh : view t sh <> NotReal.
Proof. unfold view. split_result. Qed.

Lemma binop_real f a b : binop f a b <> NotReal.
Proof. unfold binop. split_result. Qed.

Lemma matmul_no_domain t w : matmul t w <> Raise math_domain_error.
Proof. unfold matmul, math_domain_error. split_result. Qed.

Lemma to_float_no_domain t : to_float t <> Raise math_domain_error.
Proof. unfold to_float, math_domain_error. split_result. Qed.

Lemma binop_no_domain f a b : binop f a b <> Raise math_domain_error.
Proof. unfold binop, math_domain_error. split_result. Qed.

Lemma max_last_no_domain t : max_last t <> Raise math_domain_error.
Proof. unfold max_last, math_domain_error. split_result. Qed.

Lemma mean_first_no_domain t : mean_first t <> Raise math_domain_error.
Proof. unfold mean_first, math_domain_error. split_result. Qed.

Lemma to_float_entry t x : to_float t = Ok x -> x = get (data t) 0.
Proof. unfold to_float. destruct (_ =? _)%nat; [congruence | discriminate]. Qed.

Lemma decorated_cases {S} (eq : option nat) (method : Tensor -> M S Tensor) X s :
  (exists e, t_batch_mode_transform eq (average_over_ensemble_models method) X s
             = (Raise e, s)
             /\ (e = ValueError "requires X to have at least 2 dimensions"
                 \/ e = AssertionError "Expected X to be batch_shape x q x d"))
  \/ t_batch_mode_transform eq (average_over_ensemble_models method) X s
     = method (with_t_batch X) s.
Proof.
  unfold t_batch_mode_transform, average_over_ensemble_models.
  destruct (dim X <? 2)%nat; [left; eexists; split; [reflexivity | now left]|].
  destruct eq as [q|].
  - destruct (dim_m2 (shape X) =? q)%nat.
    + right. apply bind_ret_r.
    + left. eexists; split; [reflexivity | now right].
  - right. apply bind_ret_r.
Qed.

Lemma mc_forward_no_domain_error (s : qSUCB.self) (X : Tensor) :
  nonnegative (qSUCB.beta s) -> fst (qSUCB.forward X s) <> Raise math_domain_error.
Proof.
  intros Hb. unfold qSUCB.forward.
  destruct (decorated_cases None qSUCB.forward_body X s) as [[e [-> He]] | ->].
  { cbn [fst]. unfold math_domain_error. destruct He as [-> | ->]; discriminate. }
  unfold qSUCB.forward_body. rewrite !bind_attr.
  apply bind_lift_no_raise; [apply matmul_no_domain | intros ss _].
  apply bind_lift_no_raise; [apply matmul_no_domain | intros sm _].
  rewrite bind_attr.
  apply bind_lift_no_raise; [apply to_float_no_domain | intros x Hx].
  assert (Hx0 : 0 <= x).
  { apply to_float_entry in Hx. subst x. unfold tmap. cbn [data].
    pose proof PI_RGT_0 as Hpi.
    apply entries_nonneg_Forall. unfold nonnegative in Hb.
    rewrite Forall_forall in *. intros y Hy. apply in_map_iff in Hy.
    destruct Hy as [z [<- Hz]]. specialize (Hb z Hz).
    apply Rmult_le_pos; [apply Rmult_le_pos|]; lra. }
  apply bind_lift_no_raise.
  { rewrite math_sqrt_domain. lra. }
  intros c _.
  apply bind_lift_no_raise; [apply binop_no_domain | intros dv _].
  apply bind_lift_no_raise; [apply binop_no_domain | intros ucb _].
  apply bind_lift_no_raise; [apply max_last_no_domain | intros mx _].
  unfold lift. cbn [fst]. apply mean_first_no_domain.
Qed.

Lemma expand_shape t sh t' : expand t sh = Ok t' -> shape t' = sh.
Proof.
  unfold expand. destruct (expandable _ _); [|discriminate].
  intros H. injection H as <-. reflexivity.
Qed.

Lemma permute_dims t t' :
  permute_0_2_1 t = Ok t' -> exists b r c, shape t = [b; r; c].
Proof.
  unfold permute_0_2_1. destruct (shape t) as [|b [|r [|c [|x l]]]]; try discriminate.
  intros _. now exists b, r, c.
Qed.

Lemma bmm_shapes a b c :
  bmm a b = Ok c ->
  exists ba n m p, shape a = [ba; n; m] /\ shape b = [ba; m; p] /\ shape c = [ba; n; p].
Proof.
  unfold bmm.
  destruct (shape a) as [|ba [|n [|m [|x l]]]]; try discriminate;
  destruct (shape b) as [|bb [|m' [|p [|y l']]]]; try discriminate.
  destruct (Nat.eqb_spec ba bb) as [<-|]; [|discriminate].
  destruct (Nat.eqb_spec m m') as [<-|]; [|discriminate].
  cbn [andb]. intros H. injection H as <-. now exists ba, n, m, p.
Qed.

Lemma variance_rows b o w cd :
  length w = o ->
  tabulate b
    (fun j =>
       sumn o
         (fun l =>
            get (tabulate (b * o) (get (tabulate (b * o) (fun i => get w (i mod o)))))
              (j * o + l) *
            get (tabulate (b * o)
                   (fun i =>
                      sumn o
                        (fun l0 =>
                           get cd (i * o + l0) *
                           get (tabulate (b * o) (fun i1 => get w (i1 mod o)))
                             (i / o * o + l0))))
              (j * o + l)))
  = tabulate b (quadratic_form w cd).
Proof.
  intros Hw. apply tabulate_ext. intros j Hj.
  rewrite <- quadratic_form_nested, Hw.
  apply sumn_ext. intros a Ha.
  assert (Hja : (j * o + a < b * o)%nat) by now apply index_lt.
  rewrite !get_tabulate by assumption.
  rewrite index_mod by assumption. f_equal.
  apply sumn_ext. intros c Hc.
  rewrite index_div by assumption.
  rewrite get_tabulate by now apply index_lt.
  rewrite index_mod by assumption.
  f_equal. f_equal. lia.
Qed.

Lemma variance_steps w bs covs w1 w2 wT inner outer sv :
  view_1_m1_1 w = Ok w1 ->
  expand w1 (bs ++ tl (shape w1)) = Ok w2 ->
  permute_0_2_1 w2 = Ok wT ->
  bmm covs w2 = Ok inner ->
  bmm wT inner = Ok outer ->
  view outer bs = Ok sv ->
  exists b, bs = [b] /\ shape covs = [b; length w; length w]
            /\ sv = mkTensor [b] (tabulate b (quadratic_form w (data covs))).
Proof.
  intros E1 E2 E3 E4 E5 E6.
  assert (Hw1 : w1 = mkTensor [1%nat; length w; 1%nat] w).
  { unfold view_1_m1_1 in E1. now injection E1 as <-. }
  subst w1. clear E1. remember (length w) as o eqn:Ho.
  cbn [shape tl] in E2.
  pose proof (expand_shape _ _ _ E2) as Hs2.
  destruct (permute_dims _ _ E3) as [b [r [c Hs3]]].
  rewrite Hs2 in Hs3.
  assert (Hbs : bs = [b]).
  { pose proof (f_equal (@length nat) Hs3) as Hlen.
    rewrite length_app in Hlen. cbn [length] in Hlen.
    destruct bs as [|b0 [|b1 bs']]; cbn [length app] in Hlen, Hs3; try lia.
    congruence. }
  subst bs. cbn [app] in *.
  rewrite expand_weights in E2. injection E2 as <-.
  rewrite permute_column in E3. injection E3 as <-.
  destruct (bmm_shapes _ _ _ E4) as [ba [n [m [p [Hc [Hw2 Hi]]]]]].
  cbn [shape] in Hw2. injection Hw2 as Hba Hm Hp. subst ba m p.
  destruct (bmm_shapes _ _ _ E5) as [ba' [n' [m' [p' [HwT [Hi' Hout]]]]]].
  cbn [shape] in HwT. injection HwT as Hba Hn Hm. subst ba' n' m'.
  rewrite Hi in Hi'. injection Hi' as Hn. subst n.
  destruct covs as [csh cd]. cbn [shape data] in *. subst csh.
  rewrite bmm_column in E4. injection E4 as <-.
  rewrite bmm_row in E5. injection E5 as <-.
  rewrite view_batch in E6. injection E6 as <-.
  exists b. repeat split. f_equal. apply variance_rows. now symmetry.
Qed.

Lemma binop_entries_nonneg a b c :
  entries_nonneg (data a) -> entries_nonneg (data b) ->
  binop Rmult a b = Ok c -> entries_nonneg (data c).
Proof.
  intros Ha Hb. unfold binop. destruct (broadcast_shapes _ _) as [sh|]; [|discriminate].
  intros H. injection H as <-. cbn [data].
  apply entries_nonneg_tabulate. intros i _. unfold bread.
  apply Rmult_le_pos; [apply Ha | apply Hb].
Qed.

Lemma expand_entries_nonneg t sh t' :
  entries_nonneg (data t) -> expand t sh = Ok t' -> entries_nonneg (data t').
Proof.
  intros Ht. unfold expand. destruct (expandable _ _); [|discriminate].
  intros H. injection H as <-. cbn [data].
  apply entries_nonneg_tabulate. intros i _. unfold bread. apply Ht.
Qed.

(** ** The claims *)

(** C1.  For every design-point batch [X], the Monte Carlo score follows
    the stated steps: the draws and the posterior mean are combined with
    the weights, each draw gives the UCB value "scalarized mean plus
    [sqrt (beta * pi / 2)] times the distance of the scalarized draw from
    the scalarized mean", the largest value over the [q] candidates is
    taken, and these maxima are averaged over the draws.  The call returns
    this for every t-batch element of [X], whatever the t-batch shape
    [bs]. *)
Theorem qSUCB_forward_steps (s : qSUCB.self) (X : Tensor) (bs : list nat)
    (n q o : nat) :
  let p := posterior (qSUCB.model s) (with_t_batch X) in
  (2 <= dim X)%nat ->
  shape (mean p) = bs ++ [q; o] ->
  length (qSUCB.weights s) = o ->
  sample_shape (qSUCB.sampler s) = [n] ->
  n <> 0%nat ->
  q <> 0%nat ->
  numel (shape (qSUCB.beta s)) = 1%nat ->
  0 <= get (data (qSUCB.beta s)) 0 ->
  fst (qSUCB.forward X s) =
  Ok (mkTensor bs
        (tabulate (numel bs)
           (fun j =>
              sumn n (fun i =>
                max_upto (q - 1) (fun k =>
                  let m := scalarize (qSUCB.weights s) (data (mean p)) (j * q + k) in
                  let d := scalarize (qSUCB.weights s) (base_draw (qSUCB.sampler s) i p)
                             (j * q + k) in
                  m + sqrt (get (data (qSUCB.beta s)) 0 * PI / 2) * Rabs (d - m)))
              / INR n))).
Proof.
  intros p Hd Hm Hw Hn Hn0 Hq0 Hb1 Hb0.
  rewrite (mc_forward_spec s X bs n q o) by assumption.
  reflexivity.
Qed.

Lemma qSUCB_forward_steps_example :
  fst (qSUCB.forward example_X_q3 example_qSUCB) =
  Ok (mkTensor [1%nat]
        [sumn 512 (fun i =>
           max_upto 2 (fun k =>
             1.1 + sqrt (0.1 * PI / 2) * Rabs (1.1 + 0.6 * INR i - 1.1)))
         / INR 512]).
Proof.
  rewrite (qSUCB_forward_steps example_qSUCB example_X_q3 [1%nat] 512 3 2);
    [ | cbn; lia | reflexivity | reflexivity | reflexivity
      | discriminate | discriminate | reflexivity | cbn; lra ].
  cbn [numel fold_right Nat.mul tabulate seq map Nat.add Nat.sub].
  do 3 f_equal. f_equal. apply sumn_ext. intros i _.
  apply max_upto_ext. intros k Hk.
  assert (Hm : forall r, (r < 3)%nat ->
            scalarize example_weights
              (data (mean (posterior example_model (with_t_batch example_X_q3)))) r = 1.1).
  { intros r Hr. destruct r as [|[|[|r]]]; try lia;
      unfold scalarize; cbn; unfold get; cbn; lra. }
  assert (Hs : forall r, (r < 3)%nat ->
            scalarize example_weights
              (example_draw i (posterior example_model (with_t_batch example_X_q3))) r
            = 1.1 + 0.6 * INR i).
  { intros r Hr. destruct r as [|[|[|r]]]; try lia;
      unfold scalarize; cbn; unfold get; cbn; lra. }
  cbv zeta. cbn [qSUCB.weights qSUCB.sampler qSUCB.beta example_qSUCB qSUCB.__init__
                 qSUCB.SobolQMCNormalSampler base_draw example_beta as_tensor data get nth].
  rewrite Hm, Hs by (cbn; lia). reflexivity.
Defined.

(** Values of the example posterior at [example_X]. *)

Lemma example_scalarized_mean :
  scalarize example_weights
    (data (mean (posterior example_model (with_t_batch example_X)))) 0 = 1.1.
Proof. unfold scalarize. cbn. unfold get. cbn. lra. Qed.

Lemma example_quadratic_form (v : list R) :
  length v = 2%nat ->
  quadratic_form v
    (data (covariance_matrix (posterior example_model (with_t_batch example_X)))) 0
  = get v 0 * get v 0 + get v 1 * get v 1.
Proof.
  intros Hv. unfold quadratic_form. rewrite Hv. cbn. unfold get. cbn. lra.
Qed.

Lemma example_positive_semidefinite :
  positive_semidefinite
    (covariance_matrix (posterior example_model (with_t_batch example_X))).
Proof.
  intros v j Hj Hv. cbn in Hj, Hv.
  replace j with 0%nat by lia. rewrite example_quadratic_form by assumption.
  nra.
Qed.

(** C2.  For every design-point batch [X] with [q = 1], the analytic score
    of each t-batch element is the weight vector dotted with the posterior
    mean, plus (when [maximize] is true) or minus (when it is false) the
    square root of [beta] times the quadratic form [w^T C w] of the
    posterior covariance matrix. *)
Theorem SUCB_forward_formula (s : SUCB.self) (X : Tensor) (b d o : nat) :
  let p := posterior (SUCB.model s) (with_t_batch X) in
  shape (with_t_batch X) = [b; 1%nat; d] ->
  shape (mean p) = [b; 1%nat; o] ->
  shape (covariance_matrix p) = [b; o; o] ->
  length (SUCB.weights s) = o ->
  o <> 0%nat ->
  expandable (rev (shape (SUCB.beta s))) [b] = true ->
  (forall j, (j < b)%nat ->
     0 <= beta_entry (SUCB.beta s) j
          * quadratic_form (SUCB.weights s) (data (covariance_matrix p)) j) ->
  fst (SUCB.forward X s) =
  Ok (mkTensor [b]
        (tabulate b
           (fun j =>
              let m := scalarize (SUCB.weights s) (data (mean p)) j in
              let v := quadratic_form (SUCB.weights s) (data (covariance_matrix p)) j in
              if SUCB.maximize s
              then m + sqrt (beta_entry (SUCB.beta s) j * v)
              else m - sqrt (beta_entry (SUCB.beta s) j * v)))).
Proof.
  intros p HX Hm Hc Hw Ho Hb Hnn.
  rewrite (analytic_forward_spec s X b d o) by assumption.
  reflexivity.
Qed.

Lemma SUCB_forward_formula_example :
  fst (SUCB.forward example_X example_SUCB) =
  Ok (mkTensor [1%nat] [1.1 + sqrt (0.1 * (0.1 * 0.1 + 0.5 * 0.5))]).
Proof.
  rewrite (SUCB_forward_formula example_SUCB example_X 1 2 2);
    [ | reflexivity | reflexivity | reflexivity | reflexivity
      | discriminate | reflexivity | ].
  - cbn [tabulate seq map]. cbv zeta.
    cbn [SUCB.model SUCB.weights SUCB.maximize SUCB.beta example_SUCB SUCB.__init__].
    rewrite example_scalarized_mean, example_quadratic_form by reflexivity.
    reflexivity.
  - intros j Hj. replace j with 0%nat by lia.
    cbn [SUCB.model SUCB.weights SUCB.beta example_SUCB SUCB.__init__].
    rewrite example_quadratic_form by reflexivity.
    unfold beta_entry. cbn. lra.
Defined.

(** C3.  With [beta = 0] the exploration term vanishes: for every
    posterior and every weight vector the analytic score is the scalarized
    posterior mean, whether the score maximizes or minimizes. *)
Theorem SUCB_forward_beta_zero (s : SUCB.self) (X : Tensor) (b d o : nat) :
  let p := posterior (SUCB.model s) (with_t_batch X) in
  shape (with_t_batch X) = [b; 1%nat; d] ->
  shape (mean p) = [b; 1%nat; o] ->
  shape (covariance_matrix p) = [b; o; o] ->
  length (SUCB.weights s) = o ->
  o <> 0%nat ->
  expandable (rev (shape (SUCB.beta s))) [b] = true ->
  all_zero (SUCB.beta s) ->
  fst (SUCB.forward X s) =
  Ok (mkTensor [b] (tabulate b (scalarize (SUCB.weights s) (data (mean p))))).
Proof.
  intros p HX Hm Hc Hw Ho Hb Hz.
  assert (Hbz : forall j, beta_entry (SUCB.beta s) j = 0).
  { intros j. unfold all_zero in Hz. rewrite Forall_forall in Hz.
    assert (Hget : forall i, get (data (SUCB.beta s)) i = 0).
    { intros i. unfold get.
      destruct (Nat.lt_ge_cases i (length (data (SUCB.beta s)))) as [Hi|Hi].
      - apply Hz. now apply nth_In.
      - now apply nth_overflow. }
    unfold beta_entry. destruct (_ =? _)%nat; apply Hget. }
  rewrite (analytic_forward_spec s X b d o); try assumption.
  - cbn [fst]. do 2 f_equal. apply tabulate_ext. intros j Hj.
    unfold analytic_score, analytic_delta. fold p.
    rewrite Hbz, Rmult_0_l, sqrt_0. destruct (SUCB.maximize s); lra.
  - intros j Hj. fold p. rewrite Hbz. lra.
Qed.

Lemma SUCB_forward_beta_zero_example :
  fst (SUCB.forward example_X
         (SUCB.__init__ example_model (as_tensor 0) example_weights false))
  = Ok (mkTensor [1%nat] [1.1]).
Proof.
  rewrite (SUCB_forward_beta_zero _ example_X 1 2 2);
    [ | reflexivity | reflexivity | reflexivity | reflexivity
      | discriminate | reflexivity | repeat constructor ].
  cbn [tabulate seq map SUCB.model SUCB.weights SUCB.__init__].
  now rewrite example_scalarized_mean.
Defined.

(** C4.  Both [forward] methods return a one-dimensional tensor with one
    score per t-batch element of [X] (one entry for an input without
    t-batch dimension), whatever the number [o] of outputs of the model,
    provided the weight vector has [o] entries. *)
Theorem forward_output_shape :
  (forall (s : qSUCB.self) (X : Tensor) (b q d o n : nat),
      shape (with_t_batch X) = [b; q; d] ->
      shape (mean (posterior (qSUCB.model s) (with_t_batch X))) = [b; q; o] ->
      length (qSUCB.weights s) = o ->
      sample_shape (qSUCB.sampler s) = [n] ->
      n <> 0%nat ->
      q <> 0%nat ->
      numel (shape (qSUCB.beta s)) = 1%nat ->
      0 <= get (data (qSUCB.beta s)) 0 ->
      exists out, fst (qSUCB.forward X s) = Ok out
                  /\ shape out = [b] /\ length (data out) = b)
  /\
  (forall (s : SUCB.self) (X : Tensor) (b d o : nat),
      let p := posterior (SUCB.model s) (with_t_batch X) in
      shape (with_t_batch X) = [b; 1%nat; d] ->
      shape (mean p) = [b; 1%nat; o] ->
      shape (covariance_matrix p) = [b; o; o] ->
      length (SUCB.weights s) = o ->
      o <> 0%nat ->
      expandable (rev (shape (SUCB.beta s))) [b] = true ->
      (forall j, (j < b)%nat ->
         0 <= beta_entry (SUCB.beta s) j
              * quadratic_form (SUCB.weights s) (data (covariance_matrix p)) j) ->
      exists out, fst (SUCB.forward X s) = Ok out
                  /\ shape out = [b] /\ length (data out) = b).
Proof.
  split.
  - intros s X b q d o n HX Hm Hw Hn Hn0 Hq0 Hb1 Hb0.
    destruct (with_t_batch_dims X _ HX) as [Hd _]; [cbn; lia|].
    rewrite (mc_forward_spec s X [b] n q o) by assumption.
    eexists. split; [reflexivity|]. cbn [shape data].
    split; [reflexivity|]. now rewrite tabulate_length, numel_1.
  - intros s X b d o p HX Hm Hc Hw Ho Hb Hnn.
    rewrite (analytic_forward_spec s X b d o) by assumption.
    eexists. split; [reflexivity|]. cbn [shape data].
    split; [reflexivity|]. now rewrite tabulate_length.
Qed.

Lemma forward_output_shape_example :
  (exists out, fst (qSUCB.forward example_X_q3 example_qSUCB) = Ok out
               /\ shape out = [1%nat] /\ length (data out) = 1%nat)
  /\
  (exists out, fst (SUCB.forward example_X example_SUCB) = Ok out
               /\ shape out = [1%nat] /\ length (data out) = 1%nat).
Proof.
  split.
  - apply (proj1 forward_output_shape example_qSUCB example_X_q3 1 3 2 2 512)%nat;
      [ reflexivity | reflexivity | reflexivity | reflexivity
      | discriminate | discriminate | reflexivity | cbn; lra ].
  - apply (proj2 forward_output_shape example_SUCB example_X 1 2 2)%nat;
      [ reflexivity | reflexivity | reflexivity | reflexivity
      | discriminate | reflexivity | ].
    intros j Hj. replace j with 0%nat by lia.
    cbn [SUCB.model SUCB.weights SUCB.beta example_SUCB SUCB.__init__].
    rewrite example_quadratic_form by reflexivity.
    unfold beta_entry. cbn. lra.
Defined.

(** Casts to float32. *)

Lemma powerRZ_2_pos e : 0 < powerRZ 2 e.
Proof. apply powerRZ_lt. lra. Qed.

Lemma powerRZ_2_mono e1 e2 : (e1 <= e2)%Z -> powerRZ 2 e1 <= powerRZ 2 e2.
Proof.
  intros H. replace e2 with (e1 + Z.of_nat (Z.to_nat (e2 - e1)))%Z by lia.
  rewrite powerRZ_add by lra. rewrite <- pow_powerRZ.
  pose proof (powerRZ_2_pos e1).
  pose proof (pow_R1_Rle 2 (Z.to_nat (e2 - e1)) ltac:(lra)).
  nra.
Qed.

Lemma powerRZ_2_neg (n : nat) : powerRZ 2 (- Z.of_nat n) = / 2 ^ n.
Proof. now rewrite powerRZ_neg', <- pow_powerRZ. Qed.

Lemma powerRZ_2_27 : powerRZ 2 27 = 134217728.
Proof. change 27%Z with (Z.of_nat 27). rewrite <- pow_powerRZ. simpl. lra. Qed.

Lemma powerRZ_2_m27 : powerRZ 2 (-27) = / 134217728.
Proof. change (-27)%Z with (- (27))%Z. now rewrite powerRZ_neg', powerRZ_2_27. Qed.

(** The search finds the binary exponent of [x] when it starts at or
    below it with enough fuel. *)
Lemma exponent_from_spec (x : R) (e0 : Z) :
  powerRZ 2 e0 <= Rabs x < powerRZ 2 (e0 + 1) ->
  forall fuel e, (e <= e0)%Z -> (e0 - e < Z.of_nat fuel)%Z ->
    exponent_from fuel e x = e0.
Proof.
  intros [Hlo Hhi]. induction fuel as [|k IH]; intros e He Hf; [lia|].
  cbn [exponent_from].
  destruct (Rlt_dec (Rabs x) (powerRZ 2 (e + 1))) as [Hlt|Hge].
  - destruct (Z.eq_dec e e0) as [|Hne]; [assumption|]. exfalso.
    pose proof (powerRZ_2_mono (e + 1) e0 ltac:(lia)). lra.
  - destruct (Z.eq_dec e e0) as [->|Hne]; [contradiction|].
    apply IH; lia.
Qed.

Lemma nearest_even_within (y : R) (n : Z) :
  IZR n - 1 / 2 < y < IZR n + 1 / 2 -> nearest_even y = n.
Proof.
  intros [Hlo Hhi]. unfold nearest_even.
  destruct (archimed y) as [Hu1 Hu2].
  set (u := up y) in *.
  assert (Hcases : (u = n \/ u = n + 1)%Z).
  { assert (n - 1 < u)%Z by (apply lt_IZR; rewrite minus_IZR; lra).
    assert (u < n + 2)%Z by (apply lt_IZR; rewrite plus_IZR; lra).
    lia. }
  destruct Hcases as [Hu|Hu]; rewrite Hu in *.
  - replace (n - 1 + 1)%Z with n by lia.
    rewrite minus_IZR in *.
    destruct (Rlt_dec _ _) as [H1|H1]; [exfalso; lra|].
    destruct (Rlt_dec _ _) as [H2|H2]; [reflexivity | exfalso; lra].
  - replace (n + 1 - 1)%Z with n by lia.
    rewrite plus_IZR in *.
    destruct (Rlt_dec _ _) as [H1|H1]; [reflexivity | exfalso; lra].
Qed.

Lemma nearest_even_nonneg (y : R) : 0 <= y -> (0 <= nearest_even y)%Z.
Proof.
  intros Hy. unfold nearest_even. destruct (archimed y) as [Hu _].
  assert (0 < up y)%Z by (apply lt_IZR; lra).
  repeat destruct (Rlt_dec _ _); try destruct (Z.even _); lia.
Qed.

(** Rounding keeps the sign of a non-negative number. *)
Lemma round_float32_nonneg (x : R) : 0 <= x -> 0 <= round_float32 x.
Proof.
  intros Hx. unfold round_float32.
  apply Rmult_le_pos; [|apply Rlt_le, powerRZ_2_pos].
  apply IZR_le, nearest_even_nonneg.
  apply Rmult_le_pos; [assumption | apply Rlt_le, powerRZ_2_pos].
Qed.

(** The float32 nearest to 0.1 is [13421773 / 2^27], which is
    0.100000001490116119384765625. *)
Lemma round_float32_tenth : round_float32 0.1 = 13421773 / 134217728.
Proof.
  unfold round_float32, float32_exponent.
  rewrite (exponent_from_spec 0.1 (-4)); [| | lia | cbn; lia].
  - change (23 - -4)%Z with 27%Z. change (-4 - 23)%Z with (-27)%Z.
    rewrite powerRZ_2_27, powerRZ_2_m27.
    rewrite (nearest_even_within _ 13421773) by lra.
    reflexivity.
  - rewrite Rabs_right by lra.
    change (-4 + 1)%Z with (-3)%Z. unfold powerRZ. simpl. lra.
Qed.

Lemma nearest_even_tie (n : Z) :
  nearest_even (IZR n + 1 / 2) = if Z.even n then n else (n + 1)%Z.
Proof.
  unfold nearest_even.
  assert (Hu : up (IZR n + 1 / 2) = (n + 1)%Z).
  { symmetry. apply tech_up; rewrite plus_IZR; lra. }
  rewrite Hu. replace (n + 1 - 1)%Z with n by lia.
  destruct (Rlt_dec _ _) as [H1|H1]; [exfalso; lra|].
  destruct (Rlt_dec _ _) as [H2|H2]; [exfalso; lra | reflexivity].
Qed.

(** The nearest integer is at most one half away. *)
Lemma nearest_even_close (y : R) : Rabs (IZR (nearest_even y) - y) <= 1 / 2.
Proof.
  unfold nearest_even. destruct (archimed y) as [Hu1 Hu2].
  set (f := (up y - 1)%Z).
  assert (Hf : IZR f = IZR (up y) - 1) by (unfold f; now rewrite minus_IZR).
  destruct (Rlt_dec _ _) as [H1|H1].
  - rewrite Rabs_left1; lra.
  - destruct (Rlt_dec _ _) as [H2|H2].
    + rewrite plus_IZR. rewrite Rabs_right; lra.
    + destruct (Z.even f).
      * rewrite Rabs_left1; lra.
      * rewrite plus_IZR. rewrite Rabs_right; lra.
Qed.

(** A cast to float32 moves a number by at most half the spacing
    [2^(e-23)] of the float32 numbers around it. *)
Lemma round_float32_close (x : R) :
  Rabs (round_float32 x - x) <= powerRZ 2 (float32_exponent x - 24).
Proof.
  unfold round_float32. set (e := float32_exponent x).
  pose proof (nearest_even_close (x * powerRZ 2 (23 - e))) as Hc.
  pose proof (powerRZ_2_pos (e - 23)) as Hp.
  replace (IZR (nearest_even (x * powerRZ 2 (23 - e))) * powerRZ 2 (e - 23) - x)
    with ((IZR (nearest_even (x * powerRZ 2 (23 - e))) - x * powerRZ 2 (23 - e))
          * powerRZ 2 (e - 23)).
  - rewrite Rabs_mult, (Rabs_right (powerRZ 2 (e - 23))) by lra.
    replace (e - 24)%Z with (e - 23 + -1)%Z by lia.
    rewrite powerRZ_add by lra.
    replace (powerRZ 2 (-1)) with (1 / 2) by (unfold powerRZ; simpl; lra).
    rewrite (Rmult_comm (powerRZ 2 (e - 23))).
    apply Rmult_le_compat_r; [lra | exact Hc].
  - assert (H : powerRZ 2 (23 - e) * powerRZ 2 (e - 23) = 1).
    { rewrite <- powerRZ_add by lra. replace (23 - e + (e - 23))%Z with 0%Z by lia.
      reflexivity. }
    rewrite Rmult_minus_distr_r, Rmult_assoc, H. ring.
Qed.

(** A float32 number stays: 1 is cast to 1.  Halfway between two float32
    numbers the one with the even last bit is taken: [1 + 2^-24] is cast
    to 1. *)
Lemma round_float32_one : round_float32 1 = 1.
Proof.
  unfold round_float32, float32_exponent.
  rewrite (exponent_from_spec 1 0); [| | lia | cbn; lia].
  - change (23 - 0)%Z with (Z.of_nat 23). change (0 - 23)%Z with (- Z.of_nat 23)%Z.
    rewrite powerRZ_2_neg, <- pow_powerRZ.
    rewrite (nearest_even_within _ 8388608) by (simpl; lra).
    simpl. lra.
  - rewrite Rabs_right by lra. unfold powerRZ. simpl. lra.
Qed.

Lemma round_float32_tie : round_float32 (1 + / 16777216) = 1.
Proof.
  unfold round_float32, float32_exponent.
  rewrite (exponent_from_spec _ 0); [| | lia | cbn; lia].
  - change (23 - 0)%Z with (Z.of_nat 23). change (0 - 23)%Z with (- Z.of_nat 23)%Z.
    rewrite powerRZ_2_neg, <- pow_powerRZ.
    replace ((1 + / 16777216) * 2 ^ 23) with (IZR 8388608 + 1 / 2) by (simpl; lra).
    rewrite nearest_even_tie. cbn [Z.even]. simpl. lra.
  - rewrite Rabs_right by lra. unfold powerRZ. simpl. lra.
Qed.

Lemma to_shape t dt : shape (SUCB.to t dt) = shape t.
Proof. destruct dt; reflexivity. Qed.

Lemma to_nonnegative t dt : nonnegative t -> nonnegative (SUCB.to t dt).
Proof.
  destruct dt; [|trivial]. unfold nonnegative, SUCB.to, tmap. cbn [data].
  intros H. apply Forall_forall. intros y Hy.
  apply in_map_iff in Hy. destruct Hy as [x [<- Hx]].
  apply round_float32_nonneg. rewrite Forall_forall in H. now apply H.
Qed.

(** What a call leaves in [self]. *)

(** The analytic [forward] stores the cast [beta] first; the rest of its
    body assigns nothing. *)
Lemma analytic_body_state dt X s :
  snd (SUCB.forward_body_at dt X s)
  = SUCB.set_beta (SUCB.to (SUCB.beta s) dt) s.
Proof.
  unfold SUCB.forward_body_at. rewrite bind_attr, bind_assign.
  match goal with
  | |- snd (?m ?s') = _ => assert (Hk : keeps m); [keeps_steps | exact (Hk s')]
  end.
Qed.

Lemma analytic_forward_state dt X s :
  snd (SUCB.forward_at dt X s)
  = if ((dim X <? 2) || negb (dim_m2 (shape X) =? 1))%nat then s
    else SUCB.set_beta (SUCB.to (SUCB.beta s) dt) s.
Proof.
  unfold SUCB.forward_at, t_batch_mode_transform, average_over_ensemble_models.
  destruct (dim X <? 2)%nat; [reflexivity|].
  destruct (dim_m2 (shape X) =? 1)%nat; [|reflexivity].
  cbn [orb negb]. rewrite bind_ret_r. apply analytic_body_state.
Qed.

Lemma after_calls_keeps {S A I} (method : I -> M S A) (inputs : list I) (s : S) :
  (forall x, keeps (method x)) -> after_calls method inputs s = s.
Proof.
  intros H. unfold after_calls. induction inputs as [|x xs IH]; [reflexivity|].
  cbn [fold_left]. now rewrite H.
Qed.

Lemma analytic_call_weights_shape c s :
  SUCB.weights (snd (analytic_call c s)) = SUCB.weights s
  /\ shape (SUCB.beta (snd (analytic_call c s))) = shape (SUCB.beta s).
Proof.
  unfold analytic_call. rewrite analytic_forward_state.
  destruct (_ || _)%bool; [now split|].
  cbn [SUCB.set_beta SUCB.weights SUCB.beta]. split; [reflexivity | apply to_shape].
Qed.

(** C5, as amended.  The weight vector is fixed at construction: no call
    of either [forward] method, returning or raising, changes [weights].
    [beta] is left as it was by the Monte Carlo [forward], and by the
    analytic [forward] on float64 inputs.  In general the analytic
    [forward] keeps the shape of [beta] and, for an input that passes the
    checks of the decorator, stores [beta.to(X)] - [beta] cast to the
    dtype of [X] - before anything in its body can raise. *)
Theorem forward_keeps_weights_casts_beta (sq : qSUCB.self) (sa : SUCB.self) :
  (forall Xs, after_calls qSUCB.forward Xs sq = sq)
  /\ (forall calls,
        SUCB.weights (after_calls analytic_call calls sa) = SUCB.weights sa
        /\ shape (SUCB.beta (after_calls analytic_call calls sa))
           = shape (SUCB.beta sa))
  /\ (forall Xs, after_calls SUCB.forward Xs sa = sa)
  /\ (forall dt X,
        SUCB.beta (snd (SUCB.forward_at dt X sa))
        = if ((dim X <? 2) || negb (dim_m2 (shape X) =? 1))%nat
          then SUCB.beta sa
          else SUCB.to (SUCB.beta sa) dt).
Proof.
  split; [|split; [|split]].
  - intros Xs. apply after_calls_keeps. exact mc_forward_keeps.
  - intros calls. revert sa. unfold after_calls.
    induction calls as [|c cs IH]; intros sa; [now split|].
    cbn [fold_left]. destruct (IH (snd (analytic_call c sa))) as [Hw Hb].
    destruct (analytic_call_weights_shape c sa) as [Hw' Hb'].
    split; congruence.
  - intros Xs. apply after_calls_keeps. exact analytic_forward_keeps.
  - intros dt X. rewrite analytic_forward_state.
    now destruct (_ || _)%bool.
Qed.

Lemma forward_keeps_weights_casts_beta_example :
  after_calls qSUCB.forward [example_X_q3; example_X] example_qSUCB = example_qSUCB
  /\ SUCB.weights
       (after_calls analytic_call [(float32, example_X); (float64, example_X_q3)]
          example_SUCB)
     = example_weights
  /\ after_calls SUCB.forward [example_X; example_X_q3] example_SUCB = example_SUCB
  /\ SUCB.beta (snd (SUCB.forward_at float32 example_X example_SUCB))
     = SUCB.to example_beta float32.
Proof.
  destruct (forward_keeps_weights_casts_beta example_qSUCB example_SUCB)
    as [Hmc [Hw [Han Hb]]].
  split; [apply Hmc|]. split; [apply Hw|]. split; [apply Han|]. apply Hb.
Defined.

(** C5, as stated, fails for [beta].  The notebook's object is built with
    [beta = 0.1]; after one call of the analytic [forward] on a float32
    input the attribute holds the float32 nearest to it,
    [13421773 / 2^27 = 0.100000001490116...], and a later call on a
    float64 input does not bring 0.1 back. *)
Lemma forward_float32_changes_beta :
  SUCB.beta example_SUCB = mkTensor [] [0.1]
  /\ SUCB.beta (snd (SUCB.forward_at float32 example_X example_SUCB))
     = mkTensor [] [13421773 / 134217728]
  /\ SUCB.beta
       (after_calls analytic_call [(float32, example_X); (float64, example_X)]
          example_SUCB)
     = mkTensor [] [13421773 / 134217728]
  /\ SUCB.beta (snd (SUCB.forward_at float32 example_X example_SUCB))
     <> SUCB.beta example_SUCB.
Proof.
  assert (H1 : SUCB.beta (snd (SUCB.forward_at float32 example_X example_SUCB))
               = mkTensor [] [13421773 / 134217728]).
  { rewrite analytic_forward_state.
    change ((dim example_X <? 2) || negb (dim_m2 (shape example_X) =? 1))%nat
      with false.
    cbn [SUCB.set_beta SUCB.beta example_SUCB SUCB.__init__ SUCB.to].
    unfold tmap, example_beta, as_tensor. cbn [shape data map].
    now rewrite round_float32_tenth. }
  split; [reflexivity|]. split; [exact H1|]. split.
  - unfold after_calls. cbn [fold_left]. unfold analytic_call. cbn [fst snd].
    rewrite (analytic_forward_state float64).
    change ((dim example_X <? 2) || negb (dim_m2 (shape example_X) =? 1))%nat
      with false.
    cbn [SUCB.set_beta SUCB.beta SUCB.to]. exact H1.
  - rewrite H1. cbn [SUCB.beta example_SUCB SUCB.__init__ example_beta as_tensor].
    intros H. injection H as H. lra.
Qed.

(** The scalarized variance in binary64. *)

Lemma float_value_1 : float_value 1%float = 1.
Proof.
  unfold float_value.
  replace (Prim2SF 1%float) with (S754_finite false 4503599627370496 (-52))
    by (vm_compute; reflexivity).
  change (-52)%Z with (- Z.of_nat 52)%Z. rewrite powerRZ_2_neg. simpl. lra.
Qed.

Lemma float_value_3 : float_value 3%float = 3.
Proof.
  unfold float_value.
  replace (Prim2SF 3%float) with (S754_finite false 6755399441055744 (-51))
    by (vm_compute; reflexivity).
  change (-51)%Z with (- Z.of_nat 51)%Z. rewrite powerRZ_2_neg. simpl. lra.
Qed.

Lemma float_value_9 : float_value 9%float = 9.
Proof.
  unfold float_value.
  replace (Prim2SF 9%float) with (S754_finite false 5066549580791808 (-49))
    by (vm_compute; reflexivity).
  change (-49)%Z with (- Z.of_nat 49)%Z. rewrite powerRZ_2_neg. simpl. lra.
Qed.

(** Where nothing is rounded the two computations agree: with the weights
    [(1, 1)] the scalarized variance of [[1, 3], [3, 9]] is 16 in binary64
    and in exact arithmetic. *)
Lemma scalarized_variance64_exact :
  float_value (scalarized_variance64 rank_one_cov64 [1; 1]%float)
  = quadratic_form [1; 1] (data rank_one_covs) 0.
Proof.
  unfold float_value.
  replace (Prim2SF (scalarized_variance64 rank_one_cov64 [1; 1]%float))
    with (S754_finite false 4503599627370496 (-48)) by (vm_compute; reflexivity).
  change (-48)%Z with (- Z.of_nat 48)%Z. rewrite powerRZ_2_neg.
  unfold quadratic_form. cbn. unfold get. cbn. simpl. lra.
Qed.

Lemma rank_one_positive_semidefinite : positive_semidefinite rank_one_covs.
Proof.
  intros v j Hj Hv. cbn in Hj, Hv. replace j with 0%nat by lia.
  destruct v as [|a [|b [|c v]]]; try discriminate.
  unfold quadratic_form. cbn. unfold get. cbn.
  pose proof (Rle_0_sqr (a + 3 * b)) as Hsq. unfold Rsqr in Hsq. lra.
Qed.

Lemma analytic_forward_real (s : SUCB.self) (dt : Dtype) (X : Tensor) :
  nonnegative (SUCB.beta s) ->
  computed_variance_nonneg (SUCB.weights s) (with_t_batch X)
    (covariance_matrix (posterior (SUCB.model s) (with_t_batch X))) ->
  fst (SUCB.forward_at dt X s) <> NotReal.
Proof.
  intros Hb Hvar. unfold SUCB.forward_at.
  destruct (decorated_cases (Some 1%nat) (SUCB.forward_body_at dt) X s)
    as [[e [-> _]] | ->]; [discriminate|].
  unfold SUCB.forward_body_at.
  rewrite bind_attr, bind_assign, bind_attr.
  cbn [SUCB.set_beta SUCB.model SUCB.weights SUCB.beta SUCB.maximize].
  apply bind_lift_real; [apply squeeze_m2_real | intros means _].
  rewrite bind_attr. cbn [SUCB.set_beta SUCB.model SUCB.weights SUCB.beta SUCB.maximize].
  apply bind_lift_real; [apply matmul_real | intros sm _].
  apply bind_lift_real; [apply view_1_m1_1_real | intros w1 E1].
  apply bind_lift_real; [apply expand_real | intros w2 E2].
  apply bind_lift_real; [apply permute_real | intros wT E3].
  apply bind_lift_real; [apply bmm_real | intros inner E4].
  apply bind_lift_real; [apply bmm_real | intros outer E5].
  apply bind_lift_real; [apply view_real | intros sv E6].
  rewrite bind_attr. cbn [SUCB.set_beta SUCB.model SUCB.weights SUCB.beta SUCB.maximize].
  apply bind_lift_real; [apply expand_real | intros be Eb].
  apply bind_lift_real; [apply binop_real | intros pr Ep].
  apply bind_lift_real.
  - apply tsqrt_real. apply (binop_entries_nonneg be sv); [| |exact Ep].
    + apply (expand_entries_nonneg (SUCB.to (SUCB.beta s) dt) (shape sm)); [|exact Eb].
      now apply entries_nonneg_Forall, to_nonnegative.
    + apply entries_nonneg_Forall. apply Hvar.
      unfold scalarized_variance.
      rewrite E1; cbn [and_then]. rewrite E2; cbn [and_then].
      rewrite E3; cbn [and_then]. rewrite E4; cbn [and_then].
      rewrite E5; cbn [and_then]. exact E6.
  - intros delta _. rewrite bind_attr.
    cbn [SUCB.set_beta SUCB.model SUCB.weights SUCB.beta SUCB.maximize].
    destruct (SUCB.maximize s); unfold lift; cbn [fst]; apply binop_real.
Qed.

Lemma and_then_Ok {A B} (r : result A) (k : A -> result B) (b : B) :
  and_then r k = Ok b -> exists a, r = Ok a /\ k a = Ok b.
Proof. destruct r as [a|e|]; try discriminate. intros H. now exists a. Qed.

(** With exact sums the computed scalarized variance is the quadratic form
    [w^T C w], so a positive semidefinite covariance makes it
    non-negative. *)
Lemma positive_semidefinite_variance_nonneg (w : list R) (X covs : Tensor) :
  positive_semidefinite covs -> computed_variance_nonneg w X covs.
Proof.
  intros Hpsd sv Hsv. unfold scalarized_variance in Hsv.
  apply and_then_Ok in Hsv. destruct Hsv as [w1 [E1 Hsv]].
  apply and_then_Ok in Hsv. destruct Hsv as [w2 [E2 Hsv]].
  apply and_then_Ok in Hsv. destruct Hsv as [wT [E3 Hsv]].
  apply and_then_Ok in Hsv. destruct Hsv as [inner [E4 Hsv]].
  apply and_then_Ok in Hsv. destruct Hsv as [outer [E5 E6]].
  destruct (variance_steps _ _ _ _ _ _ _ _ _ E1 E2 E3 E4 E5 E6) as [b [_ [Hc ->]]].
  unfold nonnegative. cbn [data]. apply Forall_forall. intros x Hx.
  unfold tabulate in Hx. apply in_map_iff in Hx. destruct Hx as [j [<- Hj]].
  apply in_seq in Hj. apply Hpsd; rewrite Hc; [cbn [hd]; lia | reflexivity].
Qed.




(** The Monte Carlo score with one candidate. *)

(** The factor [sqrt (beta * pi / 2)] of the Monte Carlo score turns the
    mean distance of a normal variable from its mean into the exploration
    term of the analytic score. *)
Lemma ucb_scale_identity (beta v : R) :
  0 <= beta -> 0 <= v ->
  sqrt (beta * PI / 2) * sqrt (2 * v / PI) = sqrt (beta * v).
Proof.
  intros Hb Hv. pose proof PI_RGT_0 as Hpi.
  rewrite <- sqrt_mult_alt.
  - f_equal. field. lra.
  - apply Rmult_le_pos; [apply Rmult_le_pos|]; lra.
Qed.

(** The Monte Carlo score for [q = 1]: the scalarized mean plus the scaled
    mean distance of the draws. *)
Lemma mc_score_q1 w beta c draws p N j :
  mc_score w beta (stream_sampler c draws (S N)) p (S N) 1 j
  = scalarize w (data (mean p)) j
    + sqrt (beta * PI / 2) * mean_abs_deviation w draws p j N.
Proof.
  unfold mc_score, mean_abs_deviation. cbn [Nat.sub max_upto].
  unfold mc_ucb_sample. cbn [base_draw stream_sampler].
  rewrite Nat.mul_1_r, Nat.add_0_r.
  rewrite sumn_plus, sumn_const, sumn_scal.
  assert (INR (S N) <> 0) by (apply not_0_INR; discriminate).
  field. assumption.
Qed.

(** Values at the standard normal posterior. *)

Lemma normal_scalarized_mean :
  scalarize [1]
    (data (mean (posterior standard_normal_model (with_t_batch point_X)))) 0 = 0.
Proof. unfold scalarize. cbn. unfold get. cbn. lra. Qed.

Lemma normal_quadratic_form (v : list R) :
  length v = 1%nat ->
  quadratic_form v
    (data (covariance_matrix (posterior standard_normal_model (with_t_batch point_X)))) 0
  = get v 0 * get v 0.
Proof.
  intros Hv. unfold quadratic_form. rewrite Hv. cbn. unfold get. cbn. lra.
Qed.

Lemma normal_variance_nonneg :
  scalarized_variance_nonneg [1]
    (covariance_matrix (posterior standard_normal_model (with_t_batch point_X))).
Proof.
  intros j Hj. cbn in Hj. replace j with 0%nat by lia.
  rewrite normal_quadratic_form by reflexivity. unfold get. cbn. lra.
Qed.

Lemma symmetric_draws_deviation N :
  mean_abs_deviation [1] symmetric_draws
    (posterior standard_normal_model (with_t_batch point_X)) 0 N
  = sqrt (2 / PI).
Proof.
  unfold mean_abs_deviation. rewrite normal_scalarized_mean.
  assert (Hs : forall i p,
            Rabs (scalarize [1] (symmetric_draws i p) 0 - 0) = sqrt (2 / PI)).
  { intros i p. pose proof (sqrt_pos (2 / PI)) as Hpos.
    unfold scalarize, symmetric_draws. cbn. unfold get. cbn.
    destruct (Nat.even i).
    - rewrite Rabs_right; lra.
    - rewrite Rabs_left1; lra. }
  rewrite (sumn_ext _ _ (fun _ => sqrt (2 / PI))) by (intros i _; apply Hs).
  rewrite sumn_const.
  assert (INR (S N) <> 0) by (apply not_0_INR; discriminate).
  field. assumption.
Qed.

Lemma mean_abs_deviation_nonneg w draws p j N :
  0 <= mean_abs_deviation w draws p j N.
Proof.
  unfold mean_abs_deviation. apply Rmult_le_pos.
  - apply sumn_nonneg. intros i _. apply Rabs_pos.
  - apply Rlt_le, Rinv_0_lt_compat, lt_0_INR. lia.
Qed.

(** For [q = 1] the Monte Carlo score is never below the scalarized mean,
    whatever the draws are. *)
Lemma mc_score_q1_above_mean w beta c draws p N j :
  scalarize w (data (mean p)) j
  <= mc_score w beta (stream_sampler c draws (S N)) p (S N) 1 j.
Proof.
  rewrite mc_score_q1.
  pose proof (sqrt_pos (beta * PI / 2)).
  pose proof (mean_abs_deviation_nonneg w draws p j N).
  assert (0 <= sqrt (beta * PI / 2) * mean_abs_deviation w draws p j N)
    by now apply Rmult_le_pos.
  lra.
Qed.

(** The standard normal posterior has a positive semidefinite covariance. *)
Lemma normal_positive_semidefinite :
  positive_semidefinite
    (covariance_matrix (posterior standard_normal_model (with_t_batch point_X))).
Proof.
  intros v j Hj Hv. cbn in Hj, Hv.
  replace j with 0%nat by lia. rewrite normal_quadratic_form by assumption.
  nra.
Qed.

(** Expectations. *)

Section Expectation.

Context {Omega : Type} (E : (Omega -> R) -> R) (HE : is_expectation E).

Lemma E_ext f g : (forall omega, f omega = g omega) -> E f = E g.
Proof. apply HE. Qed.

Lemma E_plus f g : E (fun omega => f omega + g omega) = E f + E g.
Proof. apply HE. Qed.

Lemma E_scal c f : E (fun omega => c * f omega) = c * E f.
Proof. apply HE. Qed.

Lemma E_const c : E (fun _ => c) = c.
Proof.
  rewrite (E_ext (fun _ => c) (fun _ => c * 1)) by (intros; lra).
  rewrite (E_scal c (fun _ => 1)).
  destruct HE as [_ [_ [_ H1]]]. rewrite H1. lra.
Qed.

Lemma E_sumn n (f : nat -> Omega -> R) :
  E (fun omega => sumn n (fun i => f i omega)) = sumn n (fun i => E (f i)).
Proof.
  induction n as [|n IH]; cbn [sumn].
  - apply E_const.
  - now rewrite E_plus, IH.
Qed.

(** Mean square of an average of [n] variables with common mean [mu],
    common second moment [s] and no correlation. *)
Lemma E_average_square n (a : nat -> Omega -> R) (mu s : R) :
  (forall i, (i < n)%nat -> E (a i) = mu) ->
  (forall i, (i < n)%nat -> E (fun omega => a i omega * a i omega) = s) ->
  (forall i k, (i < n)%nat -> (k < n)%nat -> i <> k ->
     E (fun omega => a i omega * a k omega) = E (a i) * E (a k)) ->
  n <> 0%nat ->
  E (fun omega =>
       (sumn n (fun i => a i omega) / INR n - mu)
       * (sumn n (fun i => a i omega) / INR n - mu))
  = (s - mu * mu) / INR n.
Proof.
  intros H1 H2 H3 Hn.
  assert (Hn0 : INR n <> 0) by now apply not_0_INR.
  assert (Hcross : forall i k, (i < n)%nat -> (k < n)%nat ->
            E (fun omega => (a i omega - mu) * (a k omega - mu))
            = if (k =? i)%nat then s - mu * mu else 0).
  { intros i k Hi Hk.
    rewrite (E_ext _ (fun omega => a i omega * a k omega
                                   + ((- mu) * a i omega
                                      + ((- mu) * a k omega + mu * mu))))
      by (intros; ring).
    rewrite !E_plus, !E_scal, E_const, !H1 by assumption.
    destruct (Nat.eqb_spec k i) as [->|Hne].
    - rewrite H2 by assumption. ring.
    - rewrite H3, !H1 by (assumption || congruence). ring. }
  rewrite (E_ext _ (fun omega =>
             / (INR n * INR n)
             * sumn n (fun i => sumn n (fun k => (a i omega - mu) * (a k omega - mu))))).
  2:{ intros omega.
      assert (Hc : sumn n (fun i => a i omega) / INR n - mu
                   = / INR n * sumn n (fun i => a i omega - mu)).
      { unfold Rminus at 2.
        rewrite sumn_plus, sumn_const. field. assumption. }
      rewrite Hc.
      rewrite (sumn_ext n (fun i => sumn n (fun k => (a i omega - mu) * (a k omega - mu)))
                 (fun i => (a i omega - mu) * sumn n (fun k => a k omega - mu))).
      - rewrite (sumn_ext n (fun i => (a i omega - mu) * sumn n (fun k => a k omega - mu))
                   (fun i => sumn n (fun k => a k omega - mu) * (a i omega - mu)))
          by (intros; ring).
        rewrite sumn_scal. field. assumption.
      - intros i _. now rewrite sumn_scal. }
  rewrite E_scal, E_sumn.
  rewrite (sumn_ext n _ (fun _ => s - mu * mu)).
  - rewrite sumn_const. field. assumption.
  - intros i Hi. rewrite E_sumn.
    rewrite (sumn_ext n _ (fun k => (if (k =? i)%nat then 1 else 0) * (s - mu * mu))).
    + now rewrite (sumn_pick n i (fun _ => s - mu * mu)).
    + intros k Hk. rewrite Hcross by assumption.
      destruct (k =? i)%nat; ring.
Qed.

End Expectation.

(** Limits. *)

Lemma Un_cv_over_count (C : R) : Un_cv (fun N => C / INR (S N)) 0.
Proof.
  intros eps Heps.
  destruct (archimed (Rabs C / eps)) as [Hup _].
  exists (Z.to_nat (up (Rabs C / eps))). intros n Hn.
  unfold R_dist. rewrite Rminus_0_r.
  assert (Hpos : 0 < INR (S n)) by (apply lt_0_INR; lia).
  unfold Rdiv. rewrite Rabs_mult, Rabs_inv, (Rabs_right (INR (S n))) by lra.
  assert (Hge : Rabs C / eps < INR (S n)).
  { apply Rlt_le_trans with (IZR (up (Rabs C / eps))); [lra|].
    rewrite INR_IZR_INZ. apply IZR_le. lia. }
  apply (Rmult_lt_reg_r (INR (S n))); [assumption|].
  replace (Rabs C * / INR (S n) * INR (S n)) with (Rabs C) by (field; lra).
  apply (Rmult_lt_compat_r eps) in Hge; [|assumption].
  replace (Rabs C / eps * eps) with (Rabs C) in Hge by (field; lra).
  lra.
Qed.

(** The normal law. *)

Lemma normal_scale_pos v : 0 < v -> 0 < sqrt (2 * PI * v).
Proof.
  intros Hv. pose proof PI_RGT_0. apply sqrt_lt_R0.
  apply Rmult_lt_0_compat; lra.
Qed.

Lemma normal_primitive_derivable s m v : derivable (normal_primitive s m v).
Proof. unfold normal_primitive. reg. Qed.

Lemma normal_primitive_derive s m v x :
  0 < v ->
  derive_pt (normal_primitive s m v) x (normal_primitive_derivable s m v x)
  = - s * (x - m) * normal_density m v x.
Proof.
  intros Hv. pose proof (normal_scale_pos v Hv).
  unfold normal_primitive, normal_density. reg.
  unfold Rdiv. set (e := exp _). field. split; lra.
Qed.

Lemma continuity_ext (f g : R -> R) :
  (forall x, f x = g x) -> continuity g -> continuity f.
Proof.
  intros H Hg x. specialize (Hg x).
  unfold continuity_pt, continue_in, limit1_in, limit_in in *.
  intros eps Heps. destruct (Hg eps Heps) as [alp [Halp Hd]].
  exists alp. split; [assumption|]. intros y Hy. rewrite !H. now apply Hd.
Qed.

Lemma normal_primitive_cont s m v :
  0 < v ->
  continuity (derive (normal_primitive s m v) (normal_primitive_derivable s m v)).
Proof.
  intros Hv.
  apply (continuity_ext _ (fun x => - s * (x - m) * normal_density m v x)).
  - intros x. unfold derive. now apply normal_primitive_derive.
  - unfold normal_density. reg.
Qed.

Lemma normal_density_cont m v : continuity (normal_density m v).
Proof. unfold normal_density. reg. Qed.

Lemma abs_density_integrable m v a b :
  a <= b -> Riemann_integrable (fun x => Rabs (x - m) * normal_density m v x) a b.
Proof.
  intros Hab. apply continuity_implies_RiemannInt; [assumption|].
  intros x _. apply continuity_pt_mult.
  - apply (continuity_pt_comp (fun x => x - m) Rabs).
    + reg.
    + apply Rcontinuity_abs.
  - apply normal_density_cont.
Qed.

(** The integral of [|x - m| * density] over one side of [m]: from [a] to
    [b], where [x - m] has the sign [- s] throughout. *)
Lemma abs_density_side s m v a b (Hv : 0 < v)
    (pr : Riemann_integrable (fun x => Rabs (x - m) * normal_density m v x) a b) :
  a <= b ->
  (forall x, a < x < b -> Rabs (x - m) = - s * (x - m)) ->
  RiemannInt pr = normal_primitive s m v b - normal_primitive s m v a.
Proof.
  intros Hab Hsign.
  set (F := mkC1 (normal_primitive_cont s m v Hv)).
  assert (pr' : Riemann_integrable (derive F (diff0 F)) a b).
  { apply continuity_implies_RiemannInt; [assumption|].
    intros x _. apply (cont1 F). }
  rewrite (RiemannInt_P18 pr pr' Hab).
  - now rewrite (FTC_Riemann F pr').
  - intros x Hx. unfold derive, F. cbn [diff0 c1].
    rewrite normal_primitive_derive by assumption.
    now rewrite Hsign.
Qed.

Lemma normal_scale_identity v :
  0 < v -> 2 * v / sqrt (2 * PI * v) = sqrt (2 * v / PI).
Proof.
  intros Hv. pose proof PI_RGT_0 as Hpi. pose proof (normal_scale_pos v Hv) as Hs.
  assert (H : sqrt (2 * v / PI) * sqrt (2 * PI * v) = 2 * v).
  { rewrite <- sqrt_mult_alt.
    - replace (2 * v / PI * (2 * PI * v)) with ((2 * v) * (2 * v)) by (field; lra).
      rewrite sqrt_square; lra.
    - apply Rlt_le, Rdiv_lt_0_compat; lra. }
  apply (Rmult_eq_reg_r (sqrt (2 * PI * v))); [|lra].
  rewrite H. field. lra.
Qed.

(** Under the normal density of mean [m] and variance [v], the mean
    distance from [m] over [[m - T, m + T]]. *)
Theorem normal_mean_abs_deviation (m v T : R)
    (pr : Riemann_integrable (fun x => Rabs (x - m) * normal_density m v x)
            (m - T) (m + T)) :
  0 < v -> 0 <= T ->
  RiemannInt pr = sqrt (2 * v / PI) * (1 - exp (- (T * T / (2 * v)))).
Proof.
  intros Hv HT.
  assert (Hl : m - T <= m) by lra. assert (Hr : m <= m + T) by lra.
  pose proof (abs_density_integrable m v _ _ Hl) as prl.
  pose proof (abs_density_integrable m v _ _ Hr) as prr.
  rewrite <- (RiemannInt_P26 prl prr pr).
  rewrite (abs_density_side 1 m v _ _ Hv prl Hl).
  2:{ intros x Hx. rewrite Rabs_left; lra. }
  rewrite (abs_density_side (-1) m v _ _ Hv prr Hr).
  2:{ intros x Hx. rewrite Rabs_right; lra. }
  rewrite <- normal_scale_identity by assumption.
  pose proof (normal_scale_pos v Hv).
  unfold normal_primitive.
  replace ((m - m) * (m - m) / (2 * v)) with 0 by (field; lra).
  replace ((m - T - m) * (m - T - m) / (2 * v)) with (T * T / (2 * v)) by (field; lra).
  replace ((m + T - m) * (m + T - m) / (2 * v)) with (T * T / (2 * v)) by (field; lra).
  rewrite Ropp_0, exp_0. field. lra.
Qed.

(** Over the whole line: as [T] grows the mean distance tends to
    [sqrt (2 v / pi)]. *)
Lemma normal_mean_abs_deviation_limit (v : R) :
  0 < v ->
  Un_cv (fun N => sqrt (2 * v / PI)
                  * (1 - exp (- (INR (S N) * INR (S N) / (2 * v)))))
        (sqrt (2 * v / PI)).
Proof.
  intros Hv eps Heps.
  pose proof (sqrt_pos (2 * v / PI)) as Hs.
  destruct (Un_cv_over_count (sqrt (2 * v / PI) * (2 * v)) eps Heps) as [N0 HN0].
  exists N0. intros n Hn. specialize (HN0 n Hn).
  unfold R_dist in *. rewrite Rminus_0_r in HN0.
  assert (Hpos : 0 < INR (S n)) by (apply lt_0_INR; lia).
  assert (H1 : 1 <= INR (S n)) by (rewrite S_INR; pose proof (pos_INR n); lra).
  set (t := INR (S n) * INR (S n) / (2 * v)).
  assert (Ht : 0 < t) by (unfold t; apply Rdiv_lt_0_compat; nra).
  assert (Hexp : exp (- t) < / t).
  { rewrite exp_Ropp. apply Rinv_lt_contravar.
    - apply Rmult_lt_0_compat; [assumption | apply exp_pos].
    - pose proof (exp_ineq1 t ltac:(lra)). lra. }
  assert (Hinv : / t <= 2 * v / INR (S n)).
  { unfold t. replace (/ (INR (S n) * INR (S n) / (2 * v)))
      with (2 * v / INR (S n) * / INR (S n)) by (field; lra).
    rewrite <- (Rmult_1_r (2 * v / INR (S n))) at 2.
    apply Rmult_le_compat_l.
    - apply Rlt_le, Rdiv_lt_0_compat; lra.
    - rewrite <- Rinv_1. apply Rinv_le_contravar; lra. }
  replace (sqrt (2 * v / PI) * (1 - exp (- t)) - sqrt (2 * v / PI))
    with (- (sqrt (2 * v / PI) * exp (- t))) by ring.
  rewrite Rabs_Ropp, Rabs_right.
  2:{ apply Rle_ge, Rmult_le_pos; [assumption | apply Rlt_le, exp_pos]. }
  rewrite Rabs_right in HN0.
  2:{ apply Rle_ge. apply Rmult_le_pos; [|apply Rlt_le, Rinv_0_lt_compat; assumption].
      apply Rmult_le_pos; lra. }
  apply Rle_lt_trans with (sqrt (2 * v / PI) * (2 * v / INR (S n))); [|].
  - apply Rmult_le_compat_l; [assumption | lra].
  - replace (sqrt (2 * v / PI) * (2 * v / INR (S n)))
      with (sqrt (2 * v / PI) * (2 * v) / INR (S n)) by (field; lra).
    exact HN0.
Qed.

(** The coin-decided draws. *)

Lemma coin_average_expectation : is_expectation coin_average.
Proof.
  unfold is_expectation, coin_average. repeat split.
  - intros f g H. now rewrite !H.
  - intros f g. lra.
  - intros c f. lra.
  - lra.
Qed.

Lemma two_point_spread : 0 <= 1 - 2 / PI /\ sqrt (1 - 2 / PI) <= sqrt (2 / PI).
Proof.
  pose proof PI_RGT_0 as Hpi. pose proof PI_4 as H4. pose proof PI2_1 as H2.
  assert (H1 : 2 / PI <= 1).
  { apply (Rmult_le_reg_r PI); [assumption|].
    replace (2 / PI * PI) with 2 by (field; lra). lra. }
  assert (H3 : 1 <= 2 * (2 / PI)).
  { apply (Rmult_le_reg_r PI); [assumption|].
    replace (2 * (2 / PI) * PI) with 4 by (field; lra). lra. }
  split; [lra|]. apply sqrt_le_1_alt. lra.
Qed.

Lemma two_point_deviation omega i :
  abs_deviation [1] (two_point_draws omega)
    (posterior standard_normal_model (with_t_batch point_X)) 0 i
  = sqrt (2 / PI)
    + (if (if (i =? 0)%nat then fst omega else snd omega)
       then sqrt (1 - 2 / PI) else - sqrt (1 - 2 / PI)).
Proof.
  unfold abs_deviation. rewrite normal_scalarized_mean.
  destruct two_point_spread as [H0 Hle].
  pose proof (sqrt_pos (1 - 2 / PI)) as Hs.
  unfold scalarize, two_point_draws. cbn [length sumn]. unfold get. cbn [nth Nat.mul Nat.add].
  destruct (if (i =? 0)%nat then fst omega else snd omega);
    rewrite Rabs_right; lra.
Qed.

Lemma two_point_gaussian_moments :
  gaussian_moments coin_average [1] two_point_draws
    (posterior standard_normal_model (with_t_batch point_X)) 0 1.
Proof.
  pose proof PI_RGT_0 as Hpi.
  destruct two_point_spread as [H0 _].
  assert (Hmu : sqrt (2 / PI) * sqrt (2 / PI) = 2 / PI).
  { apply sqrt_sqrt. apply Rlt_le, Rdiv_lt_0_compat; lra. }
  assert (Hsg : sqrt (1 - 2 / PI) * sqrt (1 - 2 / PI) = 1 - 2 / PI)
    by now apply sqrt_sqrt.
  unfold gaussian_moments. rewrite normal_quadratic_form by reflexivity.
  replace (2 * (get [1] 0 * get [1] 0) / PI) with (2 / PI)
    by (unfold get; cbn; field; lra).
  replace (get [1] 0 * get [1] 0) with 1 by (unfold get; cbn; lra).
  assert (Hcases : forall i, (i <= 1)%nat -> i = 0%nat \/ i = 1%nat) by (intros; lia).
  split; [|split].
  - intros i Hi. unfold coin_average. rewrite !two_point_deviation.
    destruct (Hcases i Hi) as [-> | ->]; cbn [Nat.eqb fst snd]; lra.
  - intros i Hi. unfold coin_average. rewrite !two_point_deviation.
    destruct (Hcases i Hi) as [-> | ->]; cbn [Nat.eqb fst snd]; nra.
  - intros i k Hi Hk Hne. unfold coin_average. rewrite !two_point_deviation.
    destruct (Hcases i Hi) as [-> | ->]; destruct (Hcases k Hk) as [-> | ->];
      try congruence; cbn [Nat.eqb fst snd]; nra.
Qed.




Lemma normal_analytic_score_false :
  analytic_score [1] false (as_tensor 1)
    (posterior standard_normal_model (with_t_batch point_X)) 0 = -1.
Proof.
  unfold analytic_score, analytic_delta.
  rewrite normal_scalarized_mean, normal_quadratic_form by reflexivity.
  unfold beta_entry, get. cbn [as_tensor shape data numel fold_right Nat.mul Nat.eqb nth].
  replace (1 * (1 * 1)) with 1 by lra. rewrite sqrt_1. lra.
Qed.

Lemma normal_mc_score N :
  mc_score [1] 1 (stream_sampler IIDNormal symmetric_draws (S N))
    (posterior standard_normal_model (with_t_batch point_X)) (S N) 1 0 = 1.
Proof.
  rewrite mc_score_q1, normal_scalarized_mean, symmetric_draws_deviation.
  replace (sqrt (2 / PI)) with (sqrt (2 * 1 / PI)) by (f_equal; lra).
  rewrite ucb_scale_identity by lra.
  replace (1 * 1) with 1 by lra. rewrite sqrt_1. lra.
Qed.


(** C8.  The analytic [forward] accepts only inputs with [q = 1]: for an
    input whose [q] dimension is not 1 the call raises, before the method
    body runs, and returns no score. *)
Theorem SUCB_forward_rejects_q (s : SUCB.self) (X : Tensor) :
  dim_m2 (shape X) <> 1%nat ->
  (exists e, SUCB.forward X s = (Raise e, s))
  /\ ((2 <= dim X)%nat ->
      SUCB.forward X s = (Raise (AssertionError "Expected X to be batch_shape x q x d"), s)).
Proof.
  intros Hq. unfold SUCB.forward, t_batch_mode_transform.
  destruct (Nat.ltb_spec (dim X) 2) as [Hd|Hd].
  - split; [eexists; reflexivity | lia].
  - destruct (Nat.eqb_spec (dim_m2 (shape X)) 1) as [|_]; [contradiction|].
    split; [eexists; reflexivity | reflexivity].
Qed.

Lemma SUCB_forward_rejects_q_example :
  SUCB.forward example_X_q3 example_SUCB
  = (Raise (AssertionError "Expected X to be batch_shape x q x d"), example_SUCB).
Proof.
  apply (SUCB_forward_rejects_q example_SUCB example_X_q3); [discriminate | cbn; lia].
Defined.

(** The draws that a call reads. *)

Lemma get_posterior_samples_ext (s1 s2 : MCSampler) (p : Posterior) (n : nat) :
  sample_shape s1 = [n] -> sample_shape s2 = [n] ->
  (forall i, (i < n)%nat -> base_draw s1 i p = base_draw s2 i p) ->
  get_posterior_samples s1 p = get_posterior_samples s2 p.
Proof.
  intros H1 H2 H. unfold get_posterior_samples. rewrite H1, H2. f_equal.
  apply tabulate_ext. intros i Hi. rewrite numel_1 in Hi.
  rewrite H; [reflexivity|].
  apply Nat.Div0.div_lt_upper_bound. lia.
Qed.

Lemma fst_bind_lift_states {S A B} (r : result A) (k : A -> M S B) s1 s2 :
  (forall a, r = Ok a -> fst (k a s1) = fst (k a s2)) ->
  fst (bind (lift r) k s1) = fst (bind (lift r) k s2).
Proof. intros H. unfold bind, lift. destruct r; cbn [fst]; auto. Qed.

(** Two samplers that take [n] draws and agree on the draws [0 .. n-1]
    give the same outcome. *)
Lemma mc_forward_draws_ext (model : Model) (beta : Tensor) (w : list R)
    (s1 s2 : MCSampler) (n : nat) (X : Tensor) :
  sample_shape s1 = [n] -> sample_shape s2 = [n] ->
  (forall i p, (i < n)%nat -> base_draw s1 i p = base_draw s2 i p) ->
  fst (qSUCB.forward X (qSUCB.mkSelf model s1 beta w))
  = fst (qSUCB.forward X (qSUCB.mkSelf model s2 beta w)).
Proof.
  intros H1 H2 H.
  unfold qSUCB.forward, t_batch_mode_transform, average_over_ensemble_models.
  destruct (dim X <? 2)%nat; [reflexivity|].
  rewrite !bind_ret_r. unfold qSUCB.forward_body. rewrite !bind_attr.
  cbn [qSUCB.model qSUCB.sampler qSUCB.weights].
  rewrite (get_posterior_samples_ext s1 s2 _ n) by auto.
  apply fst_bind_lift_states; intros ss _.
  apply fst_bind_lift_states; intros sm _.
  rewrite !bind_attr. cbn [qSUCB.beta].
  repeat (apply fst_bind_lift_states; intros ? _).
  reflexivity.
Qed.

(** C9.  Constructed without a sampler, [qScalarizedUpperConfidenceBound]
    installs a Sobol quasi-Monte Carlo normal sampler with sample shape
    [512], and it is still in place after any number of evaluations.
    [forward] then works on exactly 512 posterior draws: it stacks the
    draws [0 .. 511] of the Sobol engine, its score is the average of their
    512 UCB values, and two engines that agree on these draws give the
    same outcome. *)
Theorem qSUCB_default_sampler (sobol_normal : nat -> Posterior -> list R)
    (model : Model) (beta : Tensor) (weights : list R) :
  let s := qSUCB.__init__ sobol_normal model beta weights None in
  (qSUCB.sampler s = qSUCB.SobolQMCNormalSampler sobol_normal [512%nat]
   /\ sampler_class (qSUCB.sampler s) = SobolQMCNormal
   /\ sample_shape (qSUCB.sampler s) = [512%nat])
  /\ (forall Xs, qSUCB.sampler (after_calls qSUCB.forward Xs s) = qSUCB.sampler s)
  /\ (forall p,
        shape (get_posterior_samples (qSUCB.sampler s) p) = 512%nat :: shape (mean p)
        /\ length (data (get_posterior_samples (qSUCB.sampler s) p))
           = (512 * numel (shape (mean p)))%nat)
  /\ (forall (X : Tensor) (bs : list nat) (q o : nat),
        let p := posterior model (with_t_batch X) in
        (2 <= dim X)%nat ->
        shape (mean p) = bs ++ [q; o] ->
        length weights = o ->
        q <> 0%nat ->
        numel (shape beta) = 1%nat ->
        0 <= get (data beta) 0 ->
        fst (qSUCB.forward X s)
        = Ok (mkTensor bs
                (tabulate (numel bs)
                   (fun j =>
                      sumn 512
                        (fun i =>
                           max_upto (q - 1)
                             (fun k =>
                                let m := scalarize weights (data (mean p)) (j * q + k) in
                                let d := scalarize weights (sobol_normal i p) (j * q + k) in
                                m + sqrt (get (data beta) 0 * PI / 2) * Rabs (d - m)))
                      / 512))))
  /\ (forall (other : nat -> Posterior -> list R) (X : Tensor),
        (forall i p, (i < 512)%nat -> other i p = sobol_normal i p) ->
        fst (qSUCB.forward X (qSUCB.__init__ other model beta weights None))
        = fst (qSUCB.forward X s)).
Proof.
  intros s. split; [repeat split|]. split; [|split; [|split]].
  - intros Xs. rewrite after_calls_keeps; [reflexivity | exact mc_forward_keeps].
  - intros p. split; [reflexivity|].
    unfold get_posterior_samples. cbn [data].
    rewrite tabulate_length. cbn [qSUCB.sampler s qSUCB.__init__ sample_shape
                                   qSUCB.SobolQMCNormalSampler].
    now rewrite numel_1.
  - intros X bs q o p Hd Hm Hw Hq Hb1 Hb0.
    rewrite (mc_forward_spec s X bs 512 q o);
      try assumption; try reflexivity; try discriminate.
    cbn [fst]. do 2 f_equal. apply tabulate_ext. intros j Hj.
    unfold mc_score, mc_ucb_sample.
    replace (INR 512) with 512 by (rewrite INR_IZR_INZ; reflexivity).
    reflexivity.
  - intros other X Hagree. unfold s, qSUCB.__init__.
    apply (mc_forward_draws_ext model beta weights _ _ 512%nat);
      [reflexivity | reflexivity |].
    intros i p Hi. cbn [base_draw qSUCB.SobolQMCNormalSampler]. now apply Hagree.
Qed.

Lemma qSUCB_default_sampler_example :
  sample_shape (qSUCB.sampler example_qSUCB) = [512%nat]
  /\ fst (qSUCB.forward example_X_q3 example_qSUCB)
     = Ok (mkTensor [1%nat]
             (tabulate 1
                (fun j =>
                   sumn 512
                     (fun i =>
                        max_upto 2
                          (fun k =>
                             let p := posterior example_model (with_t_batch example_X_q3) in
                             let m := scalarize example_weights (data (mean p)) (j * 3 + k) in
                             let d := scalarize example_weights (example_draw i p) (j * 3 + k) in
                             m + sqrt (0.1 * PI / 2) * Rabs (d - m)))
                   / 512))).
Proof.
  destruct (qSUCB_default_sampler example_draw example_model example_beta
              example_weights) as [[_ [_ Hshape]] [_ [_ [Hforward _]]]].
  split; [exact Hshape|].
  apply (Hforward example_X_q3 [1%nat] 3%nat 2%nat);
    [ cbn; lia | reflexivity | reflexivity | discriminate | reflexivity | cbn; lra ].
Defined.

(** C10.  When [beta] times the scalarized variance is non-negative, the
    analytic score with [maximize = True] lies above the scalarized mean
    and the score with [maximize = False] below it, at the same distance:
    the exploration term is non-negative, added in one case and
    subtracted in the other. *)
Theorem SUCB_forward_symmetric (model : Model) (beta : Tensor) (w : list R)
    (X : Tensor) (b d o : nat) :
  let p := posterior model (with_t_batch X) in
  shape (with_t_batch X) = [b; 1%nat; d] ->
  shape (mean p) = [b; 1%nat; o] ->
  shape (covariance_matrix p) = [b; o; o] ->
  length w = o ->
  o <> 0%nat ->
  expandable (rev (shape beta)) [b] = true ->
  (forall j, (j < b)%nat ->
     0 <= beta_entry beta j * quadratic_form w (data (covariance_matrix p)) j) ->
  exists upper lower,
    fst (SUCB.forward X (SUCB.__init__ model beta w true)) = Ok (mkTensor [b] upper)
    /\ fst (SUCB.forward X (SUCB.__init__ model beta w false)) = Ok (mkTensor [b] lower)
    /\ forall j, (j < b)%nat ->
         let m := scalarize w (data (mean p)) j in
         let delta := sqrt (beta_entry beta j
                            * quadratic_form w (data (covariance_matrix p)) j) in
         0 <= delta
         /\ get upper j = m + delta
         /\ get lower j = m - delta
         /\ get lower j <= m <= get upper j.
Proof.
  intros p HX Hm Hc Hw Ho Hb Hnn.
  rewrite (analytic_forward_spec (SUCB.__init__ model beta w true) X b d o),
          (analytic_forward_spec (SUCB.__init__ model beta w false) X b d o)
    by assumption.
  do 2 eexists. split; [reflexivity|]. split; [reflexivity|].
  intros j Hj m delta. rewrite !get_tabulate by assumption.
  cbn [SUCB.model SUCB.weights SUCB.beta SUCB.maximize SUCB.__init__].
  unfold analytic_score, analytic_delta. fold p. fold m. fold delta.
  assert (0 <= delta) by apply sqrt_pos.
  repeat split; lra.
Qed.

Lemma SUCB_forward_symmetric_example :
  exists upper lower,
    fst (SUCB.forward example_X (SUCB.__init__ example_model example_beta example_weights true))
    = Ok (mkTensor [1%nat] upper)
    /\ fst (SUCB.forward example_X
              (SUCB.__init__ example_model example_beta example_weights false))
       = Ok (mkTensor [1%nat] lower)
    /\ get lower 0 <= 1.1 <= get upper 0
    /\ get upper 0 - 1.1 = 1.1 - get lower 0.
Proof.
  destruct (SUCB_forward_symmetric example_model example_beta example_weights
              example_X 1 2 2) as [upper [lower [Hu [Hl H]]]];
    [ reflexivity | reflexivity | reflexivity | reflexivity
    | discriminate | reflexivity | | ].
  - intros j Hj. replace j with 0%nat by lia.
    rewrite example_quadratic_form by reflexivity.
    unfold beta_entry. cbn. lra.
  - exists upper, lower. split; [exact Hu|]. split; [exact Hl|].
    specialize (H 0%nat (Nat.lt_0_1)). cbv zeta in H.
    rewrite example_scalarized_mean in H.
    destruct H as [_ [Hup [Hlo Hord]]]. split; [exact Hord | lra].
Defined.

(** ** Further properties of the two methods *)

Lemma bind_lift_Raise {S A B} (r : result A) (e : exn) (k : A -> M S B) s :
  r = Raise e -> bind (lift r) k s = (Raise e, s).
Proof. intros ->. reflexivity. Qed.

Lemma bind_lift_NotReal {S A B} (r : result A) (k : A -> M S B) s :
  r = NotReal -> bind (lift r) k s = (NotReal, s).
Proof. intros ->. reflexivity. Qed.

Lemma matmul_mismatch lead o d w :
  o <> length w ->
  matmul (mkTensor (lead ++ [o]) d) w = Raise (RuntimeError "size mismatch").
Proof.
  intros Hw. unfold matmul. cbn [shape data].
  rewrite rev_app_distr. cbn [rev app].
  destruct (Nat.eqb_spec o (length w)); [contradiction | reflexivity].
Qed.

Lemma max_last_empty lead d :
  max_last (mkTensor (lead ++ [0%nat]) d)
  = Raise (IndexError "max(): Expected reduction dim to have non-zero size").
Proof.
  unfold max_last. cbn [shape]. rewrite rev_app_distr. reflexivity.
Qed.

(** The Monte Carlo body up to the reduction over the candidates. *)
Lemma mc_body_ucb (s : qSUCB.self) (X : Tensor) (bs : list nat) (q o : nat) :
  let p := posterior (qSUCB.model s) X in
  shape (mean p) = bs ++ [q; o] ->
  length (qSUCB.weights s) = o ->
  numel (shape (qSUCB.beta s)) = 1%nat ->
  0 <= get (data (qSUCB.beta s)) 0 ->
  exists d,
    qSUCB.forward_body X s =
    bind (lift (max_last
                  (mkTensor ((sample_shape (qSUCB.sampler s) ++ bs) ++ [q]) d)))
         (fun maxima => lift (mean_first maxima)) s.
Proof.
  intros p Hm Hw Hb1 Hb0.
  destruct s as [mdl smp bt w]. cbn [qSUCB.model qSUCB.weights qSUCB.beta qSUCB.sampler] in *.
  unfold qSUCB.forward_body.
  rewrite !bind_attr. cbn [qSUCB.model qSUCB.weights qSUCB.beta qSUCB.sampler]. fold p.
  unfold get_posterior_samples. rewrite Hm.
  destruct (mean p) as [msh md] eqn:Emean. cbn [shape data] in Hm |- *. subst msh.
  set (ss := sample_shape smp).
  replace (ss ++ bs ++ [q; o]) with ((ss ++ bs ++ [q]) ++ [o])
    by (now rewrite <- !app_assoc).
  erewrite bind_lift_Ok by (apply matmul_rows; exact Hw).
  replace (bs ++ [q; o]) with ((bs ++ [q]) ++ [o]) by now rewrite <- app_assoc.
  erewrite bind_lift_Ok by (apply matmul_rows; exact Hw).
  rewrite bind_attr. cbn [qSUCB.beta].
  erewrite bind_lift_Ok by (apply to_float_scaled; exact Hb1).
  assert (Hpi : 0 <= get (data bt) 0 * PI / 2).
  { pose proof PI_RGT_0. apply Rmult_le_pos; [apply Rmult_le_pos|]; lra. }
  erewrite bind_lift_Ok by (apply math_sqrt_nonneg; exact Hpi).
  unfold tsub. erewrite bind_lift_Ok by apply binop_lead.
  unfold tabs, scale. rewrite !tmap_tabulate.
  unfold tadd. erewrite bind_lift_Ok by apply binop_lead_r.
  rewrite (app_assoc ss bs [q]). eexists. reflexivity.
Qed.

(** *** Errors of the Monte Carlo score *)

(** X1.  A weight vector whose length is not the number of outputs of the model
    makes the Monte Carlo [forward] raise a RuntimeError, at the first
    [matmul]; no score is returned. *)
Theorem mc_rejects_weights_length (s : qSUCB.self) (X : Tensor)
    (lead : list nat) (o : nat) :
  (2 <= dim X)%nat ->
  shape (mean (posterior (qSUCB.model s) (with_t_batch X))) = lead ++ [o] ->
  o <> length (qSUCB.weights s) ->
  exists msg, qSUCB.forward X s = (Raise (RuntimeError msg), s).
Proof.
  intros Hd Hm Hw. unfold qSUCB.forward.
  rewrite decorated_run by (assumption || exact I).
  unfold qSUCB.forward_body. rewrite !bind_attr.
  unfold get_posterior_samples. rewrite Hm, app_assoc.
  eexists. apply bind_lift_Raise. now apply matmul_mismatch.
Qed.

Lemma mc_rejects_weights_length_example :
  exists msg,
    qSUCB.forward example_X_q3
      (qSUCB.__init__ example_draw example_model example_beta [0.1; 0.5; 0.4] None)
    = (Raise (RuntimeError msg),
       qSUCB.__init__ example_draw example_model example_beta [0.1; 0.5; 0.4] None).
Proof.
  apply (mc_rejects_weights_length _ example_X_q3 [1; 3]%nat 2);
    [cbn; lia | reflexivity | discriminate].
Defined.

(** X2.  The Monte Carlo [forward] takes [math.sqrt] of [beta], so a [beta]
    with more than one entry (or none) makes it raise a ValueError, although
    the shapes of posterior and weights fit. *)
Theorem mc_rejects_vector_beta (s : qSUCB.self) (X : Tensor)
    (lead : list nat) (o : nat) :
  (2 <= dim X)%nat ->
  shape (mean (posterior (qSUCB.model s) (with_t_batch X))) = lead ++ [o] ->
  length (qSUCB.weights s) = o ->
  numel (shape (qSUCB.beta s)) <> 1%nat ->
  exists msg, qSUCB.forward X s = (Raise (ValueError msg), s).
Proof.
  intros Hd Hm Hw Hb. unfold qSUCB.forward.
  rewrite decorated_run by (assumption || exact I).
  unfold qSUCB.forward_body. rewrite !bind_attr.
  unfold get_posterior_samples. rewrite Hm.
  destruct (mean (posterior (qSUCB.model s) (with_t_batch X))) as [msh md] eqn:Emean.
  cbn [shape data] in Hm |- *. subst msh.
  rewrite app_assoc.
  erewrite bind_lift_Ok by (apply matmul_rows; exact Hw).
  erewrite bind_lift_Ok by (apply matmul_rows; exact Hw).
  rewrite bind_attr.
  eexists. apply bind_lift_Raise.
  unfold to_float, tmap. cbn [shape].
  destruct (Nat.eqb_spec (numel (shape (qSUCB.beta s))) 1); [contradiction | reflexivity].
Qed.

Lemma mc_rejects_vector_beta_example :
  exists msg,
    qSUCB.forward example_X_q3
      (qSUCB.__init__ example_draw example_model (mkTensor [2%nat] [0.1; 0.2])
         example_weights None)
    = (Raise (ValueError msg),
       qSUCB.__init__ example_draw example_model (mkTensor [2%nat] [0.1; 0.2])
         example_weights None).
Proof.
  apply (mc_rejects_vector_beta _ example_X_q3 [1; 3]%nat 2);
    [cbn; lia | reflexivity | reflexivity | discriminate].
Defined.

(** X3.  A negative [beta] makes the Monte Carlo [forward] raise the ValueError
    of [math.sqrt], "math domain error". *)
Theorem mc_rejects_negative_beta (s : qSUCB.self) (X : Tensor)
    (lead : list nat) (o : nat) :
  (2 <= dim X)%nat ->
  shape (mean (posterior (qSUCB.model s) (with_t_batch X))) = lead ++ [o] ->
  length (qSUCB.weights s) = o ->
  numel (shape (qSUCB.beta s)) = 1%nat ->
  get (data (qSUCB.beta s)) 0 < 0 ->
  qSUCB.forward X s = (Raise math_domain_error, s).
Proof.
  intros Hd Hm Hw Hb1 Hneg. unfold qSUCB.forward.
  rewrite decorated_run by (assumption || exact I).
  unfold qSUCB.forward_body. rewrite !bind_attr.
  unfold get_posterior_samples. rewrite Hm.
  destruct (mean (posterior (qSUCB.model s) (with_t_batch X))) as [msh md] eqn:Emean.
  cbn [shape data] in Hm |- *. subst msh.
  rewrite app_assoc.
  erewrite bind_lift_Ok by (apply matmul_rows; exact Hw).
  erewrite bind_lift_Ok by (apply matmul_rows; exact Hw).
  rewrite bind_attr.
  erewrite bind_lift_Ok by (apply to_float_scaled; exact Hb1).
  apply bind_lift_Raise. apply math_sqrt_domain.
  pose proof PI_RGT_0. nra.
Qed.

Lemma mc_rejects_negative_beta_example :
  qSUCB.forward example_X_q3
    (qSUCB.__init__ example_draw example_model (as_tensor (-0.1)) example_weights None)
  = (Raise math_domain_error,
     qSUCB.__init__ example_draw example_model (as_tensor (-0.1)) example_weights None).
Proof.
  apply (mc_rejects_negative_beta _ example_X_q3 [1; 3]%nat 2);
    [cbn; lia | reflexivity | reflexivity | reflexivity | cbn; lra].
Defined.

(** X4.  A q-batch without candidates ([q = 0]) makes the Monte Carlo [forward]
    raise an IndexError: the maximum over the candidates has nothing to
    range over. *)
Theorem mc_rejects_empty_q_batch (s : qSUCB.self) (X : Tensor)
    (bs : list nat) (o : nat) :
  (2 <= dim X)%nat ->
  shape (mean (posterior (qSUCB.model s) (with_t_batch X))) = bs ++ [0%nat; o] ->
  length (qSUCB.weights s) = o ->
  numel (shape (qSUCB.beta s)) = 1%nat ->
  0 <= get (data (qSUCB.beta s)) 0 ->
  exists msg, qSUCB.forward X s = (Raise (IndexError msg), s).
Proof.
  intros Hd Hm Hw Hb1 Hb0. unfold qSUCB.forward.
  rewrite decorated_run by (assumption || exact I).
  destruct (mc_body_ucb s (with_t_batch X) bs 0 o Hm Hw Hb1 Hb0) as [d ->].
  eexists. apply bind_lift_Raise. apply max_last_empty.
Qed.

Lemma mc_rejects_empty_q_batch_example :
  exists msg,
    qSUCB.forward example_X_q0 example_qSUCB = (Raise (IndexError msg), example_qSUCB).
Proof.
  apply (mc_rejects_empty_q_batch example_qSUCB example_X_q0 [1%nat] 2);
    [cbn; lia | reflexivity | reflexivity | reflexivity | cbn; lra].
Defined.

(** *** Errors of the analytic score *)

Lemma squeeze_m2_tail lead o d :
  squeeze_m2 (mkTensor (lead ++ [1%nat; o]) d) = Ok (mkTensor (lead ++ [o]) d).
Proof.
  unfold squeeze_m2, dim, dim_m2, drop_last2. cbn [shape data].
  rewrite length_app. cbn [length].
  destruct (Nat.ltb_spec (length lead + 2) 2) as [|_]; [lia|].
  replace (length lead + 2 - 2)%nat with (length lead) by lia.
  rewrite app_nth2, Nat.sub_diag by lia. cbn [nth Nat.eqb].
  rewrite firstn_app, Nat.sub_diag, firstn_all. cbn [firstn]. rewrite app_nil_r.
  replace (lead ++ [1%nat; o]) with ((lead ++ [1%nat]) ++ [o]) at 1
    by now rewrite <- app_assoc.
  now rewrite last_last.
Qed.

(** The analytic body up to the use of [beta]: the scalarized mean and the
    scalarized variance are computed. *)
Lemma analytic_body_to_beta (s : SUCB.self) (X : Tensor) (b d o : nat) :
  let p := posterior (SUCB.model s) X in
  shape X = [b; 1%nat; d] ->
  shape (mean p) = [b; 1%nat; o] ->
  shape (covariance_matrix p) = [b; o; o] ->
  length (SUCB.weights s) = o ->
  o <> 0%nat ->
  SUCB.forward_body X s =
  (let scalarized_mean :=
     mkTensor [b]
       (tabulate b (fun i => sumn o (fun a => get (data (mean p)) (i * o + a)
                                              * get (SUCB.weights s) a))) in
   let scalarized_variance :=
     mkTensor [b]
       (tabulate b (quadratic_form (SUCB.weights s) (data (covariance_matrix p)))) in
   beta_expanded <- lift (expand_as (SUCB.beta s) scalarized_mean) ;;
   product <- lift (tmul beta_expanded scalarized_variance) ;;
   delta <- lift (tsqrt product) ;;
   maximize_ <- attr SUCB.maximize ;;
   if maximize_ : bool
   then lift (tadd scalarized_mean delta)
   else lift (tsub scalarized_mean delta))%method s.
Proof.
  intros p HX Hm Hc Hw Ho.
  destruct s as [mdl mx bt w]. cbn [SUCB.model SUCB.weights SUCB.beta SUCB.maximize] in *.
  unfold SUCB.forward_body, SUCB.forward_body_at.
  rewrite bind_attr, bind_assign, bind_attr. unfold SUCB.set_beta, SUCB.to.
  cbn [SUCB.model SUCB.weights SUCB.beta SUCB.maximize].
  fold p. destruct (mean p) as [msh md] eqn:Emean.
  destruct (covariance_matrix p) as [csh cd] eqn:Ecov.
  cbn [shape data] in *. subst msh csh. rewrite HX.
  erewrite bind_lift_Ok by reflexivity.
  rewrite bind_attr. cbn [SUCB.weights].
  change [b; o] with ([b] ++ [o]).
  erewrite bind_lift_Ok by (apply matmul_rows; exact Hw).
  assert (Hview : view_1_m1_1 w = Ok (mkTensor [1; o; 1]%nat w)).
  { unfold view_1_m1_1. now rewrite Hw. }
  erewrite bind_lift_Ok by exact Hview.
  cbn [drop_last2 length Nat.sub firstn shape tl app].
  erewrite bind_lift_Ok by apply expand_weights.
  erewrite bind_lift_Ok by apply permute_column.
  erewrite bind_lift_Ok by apply bmm_column.
  erewrite bind_lift_Ok by apply bmm_row.
  erewrite bind_lift_Ok by apply view_batch.
  rewrite bind_attr. cbn [SUCB.beta last].
  rewrite numel_1, (variance_rows b o w cd Hw). reflexivity.
Qed.

(** X5.  A weight vector whose length is not the number of outputs of the model
    makes the analytic [forward] raise a RuntimeError as well. *)
Theorem analytic_rejects_weights_length (s : SUCB.self) (X : Tensor)
    (lead : list nat) (o : nat) :
  (2 <= dim X)%nat ->
  dim_m2 (shape X) = 1%nat ->
  shape (mean (posterior (SUCB.model s) (with_t_batch X))) = lead ++ [1%nat; o] ->
  o <> length (SUCB.weights s) ->
  exists msg, SUCB.forward X s = (Raise (RuntimeError msg), s).
Proof.
  intros Hd Hq Hm Hw. unfold SUCB.forward.
  rewrite decorated_run by assumption.
  unfold SUCB.forward_body, SUCB.forward_body_at.
  rewrite bind_attr, bind_assign, set_beta_to, bind_attr.
  destruct (mean (posterior (SUCB.model s) (with_t_batch X))) as [msh md] eqn:Emean.
  cbn [shape] in Hm. subst msh.
  erewrite bind_lift_Ok by apply squeeze_m2_tail.
  rewrite bind_attr.
  eexists. apply bind_lift_Raise. now apply matmul_mismatch.
Qed.

Lemma analytic_rejects_weights_length_example :
  exists msg,
    SUCB.forward example_X
      (SUCB.__init__ example_model example_beta [0.1; 0.5; 0.4] true)
    = (Raise (RuntimeError msg),
       SUCB.__init__ example_model example_beta [0.1; 0.5; 0.4] true).
Proof.
  apply (analytic_rejects_weights_length _ example_X [1%nat] 2);
    [cbn; lia | reflexivity | reflexivity | discriminate].
Defined.

Lemma permute_rank t :
  length (shape t) <> 3%nat ->
  permute_0_2_1 t = Raise (RuntimeError "permute: number of dimensions does not match").
Proof.
  unfold permute_0_2_1. intros H.
  destruct (shape t) as [|b [|r [|c [|x l]]]]; cbn [length] in H; try reflexivity; lia.
Qed.

Lemma expand_weights_batches bs o w :
  bs <> [] ->
  exists d, expand (mkTensor [1; o; 1]%nat w) (bs ++ [o; 1%nat])
            = Ok (mkTensor (bs ++ [o; 1%nat]) d).
Proof.
  intros Hbs. unfold expand. cbn [shape data].
  rewrite rev_app_distr. cbn [rev app expandable].
  rewrite !Nat.eqb_refl. cbn [orb andb].
  destruct (rev bs) as [|x r] eqn:Er.
  - apply (f_equal (@rev nat)) in Er. rewrite rev_involutive in Er. contradiction.
  - cbn [expandable]. rewrite orb_true_r. cbn [andb]. eexists. reflexivity.
Qed.

(** X6.  The analytic [forward] works with one t-batch dimension only (the
    source says "assume single batch dimension"): an input with two or more
    t-batch dimensions makes it raise a RuntimeError, at the [permute] of
    the expanded weights. *)
Theorem analytic_rejects_batch_dimensions (s : SUCB.self) (X : Tensor)
    (bs : list nat) (d o : nat) :
  (2 <= length bs)%nat ->
  shape (with_t_batch X) = bs ++ [1%nat; d] ->
  shape (mean (posterior (SUCB.model s) (with_t_batch X))) = bs ++ [1%nat; o] ->
  length (SUCB.weights s) = o ->
  o <> 0%nat ->
  exists msg, SUCB.forward X s = (Raise (RuntimeError msg), s).
Proof.
  intros Hbs HX Hm Hw Ho.
  destruct (with_t_batch_dims X _ HX) as [Hd Hq].
  { rewrite length_app. cbn [length]. lia. }
  assert (Hq1 : dim_m2 (shape X) = 1%nat).
  { rewrite Hq. unfold dim_m2. rewrite length_app. cbn [length].
    replace (length bs + 2 - 2)%nat with (length bs) by lia.
    now rewrite app_nth2, Nat.sub_diag by lia. }
  unfold SUCB.forward. rewrite decorated_run by assumption.
  unfold SUCB.forward_body, SUCB.forward_body_at.
  rewrite bind_attr, bind_assign, set_beta_to, bind_attr.
  destruct (mean (posterior (SUCB.model s) (with_t_batch X))) as [msh md] eqn:Emean.
  cbn [shape] in Hm. subst msh.
  erewrite bind_lift_Ok by apply squeeze_m2_tail.
  rewrite bind_attr.
  erewrite bind_lift_Ok by (apply matmul_rows; exact Hw).
  assert (Hview : view_1_m1_1 (SUCB.weights s)
                  = Ok (mkTensor [1; o; 1]%nat (SUCB.weights s))).
  { unfold view_1_m1_1. rewrite Hw.
    destruct (SUCB.weights s); [simpl in Hw; congruence | reflexivity]. }
  erewrite bind_lift_Ok by exact Hview.
  cbn [shape tl]. rewrite HX.
  assert (Hdrop : drop_last2 (bs ++ [1%nat; d]) = bs).
  { unfold drop_last2. rewrite length_app. cbn [length].
    replace (length bs + 2 - 2)%nat with (length bs) by lia.
    rewrite firstn_app, Nat.sub_diag, firstn_all. cbn [firstn]. apply app_nil_r. }
  rewrite Hdrop.
  destruct (expand_weights_batches bs o (SUCB.weights s)) as [dw Hexp].
  { destruct bs; [cbn in Hbs; lia | discriminate]. }
  erewrite bind_lift_Ok by exact Hexp.
  eexists. apply bind_lift_Raise. apply permute_rank.
  cbn [shape]. rewrite length_app. cbn [length]. lia.
Qed.

Lemma analytic_rejects_batch_dimensions_example :
  exists msg,
    SUCB.forward example_X_two_batch_dims example_SUCB
    = (Raise (RuntimeError msg), example_SUCB).
Proof.
  apply (analytic_rejects_batch_dimensions example_SUCB example_X_two_batch_dims
           [2; 3]%nat 2 2);
    [cbn; lia | reflexivity | reflexivity | reflexivity | discriminate].
Defined.

(** X7.  A [beta] with [k] entries, [k] neither 1 nor the number of t-batch
    elements, makes the analytic [forward] raise a RuntimeError, at
    [expand_as]. *)
Theorem analytic_rejects_beta_length (s : SUCB.self) (X : Tensor) (b d o k : nat) :
  let p := posterior (SUCB.model s) (with_t_batch X) in
  shape (with_t_batch X) = [b; 1%nat; d] ->
  shape (mean p) = [b; 1%nat; o] ->
  shape (covariance_matrix p) = [b; o; o] ->
  length (SUCB.weights s) = o ->
  o <> 0%nat ->
  shape (SUCB.beta s) = [k] ->
  k <> 1%nat ->
  k <> b ->
  exists msg, SUCB.forward X s = (Raise (RuntimeError msg), s).
Proof.
  intros p HX Hm Hc Hw Ho Hb Hk1 Hkb.
  destruct (with_t_batch_dims X _ HX) as [Hd Hq]; [cbn; lia|].
  unfold SUCB.forward. rewrite decorated_run by assumption.
  rewrite (analytic_body_to_beta s (with_t_batch X) b d o) by assumption.
  cbv zeta. eexists. apply bind_lift_Raise.
  unfold expand_as, expand. cbn [shape]. rewrite Hb. cbn [rev app expandable].
  destruct (Nat.eqb_spec k b); [contradiction|].
  destruct (Nat.eqb_spec k 1); [contradiction | reflexivity].
Qed.

Lemma analytic_rejects_beta_length_example :
  exists msg,
    SUCB.forward example_X_b2
      (SUCB.__init__ example_model (mkTensor [3%nat] [0.1; 0.2; 0.3])
         example_weights true)
    = (Raise (RuntimeError msg),
       SUCB.__init__ example_model (mkTensor [3%nat] [0.1; 0.2; 0.3])
         example_weights true).
Proof.
  apply (analytic_rejects_beta_length _ example_X_b2 2 2 2 3);
    [reflexivity | reflexivity | reflexivity | reflexivity
    | discriminate | reflexivity | discriminate | discriminate].
Defined.

(** X8.  Where [beta] times the scalarized variance is negative at some t-batch
    element, the analytic [forward] raises nothing: it returns a tensor
    with a NaN entry (the Monte Carlo [forward] raises for a negative
    [beta]). *)
Theorem analytic_nan_on_negative_product (s : SUCB.self) (X : Tensor)
    (b d o j : nat) :
  let p := posterior (SUCB.model s) (with_t_batch X) in
  shape (with_t_batch X) = [b; 1%nat; d] ->
  shape (mean p) = [b; 1%nat; o] ->
  shape (covariance_matrix p) = [b; o; o] ->
  length (SUCB.weights s) = o ->
  o <> 0%nat ->
  expandable (rev (shape (SUCB.beta s))) [b] = true ->
  (j < b)%nat ->
  beta_entry (SUCB.beta s) j
  * quadratic_form (SUCB.weights s) (data (covariance_matrix p)) j < 0 ->
  SUCB.forward X s = (NotReal, s).
Proof.
  intros p HX Hm Hc Hw Ho Hb Hj Hneg.
  destruct (with_t_batch_dims X _ HX) as [Hd Hq]; [cbn; lia|].
  unfold SUCB.forward. rewrite decorated_run by assumption.
  rewrite (analytic_body_to_beta s (with_t_batch X) b d o) by assumption.
  cbv zeta. fold p.
  erewrite bind_lift_Ok
    by (unfold expand_as, expand; cbn [shape rev app]; rewrite Hb; reflexivity).
  rewrite numel_1. unfold tmul.
  erewrite bind_lift_Ok by apply binop_same.
  rewrite numel_1.
  apply bind_lift_NotReal. apply tsqrt_NotReal. cbn [data].
  exists (beta_entry (SUCB.beta s) j
          * quadratic_form (SUCB.weights s) (data (covariance_matrix p)) j).
  split; [|exact Hneg].
  unfold tabulate. apply in_map_iff. exists j. split.
  - fold (tabulate b (bread [b] (SUCB.beta s))).
    fold (tabulate b (quadratic_form (SUCB.weights s) (data (covariance_matrix p)))).
    rewrite !get_tabulate by assumption. now rewrite bread_beta.
  - apply in_seq. lia.
Qed.

Lemma analytic_nan_on_negative_product_example :
  SUCB.forward example_X
    (SUCB.__init__ example_model (as_tensor (-0.1)) example_weights true)
  = (NotReal, SUCB.__init__ example_model (as_tensor (-0.1)) example_weights true).
Proof.
  apply (analytic_nan_on_negative_product _ example_X 1 2 2 0);
    [reflexivity | reflexivity | reflexivity | reflexivity
    | discriminate | reflexivity | lia | ].
  cbn [SUCB.model SUCB.weights SUCB.beta SUCB.__init__].
  rewrite example_quadratic_form by reflexivity.
  unfold beta_entry. cbn. lra.
Defined.

(** *** Order and scaling of the Monte Carlo score *)

Lemma sumn_le n f g :
  (forall i, (i < n)%nat -> f i <= g i) -> sumn n f <= sumn n g.
Proof.
  induction n as [|n IH]; intros H; simpl; [lra|].
  assert (sumn n f <= sumn n g) by (apply IH; intros; apply H; lia).
  assert (f n <= g n) by (apply H; lia). lra.
Qed.

Lemma max_upto_ge k f i : (i <= k)%nat -> f i <= max_upto k f.
Proof.
  induction k as [|k IH]; intros Hi; simpl.
  - replace i with 0%nat by lia. lra.
  - destruct (Nat.eq_dec i (S k)) as [->|Hne].
    + apply Rmax_r.
    + eapply Rle_trans; [apply IH; lia | apply Rmax_l].
Qed.

Lemma max_upto_le k f g :
  (forall i, (i <= k)%nat -> f i <= g i) -> max_upto k f <= max_upto k g.
Proof.
  induction k as [|k IH]; intros H; simpl.
  - apply H. lia.
  - eapply Rle_trans.
    + apply Rle_max_compat_r. apply IH. intros; apply H; lia.
    + apply Rle_max_compat_l. apply H. lia.
Qed.

Lemma max_upto_scal k c f :
  0 <= c -> max_upto k (fun i => c * f i) = c * max_upto k f.
Proof.
  intros Hc. induction k as [|k IH]; simpl; [reflexivity|].
  rewrite IH. now rewrite RmaxRmult.
Qed.

Lemma average_ge n c f :
  n <> 0%nat -> (forall i, (i < n)%nat -> c <= f i) -> c <= sumn n f / INR n.
Proof.
  intros Hn H.
  assert (Hpos : 0 < INR n) by (apply lt_0_INR; lia).
  assert (Hs : INR n * c <= sumn n f).
  { rewrite <- sumn_const. now apply sumn_le. }
  apply (Rmult_le_reg_l (INR n)); [assumption|].
  replace (INR n * (sumn n f / INR n)) with (sumn n f) by (field; lra).
  exact Hs.
Qed.

Lemma average_le n f g :
  n <> 0%nat -> (forall i, (i < n)%nat -> f i <= g i) ->
  sumn n f / INR n <= sumn n g / INR n.
Proof.
  intros Hn H.
  assert (Hpos : 0 < / INR n) by (apply Rinv_0_lt_compat, lt_0_INR; lia).
  apply Rmult_le_compat_r; [lra | now apply sumn_le].
Qed.

(** X9.  An upper confidence bound lies above the mean: every Monte Carlo score
    is at least the scalarized posterior mean of each candidate of its
    q-batch, whatever the draws are. *)
Theorem mc_score_above_means (s : qSUCB.self) (X : Tensor) (bs : list nat)
    (n q o : nat) :
  let p := posterior (qSUCB.model s) (with_t_batch X) in
  (2 <= dim X)%nat ->
  shape (mean p) = bs ++ [q; o] ->
  length (qSUCB.weights s) = o ->
  sample_shape (qSUCB.sampler s) = [n] ->
  n <> 0%nat ->
  q <> 0%nat ->
  numel (shape (qSUCB.beta s)) = 1%nat ->
  0 <= get (data (qSUCB.beta s)) 0 ->
  exists out,
    fst (qSUCB.forward X s) = Ok (mkTensor bs out)
    /\ forall j k, (j < numel bs)%nat -> (k < q)%nat ->
         scalarize (qSUCB.weights s) (data (mean p)) (j * q + k) <= get out j.
Proof.
  intros p Hd Hm Hw Hn Hn0 Hq0 Hb1 Hb0.
  rewrite (mc_forward_spec s X bs n q o) by assumption.
  eexists. split; [reflexivity|].
  intros j k Hj Hk. rewrite get_tabulate by assumption.
  unfold mc_score. apply average_ge; [assumption|]. intros i _.
  eapply Rle_trans; [|apply (max_upto_ge (q - 1) _ k); lia].
  unfold mc_ucb_sample. fold p.
  pose proof (sqrt_pos (get (data (qSUCB.beta s)) 0 * PI / 2)) as Hs.
  match goal with |- _ <= _ + _ * Rabs ?x => pose proof (Rabs_pos x) as Ha end.
  nra.
Qed.

Lemma mc_score_above_means_example :
  exists out,
    fst (qSUCB.forward example_X_q3 example_qSUCB) = Ok (mkTensor [1%nat] out)
    /\ 1.1 <= get out 0.
Proof.
  destruct (mc_score_above_means example_qSUCB example_X_q3 [1%nat] 512 3 2)
    as [out [Hout H]];
    [ cbn; lia | reflexivity | reflexivity | reflexivity
    | discriminate | discriminate | reflexivity | cbn; lra | ].
  exists out. split; [exact Hout|].
  specialize (H 0%nat 0%nat). cbn [numel fold_right Nat.mul Nat.add] in H.
  assert (Hm : scalarize example_weights
                 (data (mean (posterior example_model (with_t_batch example_X_q3)))) 0
               = 1.1).
  { unfold scalarize. cbn. unfold get. cbn. lra. }
  cbn [qSUCB.weights qSUCB.model example_qSUCB qSUCB.__init__] in H.
  rewrite Hm in H. apply H; lia.
Defined.

(** X10.  The score of a q-batch is at least what any one of its candidates
    earns on the same draws: the average over the draws of that
    candidate's UCB values. *)
Theorem mc_score_above_candidate_average (s : qSUCB.self) (X : Tensor)
    (bs : list nat) (n q o : nat) :
  let p := posterior (qSUCB.model s) (with_t_batch X) in
  (2 <= dim X)%nat ->
  shape (mean p) = bs ++ [q; o] ->
  length (qSUCB.weights s) = o ->
  sample_shape (qSUCB.sampler s) = [n] ->
  n <> 0%nat ->
  q <> 0%nat ->
  numel (shape (qSUCB.beta s)) = 1%nat ->
  0 <= get (data (qSUCB.beta s)) 0 ->
  exists out,
    fst (qSUCB.forward X s) = Ok (mkTensor bs out)
    /\ forall j k, (j < numel bs)%nat -> (k < q)%nat ->
         sumn n (fun i =>
           let m := scalarize (qSUCB.weights s) (data (mean p)) (j * q + k) in
           let d := scalarize (qSUCB.weights s) (base_draw (qSUCB.sampler s) i p)
                      (j * q + k) in
           m + sqrt (get (data (qSUCB.beta s)) 0 * PI / 2) * Rabs (d - m)) / INR n
         <= get out j.
Proof.
  intros p Hd Hm Hw Hn Hn0 Hq0 Hb1 Hb0.
  rewrite (mc_forward_spec s X bs n q o) by assumption.
  eexists. split; [reflexivity|].
  intros j k Hj Hk. rewrite get_tabulate by assumption.
  unfold mc_score. apply average_le; [assumption|]. intros i _.
  apply (max_upto_ge (q - 1)
           (mc_ucb_sample (qSUCB.weights s) (get (data (qSUCB.beta s)) 0)
              (qSUCB.sampler s) (posterior (qSUCB.model s) (with_t_batch X)) q i j) k).
  lia.
Qed.

Lemma mc_score_above_candidate_average_example :
  exists out,
    fst (qSUCB.forward example_X_q3 example_qSUCB) = Ok (mkTensor [1%nat] out)
    /\ sumn 512 (fun i => 1.1 + sqrt (0.1 * PI / 2) * Rabs (1.1 + 0.6 * INR i - 1.1))
       / INR 512 <= get out 0.
Proof.
  destruct (mc_score_above_candidate_average example_qSUCB example_X_q3 [1%nat] 512 3 2)
    as [out [Hout H]];
    [ cbn; lia | reflexivity | reflexivity | reflexivity
    | discriminate | discriminate | reflexivity | cbn; lra | ].
  exists out. split; [exact Hout|].
  specialize (H 0%nat 0%nat). cbn [numel fold_right Nat.mul Nat.add] in H.
  assert (Hm : scalarize example_weights
                 (data (mean (posterior example_model (with_t_batch example_X_q3)))) 0
               = 1.1).
  { unfold scalarize. cbn. unfold get. cbn. lra. }
  assert (Hs : forall i,
            scalarize example_weights
              (example_draw i (posterior example_model (with_t_batch example_X_q3))) 0
            = 1.1 + 0.6 * INR i).
  { intros i. unfold scalarize. cbn. unfold get. cbn. lra. }
  cbv zeta in H.
  cbn [qSUCB.weights qSUCB.model qSUCB.sampler qSUCB.beta example_qSUCB qSUCB.__init__
       qSUCB.SobolQMCNormalSampler base_draw example_beta as_tensor data] in H.
  rewrite Hm in H.
  rewrite (sumn_ext 512 _
             (fun i => 1.1 + sqrt (0.1 * PI / 2) * Rabs (1.1 + 0.6 * INR i - 1.1))) in H
    by (intros i _; now rewrite Hs).
  apply H; lia.
Defined.

(** X11.  With [beta = 0] the Monte Carlo score does not depend on the draws: it
    is the largest scalarized posterior mean among the [q] candidates. *)
Theorem mc_score_at_beta_zero (s : qSUCB.self) (X : Tensor) (bs : list nat)
    (n q o : nat) :
  let p := posterior (qSUCB.model s) (with_t_batch X) in
  (2 <= dim X)%nat ->
  shape (mean p) = bs ++ [q; o] ->
  length (qSUCB.weights s) = o ->
  sample_shape (qSUCB.sampler s) = [n] ->
  n <> 0%nat ->
  q <> 0%nat ->
  numel (shape (qSUCB.beta s)) = 1%nat ->
  get (data (qSUCB.beta s)) 0 = 0 ->
  fst (qSUCB.forward X s) =
  Ok (mkTensor bs
        (tabulate (numel bs)
           (fun j => max_upto (q - 1)
                       (fun k => scalarize (qSUCB.weights s) (data (mean p))
                                   (j * q + k))))).
Proof.
  intros p Hd Hm Hw Hn Hn0 Hq0 Hb1 Hb0.
  rewrite (mc_forward_spec s X bs n q o) by (assumption || lra).
  cbn [fst]. do 2 f_equal. apply tabulate_ext. intros j Hj.
  unfold mc_score. fold p.
  rewrite (sumn_ext _ _
             (fun _ => max_upto (q - 1)
                         (fun k => scalarize (qSUCB.weights s) (data (mean p))
                                     (j * q + k)))).
  - rewrite sumn_const. field. apply not_0_INR. assumption.
  - intros i _. apply max_upto_ext. intros k _.
    unfold mc_ucb_sample. rewrite Hb0.
    replace (0 * PI / 2) with 0 by lra. rewrite sqrt_0. lra.
Qed.

Lemma mc_score_at_beta_zero_example :
  fst (qSUCB.forward example_X_q3
         (qSUCB.__init__ example_draw example_model (as_tensor 0) example_weights None))
  = Ok (mkTensor [1%nat] [1.1]).
Proof.
  rewrite (mc_score_at_beta_zero _ example_X_q3 [1%nat] 512 3 2);
    [ | cbn; lia | reflexivity | reflexivity | reflexivity
      | discriminate | discriminate | reflexivity | reflexivity ].
  cbn [numel fold_right Nat.mul tabulate seq map Nat.add Nat.sub
       qSUCB.weights qSUCB.model qSUCB.__init__].
  assert (Hm : forall r, (r < 3)%nat ->
            scalarize example_weights
              (data (mean (posterior example_model (with_t_batch example_X_q3)))) r = 1.1).
  { intros r Hr. destruct r as [|[|[|r]]]; try lia;
      unfold scalarize; cbn; unfold get; cbn; lra. }
  rewrite (max_upto_ext 2 _ (fun _ => 1.1)) by (intros k Hk; apply Hm; lia).
  cbn [max_upto]. now rewrite !(Rmax_left 1.1 1.1) by lra.
Defined.

(** X12.  More exploration never lowers the Monte Carlo score: it is
    non-decreasing in [beta], entry by entry. *)
Theorem mc_score_monotone_in_beta (model : Model) (sampler : MCSampler)
    (beta1 beta2 : Tensor) (w : list R) (X : Tensor) (bs : list nat)
    (n q o : nat) :
  let p := posterior model (with_t_batch X) in
  (2 <= dim X)%nat ->
  shape (mean p) = bs ++ [q; o] ->
  length w = o ->
  sample_shape sampler = [n] ->
  n <> 0%nat ->
  q <> 0%nat ->
  numel (shape beta1) = 1%nat ->
  numel (shape beta2) = 1%nat ->
  0 <= get (data beta1) 0 <= get (data beta2) 0 ->
  exists out1 out2,
    fst (qSUCB.forward X (qSUCB.mkSelf model sampler beta1 w)) = Ok (mkTensor bs out1)
    /\ fst (qSUCB.forward X (qSUCB.mkSelf model sampler beta2 w)) = Ok (mkTensor bs out2)
    /\ forall j, (j < numel bs)%nat -> get out1 j <= get out2 j.
Proof.
  intros p Hd Hm Hw Hn Hn0 Hq0 Hb1 Hb2 [H0 H12].
  rewrite (mc_forward_spec (qSUCB.mkSelf model sampler beta1 w) X bs n q o),
          (mc_forward_spec (qSUCB.mkSelf model sampler beta2 w) X bs n q o)
    by (assumption || (cbn [qSUCB.beta]; lra)).
  do 2 eexists. split; [reflexivity|]. split; [reflexivity|].
  intros j Hj. rewrite !get_tabulate by assumption.
  cbn [qSUCB.weights qSUCB.beta qSUCB.sampler qSUCB.model].
  unfold mc_score. apply average_le; [assumption|]. intros i _.
  apply max_upto_le. intros k _. unfold mc_ucb_sample.
  assert (Hs : sqrt (get (data beta1) 0 * PI / 2) <= sqrt (get (data beta2) 0 * PI / 2)).
  { pose proof PI_RGT_0. apply sqrt_le_1_alt. nra. }
  match goal with |- _ + _ * Rabs ?x <= _ => pose proof (Rabs_pos x) as Ha end.
  nra.
Qed.

Lemma mc_score_monotone_in_beta_example :
  exists out1 out2,
    fst (qSUCB.forward example_X_q3
           (qSUCB.mkSelf example_model (stream_sampler IIDNormal example_draw 4)
              (as_tensor 0.1) example_weights))
    = Ok (mkTensor [1%nat] out1)
    /\ fst (qSUCB.forward example_X_q3
              (qSUCB.mkSelf example_model (stream_sampler IIDNormal example_draw 4)
                 (as_tensor 0.2) example_weights))
       = Ok (mkTensor [1%nat] out2)
    /\ get out1 0 <= get out2 0.
Proof.
  destruct (mc_score_monotone_in_beta example_model
              (stream_sampler IIDNormal example_draw 4)
              (as_tensor 0.1) (as_tensor 0.2) example_weights example_X_q3
              [1%nat] 4 3 2) as [out1 [out2 [H1 [H2 H]]]];
    [ cbn; lia | reflexivity | reflexivity | reflexivity
    | discriminate | discriminate | reflexivity | reflexivity | cbn; lra | ].
  exists out1, out2. repeat split; [exact H1 | exact H2 | apply H; cbn; lia].
Defined.

Lemma get_map_scal c w a : get (map (Rmult c) w) a = c * get w a.
Proof.
  unfold get. rewrite <- (Rmult_0_r c) at 1.
  apply (map_nth (Rmult c) w 0 a).
Qed.

Lemma scalarize_scal c w d r :
  scalarize (map (Rmult c) w) d r = c * scalarize w d r.
Proof.
  unfold scalarize. rewrite length_map, <- sumn_scal.
  apply sumn_ext. intros a _. rewrite get_map_scal. lra.
Qed.

(** X13.  The Monte Carlo score is positively homogeneous in the weights:
    multiplying every weight by [c >= 0] multiplies every score by [c], so
    the ranking of inputs does not change. *)
Theorem mc_score_scaled_weights (model : Model) (sampler : MCSampler)
    (beta : Tensor) (w : list R) (c : R) (X : Tensor) (bs : list nat)
    (n q o : nat) :
  let p := posterior model (with_t_batch X) in
  (2 <= dim X)%nat ->
  shape (mean p) = bs ++ [q; o] ->
  length w = o ->
  sample_shape sampler = [n] ->
  n <> 0%nat ->
  q <> 0%nat ->
  numel (shape beta) = 1%nat ->
  0 <= get (data beta) 0 ->
  0 <= c ->
  exists out,
    fst (qSUCB.forward X (qSUCB.mkSelf model sampler beta w)) = Ok (mkTensor bs out)
    /\ fst (qSUCB.forward X (qSUCB.mkSelf model sampler beta (map (Rmult c) w)))
       = Ok (mkTensor bs (tabulate (numel bs) (fun j => c * get out j))).
Proof.
  intros p Hd Hm Hw Hn Hn0 Hq0 Hb1 Hb0 Hc.
  rewrite (mc_forward_spec (qSUCB.mkSelf model sampler beta w) X bs n q o),
          (mc_forward_spec (qSUCB.mkSelf model sampler beta (map (Rmult c) w)) X bs n q o)
    by (assumption || (cbn [qSUCB.weights]; now rewrite length_map)).
  eexists. split; [reflexivity|].
  cbn [fst qSUCB.weights qSUCB.beta qSUCB.sampler qSUCB.model]. do 2 f_equal.
  apply tabulate_ext. intros j Hj. rewrite get_tabulate by assumption.
  unfold mc_score.
  replace (c * (sumn n (fun i => max_upto (q - 1)
                                   (mc_ucb_sample w (get (data beta) 0) sampler
                                      (posterior model (with_t_batch X)) q i j))
                / INR n))
    with (c * sumn n (fun i => max_upto (q - 1)
                                 (mc_ucb_sample w (get (data beta) 0) sampler
                                    (posterior model (with_t_batch X)) q i j))
          / INR n) by (field; now apply not_0_INR).
  f_equal. rewrite <- sumn_scal. apply sumn_ext. intros i _.
  rewrite <- max_upto_scal by assumption.
  apply max_upto_ext. intros k _. unfold mc_ucb_sample.
  rewrite !scalarize_scal.
  match goal with
  | |- context [Rabs (c * ?s - c * ?m)] =>
      replace (c * s - c * m) with (c * (s - m)) by lra;
      rewrite (Rabs_mult c (s - m)), (Rabs_right c) by lra
  end.
  lra.
Qed.

Lemma mc_score_scaled_weights_example :
  exists out,
    fst (qSUCB.forward example_X_q3
           (qSUCB.mkSelf example_model (stream_sampler IIDNormal example_draw 4)
              example_beta example_weights))
    = Ok (mkTensor [1%nat] out)
    /\ fst (qSUCB.forward example_X_q3
              (qSUCB.mkSelf example_model (stream_sampler IIDNormal example_draw 4)
                 example_beta (map (Rmult 10) example_weights)))
       = Ok (mkTensor [1%nat] [10 * get out 0]).
Proof.
  apply (mc_score_scaled_weights example_model
           (stream_sampler IIDNormal example_draw 4) example_beta example_weights 10
           example_X_q3 [1%nat] 4 3 2);
    [ cbn; lia | reflexivity | reflexivity | reflexivity
    | discriminate | discriminate | reflexivity | cbn; lra | lra ].
Defined.

(** *** Order, scaling and special weights of the analytic score *)

(** X14.  The analytic score is the standard UCB [mu + sqrt beta * sigma] of the
    scalarized posterior, the normal distribution with mean [w^T mu] and
    variance [w^T C w], as the notebook describes it. *)
Theorem analytic_score_standard_ucb (s : SUCB.self) (X : Tensor) (b d o : nat) :
  let p := posterior (SUCB.model s) (with_t_batch X) in
  shape (with_t_batch X) = [b; 1%nat; d] ->
  shape (mean p) = [b; 1%nat; o] ->
  shape (covariance_matrix p) = [b; o; o] ->
  length (SUCB.weights s) = o ->
  o <> 0%nat ->
  expandable (rev (shape (SUCB.beta s))) [b] = true ->
  SUCB.maximize s = true ->
  (forall j, (j < b)%nat ->
     0 <= beta_entry (SUCB.beta s) j
     /\ 0 <= quadratic_form (SUCB.weights s) (data (covariance_matrix p)) j) ->
  fst (SUCB.forward X s) =
  Ok (mkTensor [b]
        (tabulate b
           (fun j =>
              let mu := scalarize (SUCB.weights s) (data (mean p)) j in
              let sigma :=
                sqrt (quadratic_form (SUCB.weights s) (data (covariance_matrix p)) j) in
              mu + sqrt (beta_entry (SUCB.beta s) j) * sigma))).
Proof.
  intros p HX Hm Hc Hw Ho Hb Hmax Hnn.
  rewrite (analytic_forward_spec s X b d o); try assumption.
  - cbn [fst]. do 2 f_equal. apply tabulate_ext. intros j Hj.
    destruct (Hnn j Hj) as [H1 H2].
    unfold analytic_score, analytic_delta. fold p. rewrite Hmax.
    cbv zeta. now rewrite sqrt_mult.
  - intros j Hj. destruct (Hnn j Hj). fold p. now apply Rmult_le_pos.
Qed.

Lemma analytic_score_standard_ucb_example :
  fst (SUCB.forward example_X example_SUCB) =
  Ok (mkTensor [1%nat] [1.1 + sqrt 0.1 * sqrt (0.1 * 0.1 + 0.5 * 0.5)]).
Proof.
  rewrite (analytic_score_standard_ucb example_SUCB example_X 1 2 2);
    [ | reflexivity | reflexivity | reflexivity | reflexivity
      | discriminate | reflexivity | reflexivity | ].
  - cbn [tabulate seq map]. cbv zeta.
    cbn [SUCB.model SUCB.weights SUCB.maximize SUCB.beta example_SUCB SUCB.__init__].
    rewrite example_scalarized_mean, example_quadratic_form by reflexivity.
    reflexivity.
  - intros j Hj. replace j with 0%nat by lia.
    cbn [SUCB.model SUCB.weights SUCB.beta example_SUCB SUCB.__init__].
    rewrite example_quadratic_form by reflexivity.
    unfold beta_entry. cbn. lra.
Defined.

(** X15.  More exploration widens the analytic score: with a non-negative
    scalarized variance, a larger [beta] gives a score that is no smaller
    when maximizing and no larger when minimizing. *)
Theorem analytic_score_monotone_in_beta (model : Model) (beta1 beta2 : Tensor)
    (w : list R) (maximize : bool) (X : Tensor) (b d o : nat) :
  let p := posterior model (with_t_batch X) in
  shape (with_t_batch X) = [b; 1%nat; d] ->
  shape (mean p) = [b; 1%nat; o] ->
  shape (covariance_matrix p) = [b; o; o] ->
  length w = o ->
  o <> 0%nat ->
  expandable (rev (shape beta1)) [b] = true ->
  expandable (rev (shape beta2)) [b] = true ->
  (forall j, (j < b)%nat ->
     0 <= beta_entry beta1 j <= beta_entry beta2 j
     /\ 0 <= quadratic_form w (data (covariance_matrix p)) j) ->
  exists out1 out2,
    fst (SUCB.forward X (SUCB.__init__ model beta1 w maximize)) = Ok (mkTensor [b] out1)
    /\ fst (SUCB.forward X (SUCB.__init__ model beta2 w maximize)) = Ok (mkTensor [b] out2)
    /\ forall j, (j < b)%nat ->
         if maximize then get out1 j <= get out2 j else get out2 j <= get out1 j.
Proof.
  intros p HX Hm Hc Hw Ho Hb1 Hb2 Hnn.
  rewrite (analytic_forward_spec (SUCB.__init__ model beta1 w maximize) X b d o),
          (analytic_forward_spec (SUCB.__init__ model beta2 w maximize) X b d o);
    try assumption.
  - do 2 eexists. split; [reflexivity|]. split; [reflexivity|].
    intros j Hj. rewrite !get_tabulate by assumption.
    cbn [SUCB.model SUCB.weights SUCB.beta SUCB.maximize SUCB.__init__].
    destruct (Hnn j Hj) as [[H0 H12] Hv].
    unfold analytic_score, analytic_delta. fold p.
    assert (sqrt (beta_entry beta1 j * quadratic_form w (data (covariance_matrix p)) j)
            <= sqrt (beta_entry beta2 j * quadratic_form w (data (covariance_matrix p)) j))
      by (apply sqrt_le_1_alt; nra).
    destruct maximize; lra.
  - intros j Hj. destruct (Hnn j Hj) as [[H0 H12] Hv].
    cbn [SUCB.model SUCB.weights SUCB.beta SUCB.__init__]. fold p. nra.
  - intros j Hj. destruct (Hnn j Hj) as [[H0 H12] Hv].
    cbn [SUCB.model SUCB.weights SUCB.beta SUCB.__init__]. fold p. nra.
Qed.

Lemma analytic_score_monotone_in_beta_example :
  exists out1 out2,
    fst (SUCB.forward example_X
           (SUCB.__init__ example_model (as_tensor 0.1) example_weights true))
    = Ok (mkTensor [1%nat] out1)
    /\ fst (SUCB.forward example_X
              (SUCB.__init__ example_model (as_tensor 0.2) example_weights true))
       = Ok (mkTensor [1%nat] out2)
    /\ get out1 0 <= get out2 0.
Proof.
  destruct (analytic_score_monotone_in_beta example_model (as_tensor 0.1) (as_tensor 0.2)
              example_weights true example_X 1 2 2) as [out1 [out2 [H1 [H2 H]]]];
    [ reflexivity | reflexivity | reflexivity | reflexivity
    | discriminate | reflexivity | reflexivity | | ].
  - intros j Hj. replace j with 0%nat by lia.
    rewrite example_quadratic_form by reflexivity.
    unfold beta_entry. cbn. lra.
  - exists out1, out2. repeat split; [exact H1 | exact H2 | apply (H 0%nat); lia].
Defined.

Lemma quadratic_form_scal c w covs j :
  quadratic_form (map (Rmult c) w) covs j = c * c * quadratic_form w covs j.
Proof.
  unfold quadratic_form. cbv zeta. rewrite length_map, <- sumn_scal.
  apply sumn_ext. intros a _. rewrite <- sumn_scal.
  apply sumn_ext. intros a' _. rewrite !get_map_scal. lra.
Qed.

(** X16.  The analytic score is positively homogeneous in the weights:
    multiplying every weight by [c >= 0] multiplies every score by [c]. *)
Theorem analytic_score_scaled_weights (model : Model) (beta : Tensor) (w : list R)
    (maximize : bool) (c : R) (X : Tensor) (b d o : nat) :
  let p := posterior model (with_t_batch X) in
  shape (with_t_batch X) = [b; 1%nat; d] ->
  shape (mean p) = [b; 1%nat; o] ->
  shape (covariance_matrix p) = [b; o; o] ->
  length w = o ->
  o <> 0%nat ->
  expandable (rev (shape beta)) [b] = true ->
  (forall j, (j < b)%nat ->
     0 <= beta_entry beta j * quadratic_form w (data (covariance_matrix p)) j) ->
  0 <= c ->
  exists out,
    fst (SUCB.forward X (SUCB.__init__ model beta w maximize)) = Ok (mkTensor [b] out)
    /\ fst (SUCB.forward X (SUCB.__init__ model beta (map (Rmult c) w) maximize))
       = Ok (mkTensor [b] (tabulate b (fun j => c * get out j))).
Proof.
  intros p HX Hm Hc Hw Ho Hb Hnn Hc0.
  assert (Hnn' : forall j, (j < b)%nat ->
            0 <= beta_entry beta j
                 * quadratic_form (map (Rmult c) w) (data (covariance_matrix p)) j).
  { intros j Hj. rewrite quadratic_form_scal. specialize (Hnn j Hj).
    replace (beta_entry beta j
             * (c * c * quadratic_form w (data (covariance_matrix p)) j))
      with (c * c * (beta_entry beta j
                     * quadratic_form w (data (covariance_matrix p)) j)) by lra.
    apply Rmult_le_pos; [nra | assumption]. }
  rewrite (analytic_forward_spec (SUCB.__init__ model beta w maximize) X b d o),
          (analytic_forward_spec (SUCB.__init__ model beta (map (Rmult c) w) maximize)
             X b d o);
    try assumption; try (cbn [SUCB.weights SUCB.__init__]; now rewrite length_map).
  eexists. split; [reflexivity|].
  cbn [fst SUCB.model SUCB.weights SUCB.beta SUCB.maximize SUCB.__init__]. do 2 f_equal.
  apply tabulate_ext. intros j Hj. rewrite get_tabulate by assumption.
  unfold analytic_score, analytic_delta. fold p.
  rewrite scalarize_scal, quadratic_form_scal.
  replace (beta_entry beta j
           * (c * c * quadratic_form w (data (covariance_matrix p)) j))
    with (c * c * (beta_entry beta j
                   * quadratic_form w (data (covariance_matrix p)) j)) by lra.
  rewrite sqrt_mult by (try apply Hnn; nra || assumption).
  rewrite sqrt_square by assumption.
  destruct maximize; lra.
Qed.

Lemma analytic_score_scaled_weights_example :
  exists out,
    fst (SUCB.forward example_X
           (SUCB.__init__ example_model example_beta example_weights true))
    = Ok (mkTensor [1%nat] out)
    /\ fst (SUCB.forward example_X
              (SUCB.__init__ example_model example_beta
                 (map (Rmult 10) example_weights) true))
       = Ok (mkTensor [1%nat] [10 * get out 0]).
Proof.
  apply (analytic_score_scaled_weights example_model example_beta example_weights true 10
           example_X 1 2 2);
    [ reflexivity | reflexivity | reflexivity | reflexivity
    | discriminate | reflexivity | | lra ].
  intros j Hj. replace j with 0%nat by lia.
  rewrite example_quadratic_form by reflexivity.
  unfold beta_entry. cbn. lra.
Defined.

(** X17.  Minimizing is maximizing the negated objective: the analytic score
    with [maximize = False] and weights [w] is the negative of the score
    with [maximize = True] and weights [-w]. *)
Theorem analytic_score_minimize_negates (model : Model) (beta : Tensor) (w : list R)
    (X : Tensor) (b d o : nat) :
  let p := posterior model (with_t_batch X) in
  shape (with_t_batch X) = [b; 1%nat; d] ->
  shape (mean p) = [b; 1%nat; o] ->
  shape (covariance_matrix p) = [b; o; o] ->
  length w = o ->
  o <> 0%nat ->
  expandable (rev (shape beta)) [b] = true ->
  (forall j, (j < b)%nat ->
     0 <= beta_entry beta j * quadratic_form w (data (covariance_matrix p)) j) ->
  exists upper,
    fst (SUCB.forward X (SUCB.__init__ model beta (map (Rmult (-1)) w) true))
    = Ok (mkTensor [b] upper)
    /\ fst (SUCB.forward X (SUCB.__init__ model beta w false))
       = Ok (mkTensor [b] (tabulate b (fun j => - get upper j))).
Proof.
  intros p HX Hm Hc Hw Ho Hb Hnn.
  assert (Hq : forall j,
            quadratic_form (map (Rmult (-1)) w) (data (covariance_matrix p)) j
            = quadratic_form w (data (covariance_matrix p)) j).
  { intros j. rewrite quadratic_form_scal. lra. }
  rewrite (analytic_forward_spec (SUCB.__init__ model beta w false) X b d o),
          (analytic_forward_spec (SUCB.__init__ model beta (map (Rmult (-1)) w) true)
             X b d o);
    try assumption; try (cbn [SUCB.weights SUCB.__init__]; now rewrite length_map).
  - eexists. split; [reflexivity|].
    cbn [fst SUCB.model SUCB.weights SUCB.beta SUCB.maximize SUCB.__init__]. do 2 f_equal.
    apply tabulate_ext. intros j Hj. rewrite get_tabulate by assumption.
    unfold analytic_score, analytic_delta. fold p.
    rewrite scalarize_scal, Hq. lra.
  - intros j Hj. cbn [SUCB.model SUCB.weights SUCB.beta SUCB.__init__]. fold p.
    rewrite Hq. now apply Hnn.
Qed.

Lemma analytic_score_minimize_negates_example :
  exists upper,
    fst (SUCB.forward example_X
           (SUCB.__init__ example_model example_beta
              (map (Rmult (-1)) example_weights) true))
    = Ok (mkTensor [1%nat] upper)
    /\ fst (SUCB.forward example_X
              (SUCB.__init__ example_model example_beta example_weights false))
       = Ok (mkTensor [1%nat] [- get upper 0]).
Proof.
  apply (analytic_score_minimize_negates example_model example_beta example_weights
           example_X 1 2 2);
    [ reflexivity | reflexivity | reflexivity | reflexivity
    | discriminate | reflexivity | ].
  intros j Hj. replace j with 0%nat by lia.
  rewrite example_quadratic_form by reflexivity.
  unfold beta_entry. cbn. lra.
Defined.

Lemma one_hot_length o a : length (one_hot o a) = o.
Proof. apply tabulate_length. Qed.

Lemma scalarize_one_hot o a d r :
  (a < o)%nat -> scalarize (one_hot o a) d r = get d (r * o + a).
Proof.
  intros Ha. unfold scalarize. rewrite one_hot_length.
  rewrite (sumn_ext o _ (fun i => (if (i =? a)%nat then 1 else 0) * get d (r * o + i))).
  - now apply (sumn_pick o a (fun i => get d (r * o + i))).
  - intros i Hi. unfold one_hot. now rewrite get_tabulate.
Qed.

Lemma quadratic_form_one_hot o a covs j :
  (a < o)%nat ->
  quadratic_form (one_hot o a) covs j = get covs (j * (o * o) + a * o + a).
Proof.
  intros Ha. unfold quadratic_form. cbv zeta. rewrite one_hot_length.
  rewrite (sumn_ext o _
             (fun i => (if (i =? a)%nat then 1 else 0)
                       * get covs (j * (o * o) + i * o + a))).
  - now apply (sumn_pick o a (fun i => get covs (j * (o * o) + i * o + a))).
  - intros i Hi.
    rewrite (sumn_ext o _
               (fun c => (if (c =? a)%nat then 1 else 0)
                         * (get (one_hot o a) i * get covs (j * (o * o) + i * o + c)))).
    + rewrite (sumn_pick o a
                 (fun c => get (one_hot o a) i * get covs (j * (o * o) + i * o + c)))
        by assumption.
      unfold one_hot. now rewrite get_tabulate.
    + intros c Hc. unfold one_hot. rewrite !get_tabulate by assumption. lra.
Qed.

(** X18.  With the weight vector that selects one output, the analytic score is
    the UCB of that output alone: its posterior mean plus or minus the root
    of [beta] times its posterior variance. *)
Theorem analytic_score_single_output (model : Model) (beta : Tensor)
    (maximize : bool) (X : Tensor) (b d o a : nat) :
  let p := posterior model (with_t_batch X) in
  shape (with_t_batch X) = [b; 1%nat; d] ->
  shape (mean p) = [b; 1%nat; o] ->
  shape (covariance_matrix p) = [b; o; o] ->
  (a < o)%nat ->
  expandable (rev (shape beta)) [b] = true ->
  (forall j, (j < b)%nat ->
     0 <= beta_entry beta j
          * get (data (covariance_matrix p)) (j * (o * o) + a * o + a)) ->
  fst (SUCB.forward X (SUCB.__init__ model beta (one_hot o a) maximize)) =
  Ok (mkTensor [b]
        (tabulate b
           (fun j =>
              let mu := get (data (mean p)) (j * o + a) in
              let variance :=
                get (data (covariance_matrix p)) (j * (o * o) + a * o + a) in
              if maximize
              then mu + sqrt (beta_entry beta j * variance)
              else mu - sqrt (beta_entry beta j * variance)))).
Proof.
  intros p HX Hm Hc Ha Hb Hnn.
  rewrite (analytic_forward_spec _ X b d o);
    try assumption; try apply one_hot_length; try lia.
  - cbn [fst SUCB.model SUCB.weights SUCB.beta SUCB.maximize SUCB.__init__].
    do 2 f_equal. apply tabulate_ext. intros j Hj.
    unfold analytic_score, analytic_delta. fold p.
    now rewrite scalarize_one_hot, quadratic_form_one_hot.
  - intros j Hj. cbn [SUCB.model SUCB.weights SUCB.beta SUCB.__init__]. fold p.
    rewrite quadratic_form_one_hot by assumption. now apply Hnn.
Qed.

Lemma analytic_score_single_output_example :
  fst (SUCB.forward example_X
         (SUCB.__init__ example_model example_beta (one_hot 2 1) true))
  = Ok (mkTensor [1%nat] [2 + sqrt (0.1 * 1)]).
Proof.
  rewrite (analytic_score_single_output example_model example_beta true example_X 1 2 2 1);
    [ reflexivity | reflexivity | reflexivity | reflexivity | lia | reflexivity | ].
  intros j Hj. replace j with 0%nat by lia.
  unfold beta_entry. cbn. unfold get. cbn. lra.
Defined.

(** *** Repeated evaluation *)

(** X19.  The Monte Carlo score has no [maximize] flag: for [q = 1] it is
    never below the scalarized mean.  At a t-batch element where [beta]
    and the scalarized variance are positive it stays above the analytic
    score with [maximize = False] by at least the exploration term, for
    every number of draws, so it does not tend to that score as draws are
    added, whatever the draws are. *)
Theorem mc_never_tends_to_minimizing_score (model : Model) (beta : Tensor)
    (w : list R) (c : SamplerClass) (draws : nat -> Posterior -> list R)
    (X : Tensor) (b d o j : nat) :
  let p := posterior model (with_t_batch X) in
  shape (with_t_batch X) = [b; 1%nat; d] ->
  shape (mean p) = [b; 1%nat; o] ->
  shape (covariance_matrix p) = [b; o; o] ->
  length w = o ->
  o <> 0%nat ->
  numel (shape beta) = 1%nat ->
  expandable (rev (shape beta)) [b] = true ->
  0 < get (data beta) 0 ->
  scalarized_variance_nonneg w (covariance_matrix p) ->
  (j < b)%nat ->
  0 < quadratic_form w (data (covariance_matrix p)) j ->
  (forall N,
      analytic_score w false beta p j
      + sqrt (get (data beta) 0 * quadratic_form w (data (covariance_matrix p)) j)
      <= mc_score w (get (data beta) 0) (stream_sampler c draws (S N)) p (S N) 1 j)
  /\ ~ mc_converges_to_analytic false model beta w c draws X b.
Proof.
  intros p HX Hm Hc Hw Ho Hb1 Hbe Hb0 Hvar Hj Hv.
  assert (Hbj : forall i, beta_entry beta i = get (data beta) 0).
  { intros i. unfold beta_entry. now rewrite Hb1. }
  split.
  { intros N.
    pose proof (mc_score_q1_above_mean w (get (data beta) 0) c draws p N j) as Habove.
    unfold analytic_score, analytic_delta. rewrite Hbj. lra. }
  intros [mc [L [Hmc [HL Hcv]]]].
  destruct (with_t_batch_dims X _ HX) as [Hd _]; [cbn; lia|].
  rewrite (analytic_forward_spec _ X b d o) in HL; try assumption; try reflexivity.
  2:{ intros i Hi. cbn [SUCB.beta SUCB.weights SUCB.model SUCB.__init__]. fold p.
      rewrite Hbj. apply Rmult_le_pos; [lra|]. apply Hvar. now rewrite Hc. }
  cbn [fst SUCB.beta SUCB.weights SUCB.model SUCB.maximize SUCB.__init__] in HL.
  fold p in HL. injection HL as HL.
  apply (f_equal (fun l => get l j)) in HL.
  rewrite !get_tabulate in HL by assumption.
  assert (HmcN : forall N,
            mc N j = mc_score w (get (data beta) 0)
                       (stream_sampler c draws (S N)) p (S N) 1 j).
  { intros N. specialize (Hmc N).
    rewrite (mc_forward_spec _ X [b] (S N) 1 o) in Hmc;
      try assumption; try reflexivity; try discriminate; try (cbn; lra).
    cbn [fst qSUCB.weights qSUCB.beta qSUCB.sampler qSUCB.model] in Hmc.
    fold p in Hmc. rewrite numel_1 in Hmc. injection Hmc as Hmc.
    apply (f_equal (fun l => get l j)) in Hmc.
    rewrite !get_tabulate in Hmc by assumption. now symmetry. }
  set (gap := sqrt (get (data beta) 0 * quadratic_form w (data (covariance_matrix p)) j)).
  assert (Hgap : 0 < gap) by (apply sqrt_lt_R0; nra).
  destruct (Hcv j Hj gap Hgap) as [N0 HN0].
  specialize (HN0 N0 (Nat.le_refl N0)). unfold R_dist in HN0.
  rewrite HmcN, <- HL in HN0.
  pose proof (mc_score_q1_above_mean w (get (data beta) 0) c draws p N0 j) as Habove.
  unfold analytic_score, analytic_delta in HN0. rewrite Hbj in HN0. fold gap in HN0.
  rewrite Rabs_right in HN0; lra.
Qed.

Lemma mc_never_tends_to_minimizing_score_example :
  ~ mc_converges_to_analytic false standard_normal_model (as_tensor 1) [1]
      IIDNormal symmetric_draws point_X 1.
Proof.
  apply (fun H1 H2 H3 H4 H5 H6 H7 H8 H9 H10 H11 =>
           proj2 (mc_never_tends_to_minimizing_score standard_normal_model
                    (as_tensor 1) [1] IIDNormal symmetric_draws point_X 1 1 1 0
                    H1 H2 H3 H4 H5 H6 H7 H8 H9 H10 H11));
    [ reflexivity | reflexivity | reflexivity | reflexivity | discriminate
    | reflexivity | reflexivity | cbn; lra | exact normal_variance_nonneg
    | lia | ].
  rewrite normal_quadratic_form by reflexivity. unfold get. cbn. lra.
Defined.

(** X20.  With one candidate per t-batch element ([q = 1]) the Monte Carlo
    score is the scalarized mean plus [sqrt (beta * pi / 2)] times the
    average distance of the scalarized draws from the scalarized mean.
    Where that average is [sqrt (2 v / pi)], the mean distance of a normal
    variable of variance [v] from its mean, [v] being the scalarized
    variance, the score is the analytic score with [maximize = True]. *)
Theorem mc_single_candidate_score (model : Model) (beta : Tensor) (w : list R)
    (c : SamplerClass) (draws : nat -> Posterior -> list R) (X : Tensor)
    (b o : nat) :
  let p := posterior model (with_t_batch X) in
  let coeff := sqrt (get (data beta) 0 * PI / 2) in
  (2 <= dim X)%nat ->
  shape (mean p) = [b; 1%nat; o] ->
  length w = o ->
  numel (shape beta) = 1%nat ->
  0 <= get (data beta) 0 ->
  (forall N,
      fst (qSUCB.forward X (qSUCB.mkSelf model (stream_sampler c draws (S N)) beta w))
      = Ok (mkTensor [b]
              (tabulate b
                 (fun j => scalarize w (data (mean p)) j
                           + coeff * mean_abs_deviation w draws p j N))))
  /\ (forall j,
        0 <= quadratic_form w (data (covariance_matrix p)) j ->
        scalarize w (data (mean p)) j
        + coeff * sqrt (2 * quadratic_form w (data (covariance_matrix p)) j / PI)
        = analytic_score w true beta p j).
Proof.
  intros p coeff Hd Hm Hw Hb1 Hb0. split.
  - intros N.
    rewrite (mc_forward_spec _ X [b] (S N) 1 o);
      try assumption; try reflexivity; try discriminate.
    cbn [fst qSUCB.weights qSUCB.beta qSUCB.sampler qSUCB.model]. fold p.
    rewrite numel_1. do 2 f_equal. apply tabulate_ext. intros j Hj.
    apply mc_score_q1.
  - intros j Hv. unfold analytic_score, analytic_delta, beta_entry, coeff.
    rewrite Hb1. cbn [Nat.eqb]. now rewrite ucb_scale_identity.
Qed.

Lemma mc_single_candidate_score_example :
  fst (qSUCB.forward point_X
         (qSUCB.mkSelf standard_normal_model
            (stream_sampler IIDNormal symmetric_draws 2) (as_tensor 1) [1]))
  = Ok (mkTensor [1%nat]
          (tabulate 1
             (fun j =>
                scalarize [1]
                  (data (mean (posterior standard_normal_model (with_t_batch point_X)))) j
                + sqrt (get (data (as_tensor 1)) 0 * PI / 2)
                  * mean_abs_deviation [1] symmetric_draws
                      (posterior standard_normal_model (with_t_batch point_X)) j 1))).
Proof.
  apply (proj1 (mc_single_candidate_score standard_normal_model (as_tensor 1) [1]
                  IIDNormal symmetric_draws point_X 1 1
                  ltac:(cbn; lia) eq_refl eq_refl eq_refl ltac:(cbn; lra)) 1%nat).
Defined.

(** X21.  A weight vector may be empty: for a model without outputs
    [w.view(1, -1, 1)] is a [1 x 0 x 1] tensor, all sums are empty, and the
    analytic [forward] returns the score 0 at every t-batch element. *)
Theorem analytic_score_without_outputs (s : SUCB.self) (X : Tensor) (b d : nat) :
  let p := posterior (SUCB.model s) (with_t_batch X) in
  shape (with_t_batch X) = [b; 1%nat; d] ->
  shape (mean p) = [b; 1%nat; 0%nat] ->
  shape (covariance_matrix p) = [b; 0%nat; 0%nat] ->
  SUCB.weights s = [] ->
  expandable (rev (shape (SUCB.beta s))) [b] = true ->
  SUCB.forward X s = (Ok (mkTensor [b] (tabulate b (fun _ => 0))), s).
Proof.
  intros p HX Hm Hc Hw Hb.
  assert (Hq : forall j,
            quadratic_form (SUCB.weights s) (data (covariance_matrix p)) j = 0).
  { intros j. rewrite Hw. reflexivity. }
  rewrite (analytic_forward_spec_any s X b d 0); try assumption.
  - do 3 f_equal. apply tabulate_ext. intros j Hj. fold p.
    unfold analytic_score, analytic_delta. rewrite Hq, Rmult_0_r, sqrt_0.
    rewrite Hw. unfold scalarize. cbn [length sumn].
    destruct (SUCB.maximize s); lra.
  - now rewrite Hw.
  - intros j Hj. fold p. rewrite Hq. lra.
Qed.

Lemma analytic_score_without_outputs_example :
  SUCB.forward example_X (SUCB.__init__ no_output_model example_beta [] true)
  = (Ok (mkTensor [1%nat] (tabulate 1 (fun _ => 0))),
     SUCB.__init__ no_output_model example_beta [] true).
Proof.
  apply (analytic_score_without_outputs
           (SUCB.__init__ no_output_model example_beta [] true) example_X 1 2);
    reflexivity.
Defined.

Lemma Un_cv_scaled (c : R) (u : nat -> R) (l : R) :
  Un_cv u l -> Un_cv (fun N => c * u N) (c * l).
Proof.
  intros Hu. apply (CV_mult (fun _ => c) u); [|exact Hu].
  intros eps Heps. exists 0%nat. intros n _.
  unfold R_dist. rewrite Rminus_diag, Rabs_R0. exact Heps.
Qed.

Lemma Un_cv_ext (u v : nat -> R) (l : R) :
  (forall N, u N = v N) -> Un_cv u l -> Un_cv v l.
Proof.
  intros H Hu eps Heps. destruct (Hu eps Heps) as [N0 HN0].
  exists N0. intros n Hn. rewrite <- H. now apply HN0.
Qed.


